(** * oracall: the CSV reader, the argument tree builder, the annotation
      rewriter, the protobuf schema emitter and the request bookkeeping of
      the gRPC server, embedded in Rocq.

    The Go sources embedded here are [oracall.go] of package [oracall]
    ([ParseCsv], [FilterAndGroup], [ReadCsv], [ParseArguments],
    [mustBeUint], [mustBeUint8], the methods of [Annotation],
    [ApplyAnnotations]), [structs/proto.go] of package [structs]
    ([SaveProtobuf], [ReturnsCursor], [saveProtobufDir],
    [protoWriteMessageTyp], [protoType]) and [orasrv/orasrv.go] of package
    [orasrv] (the closures [getLogger] and [commit] of [GRPCServer], and the
    accessors of the request context).

    Conventions of the embedding:
    - Go [int] and [uint] are 64 bits wide (the constant [1<<32] of
      [mustBeUint] does not fit a 32-bit [int]); they are modelled by [Z]
      with the range checks of the code written out.
    - [uint8] and [int8] are [Z] with explicit wrap-around ([to_int8]).
    - Go strings are [string] (sequences of bytes).
    - a [panic] is an explicit outcome, never a missing result.
    - pointers ([*Argument], [*Function]) are indices into an explicit store,
      so that two references to one object stay aliased. *)

From Stdlib Require Import ZArith Lia Ascii String Sorted.
From stdpp Require Import base option list gmap strings fin_maps pretty.

Local Open Scope Z_scope.

(** ** Outcomes of fallible Go code *)

(** What a Go function that may [panic] ends with. *)
Inductive outcome (E A : Type) : Type :=
  | Ret (a : A)
  | Panic (e : E).
Arguments Ret {E A} a.
Arguments Panic {E A} e.

Definition obind {E A B} (o : outcome E A) (k : A -> outcome E B) : outcome E B :=
  match o with
  | Ret a => k a
  | Panic e => Panic e
  end.

Notation "'let!' x ':=' c 'in' k" := (obind c (fun x => k))
  (at level 10, x name, c at level 200, k at level 200).

(** Go's two's-complement conversion [int8(x)]. *)
Definition to_int8 (z : Z) : Z := (z + 128) mod 256 - 128.

(** The three flavors of an Argument (the constants [FLAVOR_SIMPLE],
    [FLAVOR_RECORD], [FLAVOR_TABLE] of both packages). *)
Inductive FlavorKind : Type :=
  | FLAVOR_SIMPLE
  | FLAVOR_RECORD
  | FLAVOR_TABLE.

#[global] Instance FlavorKind_eq_dec : EqDecision FlavorKind.
Proof. solve_decision. Defined.

(** ** Helpers of package strings *)

Definition HasPrefix (s p : string) : bool := String.prefix p s.

Definition HasSuffix (s suf : string) : bool :=
  let n := String.length s in
  let m := String.length suf in
  (m <=? n)%nat && String.eqb (substring (n - m) m s) suf.

Definition drop_bytes (k : nat) (s : string) : string :=
  substring k (String.length s - k) s.

Definition TrimPrefix (s p : string) : string :=
  if HasPrefix s p then drop_bytes (String.length p) s else s.

(** [strings.NewReplacer(".", "__").Replace]. *)
Fixpoint dot2D (s : string) : string :=
  match s with
  | EmptyString => EmptyString
  | String c rest =>
      if decide (c = "."%char) then String "_" (String "_" (dot2D rest))
      else String c (dot2D rest)
  end.

(** ** strconv.Atoi *)

Module Strconv.

Inductive NumError : Type :=
  | ErrSyntax
  | ErrRange.

Definition is_digit (c : ascii) : bool :=
  let n := Z.of_N (Ascii.N_of_ascii c) in (48 <=? n) && (n <=? 57).

Definition digit_val (c : ascii) : Z := Z.of_N (Ascii.N_of_ascii c) - 48.

Definition maxUint64 : Z := 2 ^ 64 - 1.

(** The digit loop of [ParseUint(s, 10, 64)]: a byte that is no decimal
    digit is a syntax error, an accumulator that leaves 64 bits a range
    error; whichever the scan meets first is reported. *)
Fixpoint parse_digits (acc : Z) (s : string) : NumError + Z :=
  match s with
  | EmptyString => inr acc
  | String c rest =>
      if is_digit c then
        if maxUint64 / 10 + 1 <=? acc then inl ErrRange
        else
          let n1 := acc * 10 + digit_val c in
          if maxUint64 <? n1 then inl ErrRange else parse_digits n1 rest
      else inl ErrSyntax
  end.

(** [ParseInt(s, 10, 0)] on a 64-bit platform, which is what [Atoi] computes
    (its fast path for short strings returns the same values). *)
Definition Atoi (s : string) : NumError + Z :=
  match s with
  | EmptyString => inl ErrSyntax
  | String c rest =>
      let neg := bool_decide (c = "-"%char) in
      let signed := neg || bool_decide (c = "+"%char) in
      let body := if signed then rest else s in
      match body with
      | EmptyString => inl ErrSyntax
      | _ =>
          match parse_digits 0 body with
          | inl e => inl e
          | inr un =>
              if negb neg && (2 ^ 63 <=? un) then inl ErrRange
              else if neg && (2 ^ 63 <? un) then inl ErrRange
              else inr (if neg then - un else un)
          end
      end
  end.

End Strconv.

(** ** Package oracall: the numeric fields of a row *)

Module Oracall.

(** Why [mustBeUint], [mustBeUint8], a row conversion or the tree builder
    panicked. *)
Inductive PanicReason : Type :=
  | PanicNumError (e : Strconv.NumError)
  | PanicOutOfRange (u : Z)
  | PanicIndexOutOfRange
  | PanicParentIsNil (level : Z).

Definition mustBeUint (text : string) : outcome PanicReason Z :=
  if bool_decide (text = ""%string) then Ret 0
  else
    match Strconv.Atoi text with
    | inl e => Panic (PanicNumError e)
    | inr u =>
        if (u <? 0) || (2 ^ 32 <? u) then Panic (PanicOutOfRange u)
        else Ret u
    end.

Definition mustBeUint8 (text : string) : outcome PanicReason Z :=
  if bool_decide (text = ""%string) then Ret 0
  else
    match Strconv.Atoi text with
    | inl e => Panic (PanicNumError e)
    | inr u =>
        if (u <? 0) || (255 <? u) then Panic (PanicOutOfRange u)
        else Ret u
    end.


(** ** Package oracall: rows of the catalog export *)

(** [UserArgument]: one row of the [user_arguments] view.  [LastDDL] is a
    [time.Time]; only its being copied matters here, so it is a number. *)
Record UserArgument : Type := mkUserArgument {
  PackageName : string;
  ObjectName : string;
  LastDDL : Z;
  ArgumentName : string;
  InOut : string;
  DataType : string;
  CharacterSetName : string;
  PlsType : string;
  TypeLink : string;
  TypeOwner : string;
  TypeName : string;
  TypeSubname : string;
  ObjectID : Z;
  SubprogramID : Z;
  CharLength : Z;
  Position : Z;
  DataPrecision : Z;
  DataScale : Z;
  DataLevel : Z
}.

(** *** ReadCsv *)

Inductive IoError : Type :=
  | EOF.

(** [bufio.Reader.Peek(n)] over a stream that delivers [input] and then ends:
    the next [n] bytes, or the reason why fewer are there. *)
Definition Peek (n : nat) (input : string) : IoError + string :=
  if decide (n <= String.length input)%nat then inr (substring 0 n input)
  else inl EOF.

Fixpoint IndexByte (b : string) (c : ascii) : bool :=
  match b with
  | EmptyString => false
  | String x rest => if decide (x = c) then true else IndexByte rest c
  end.

(** How reading the CSV ended when it did not end well. *)
Inductive ReadError (CsvError : Type) : Type :=
  | ErrPeeking (e : IoError)
  | ErrHeadEOF
  | ErrHead (e : CsvError)
  | ErrFieldCount
  | ErrRecord (e : CsvError).
Arguments ErrPeeking {CsvError} e.
Arguments ErrHeadEOF {CsvError}.
Arguments ErrHead {CsvError} e.
Arguments ErrFieldCount {CsvError}.
Arguments ErrRecord {CsvError} e.

Definition csvHeaders : list string :=
  ["OBJECT_ID"; "SUBPROGRAM_ID"; "PACKAGE_NAME";
   "OBJECT_NAME"; "DATA_LEVEL"; "SEQUENCE"; "ARGUMENT_NAME"; "IN_OUT";
   "DATA_TYPE"; "DATA_PRECISION"; "DATA_SCALE"; "CHARACTER_SET_NAME";
   "PLS_TYPE"; "CHAR_LENGTH";
   "TYPE_LINK"; "TYPE_OWNER"; "TYPE_NAME"; "TYPE_SUBNAME"]%string.

Definition csvFields_init : gmap string Z :=
  fold_left (fun m h => <[h := -1]> m) csvHeaders ∅.

(** [rec[csvFields[name]]]: a slice index that panics when it is out of
    range, which is what the unset sentinel [-1] does. *)
Definition column (rec : list string) (csvFields : gmap string Z) (name : string)
  : outcome PanicReason string :=
  let j := default 0 (csvFields !! name) in
  if j <? 0 then Panic PanicIndexOutOfRange
  else match rec !! Z.to_nat j with
       | Some v => Ret v
       | None => Panic PanicIndexOutOfRange
       end.

(** The struct literal of the reading loop, its operands taken in the order
    they are written. *)
Definition row_of_record (rec : list string) (f : gmap string Z)
  : outcome PanicReason UserArgument :=
  let! objectID := (let! t := column rec f "OBJECT_ID" in mustBeUint t) in
  let! subprogramID := (let! t := column rec f "SUBPROGRAM_ID" in mustBeUint t) in
  let! packageName := column rec f "PACKAGE_NAME" in
  let! objectName := column rec f "OBJECT_NAME" in
  let! dataLevel := (let! t := column rec f "DATA_LEVEL" in mustBeUint8 t) in
  let! position := (let! t := column rec f "SEQUENCE" in mustBeUint t) in
  let! argumentName := column rec f "ARGUMENT_NAME" in
  let! inOut := column rec f "IN_OUT" in
  let! dataType := column rec f "DATA_TYPE" in
  let! dataPrecision := (let! t := column rec f "DATA_PRECISION" in mustBeUint8 t) in
  let! dataScale := (let! t := column rec f "DATA_SCALE" in mustBeUint8 t) in
  let! characterSetName := column rec f "CHARACTER_SET_NAME" in
  let! charLength := (let! t := column rec f "CHAR_LENGTH" in mustBeUint t) in
  let! plsType := column rec f "PLS_TYPE" in
  let! typeLink := column rec f "TYPE_LINK" in
  let! typeOwner := column rec f "TYPE_OWNER" in
  let! typeName := column rec f "TYPE_NAME" in
  let! typeSubname := column rec f "TYPE_SUBNAME" in
  Ret {| PackageName := packageName; ObjectName := objectName; LastDDL := 0;
         ArgumentName := argumentName; InOut := inOut; DataType := dataType;
         CharacterSetName := characterSetName; PlsType := plsType;
         TypeLink := typeLink; TypeOwner := typeOwner; TypeName := typeName;
         TypeSubname := typeSubname; ObjectID := objectID;
         SubprogramID := subprogramID; CharLength := charLength;
         Position := position; DataPrecision := dataPrecision;
         DataScale := dataScale; DataLevel := dataLevel |}.

Section ReadCsv.

(** The [encoding/csv] reader is a library; it enters as the function that
    splits a stream into records for a given separator (with [LazyQuotes] and
    [TrimLeadingSpace] set), together with the parse error that stopped it, if
    one did.  [strings.ToUpper] likewise. *)
Variable CsvError : Type.
Variable csv_records : ascii -> string -> list (list string) * option CsvError.
Variable ToUpper : string -> string.

(** The header loop: the first column carrying a wanted name wins. *)
Definition resolve_header (head : list string) : gmap string Z :=
  fold_left
    (fun m ih =>
       let h := ToUpper (snd ih) in
       match m !! h with
       | Some j => if j <? 0 then <[h := Z.of_nat (fst ih)]> m else m
       | None => m
       end)
    (imap (fun i h => (i, h)) head) csvFields_init.

(** The reading loop: rows sent so far, and how the loop ended. *)
Fixpoint read_records (nfields : nat) (f : gmap string Z)
    (recs : list (list string)) (tail_err : option CsvError)
    (sent : list UserArgument)
  : list UserArgument * outcome PanicReason (option (ReadError CsvError)) :=
  match recs with
  | [] => (sent, Ret (option_map ErrRecord tail_err))
  | rec :: rest =>
      if decide (length rec = nfields) then
        match row_of_record rec f with
        | Ret arg => read_records nfields f rest tail_err (sent ++ [arg])
        | Panic e => (sent, Panic e)
        end
      else (sent, Ret (Some ErrFieldCount))
  end.

Definition ReadCsv (r : string)
  : list UserArgument * outcome PanicReason (option (ReadError CsvError)) :=
  match Peek 100 r with
  | inl e => ([], Ret (Some (ErrPeeking e)))
  | inr b =>
      let comma := if IndexByte b ";" then ";"%char else ","%char in
      match csv_records comma r with
      | ([], None) => ([], Ret (Some ErrHeadEOF))
      | ([], Some e) => ([], Ret (Some (ErrHead e)))
      | (head :: recs, tail_err) =>
          read_records (length head) (resolve_header head) recs tail_err []
      end
  end.

End ReadCsv.

(** *** The argument tree *)

(** A [*Argument] is the index of a cell of the store of Arguments. *)
Abbreviation ptr := nat (only parsing).

(** [Argument].  [TableOf] is a [*Argument]; [RecordOf] is a slice of
    [NamedArgument{Name, *Argument}]. *)
Record Argument : Type := mkArgument {
  Name : string;
  Type_ : string;
  arg_PlsType : string;
  arg_TypeName : string;
  Direction : Z;
  Flavor : FlavorKind;
  Charset : string;
  Precision : Z;
  Scale : Z;
  Charlength : Z;
  TableOf : option ptr;
  RecordOf : list (string * ptr)
}.

Definition set_Name (n : string) (a : Argument) : Argument :=
  mkArgument n (Type_ a) (arg_PlsType a) (arg_TypeName a) (Direction a)
    (Flavor a) (Charset a) (Precision a) (Scale a) (Charlength a)
    (TableOf a) (RecordOf a).

Definition set_TableOf (t : option ptr) (a : Argument) : Argument :=
  mkArgument (Name a) (Type_ a) (arg_PlsType a) (arg_TypeName a) (Direction a)
    (Flavor a) (Charset a) (Precision a) (Scale a) (Charlength a)
    t (RecordOf a).

Definition set_RecordOf (r : list (string * ptr)) (a : Argument) : Argument :=
  mkArgument (Name a) (Type_ a) (arg_PlsType a) (arg_TypeName a) (Direction a)
    (Flavor a) (Charset a) (Precision a) (Scale a) (Charlength a)
    (TableOf a) r.

(** [Function], with the fields this file's code reads and writes.
    [Returns] is a [*Argument], [Replacement] a [*Function]. *)
Record Function : Type := mkFunction {
  Package : string;
  name : string;
  alias : string;
  fun_LastDDL : Z;
  Args : list Argument;
  Returns : option ptr;
  Replacement : option ptr;
  ReplacementIsJSON : bool;
  handle : list string;
  maxTableSize : Z
}.

(** [Function{Package: ..., name: ..., LastDDL: ...}]: every other field has
    Go's zero value. *)
Definition new_Function (pkg nm : string) (ddl : Z) : Function :=
  mkFunction pkg nm "" ddl [] None None false [] 0.

Definition set_Args (args : list Argument) (f : Function) : Function :=
  mkFunction (Package f) (name f) (alias f) (fun_LastDDL f) args (Returns f)
    (Replacement f) (ReplacementIsJSON f) (handle f) (maxTableSize f).

Definition set_Returns (r : option ptr) (f : Function) : Function :=
  mkFunction (Package f) (name f) (alias f) (fun_LastDDL f) (Args f) r
    (Replacement f) (ReplacementIsJSON f) (handle f) (maxTableSize f).

Definition last_byte (s : string) : option ascii :=
  match String.length s with
  | O => None
  | S n => String.get n s
  end.

Section ParseArguments.

(** [NewArgument] lives in a file of the package that is not at hand.  What
    the tree builder needs of it is the flavor it gives to a data type and the
    direction bits it gives to an [IN_OUT] text; both enter as functions. *)
Variable flavorOf : string -> FlavorKind.
Variable directionOf : string -> Z -> Z.

(** Modelled from the spec: [NewArgument], which builds an Argument from the
    scalar fields of a row (name, type tag, PL type, linked type name,
    direction, character set, precision, scale, length).  The new Argument has
    no element type and no fields yet. *)
Definition NewArgument (nm dataType plsType typeName dirName : string) (dir : Z)
    (charset : string) (precision scale charlength : Z) : Argument :=
  {| Name := nm; Type_ := dataType; arg_PlsType := plsType;
     arg_TypeName := typeName; Direction := directionOf dirName dir;
     Flavor := flavorOf dataType; Charset := charset; Precision := precision;
     Scale := scale; Charlength := charlength;
     TableOf := None; RecordOf := [] |}.

(** The Argument the loop body builds from a row. *)
Definition arg_of_row (ua : UserArgument) : Argument :=
  NewArgument (ArgumentName ua) (DataType ua) (PlsType ua)
    (TypeOwner ua ++ "." ++ TypeName ua ++ "." ++ TypeSubname ua ++ "@" ++ TypeLink ua)
    (InOut ua) 0 (CharacterSetName ua) (DataPrecision ua) (DataScale ua)
    (CharLength ua).

(** The variables of one pass of the outer loop: the store of Arguments, the
    map [lastArgs] (keyed by [int8]) and [fun.Returns]. *)
Record BuildState : Type := mkBuildState {
  heap : list Argument;
  lastArgs : gmap Z ptr;
  st_Returns : option ptr
}.

(** [parent.TableOf = &arg] or [parent.RecordOf = append(...)], on the cell
    [p] of the store. *)
Definition attach (p q : ptr) (nm : string) (h : list Argument) : list Argument :=
  match h !! p with
  | Some parent =>
      if decide (Flavor parent = FLAVOR_TABLE)
      then <[p := set_TableOf (Some q) parent]> h
      else <[p := set_RecordOf (RecordOf parent ++ [(nm, q)]) parent]> h
  | None => h
  end.

(** The body of the inner loop for one row. *)
Definition process_row (st : BuildState) (ua : UserArgument)
  : outcome PanicReason BuildState :=
  let level := to_int8 (DataLevel ua) in
  let arg := arg_of_row ua in
  let q := length (heap st) in
  let h1 := heap st ++ [arg] in
  let la1 := if decide (Flavor arg <> FLAVOR_SIMPLE)
             then <[level := q]> (lastArgs st) else lastArgs st in
  if decide (level = 0 /\ st_Returns st = None /\ Name arg = ""%string) then
    Ret (mkBuildState (<[q := set_Name "ret" arg]> h1) la1 (Some q))
  else
    match la1 !! to_int8 (level - 1) with
    | None => Panic (PanicParentIsNil level)
    | Some p => Ret (mkBuildState (attach p q (Name arg) h1) la1 (st_Returns st))
    end.

Fixpoint process_rows (st : BuildState) (uas : list UserArgument)
  : outcome PanicReason BuildState :=
  match uas with
  | [] => Ret st
  | ua :: rest => let! st1 := process_row st ua in process_rows st1 rest
  end.

(** The state a batch starts from: the sentinel RECORD is allocated and
    registered at level [-1]. *)
Definition root_Argument : Argument :=
  {| Name := ""; Type_ := ""; arg_PlsType := ""; arg_TypeName := "";
     Direction := 0; Flavor := FLAVOR_RECORD; Charset := ""; Precision := 0;
     Scale := 0; Charlength := 0; TableOf := None; RecordOf := [] |}.

Definition batch_init (h : list Argument) : BuildState :=
  mkBuildState (h ++ [root_Argument]) {[ -1 := length h ]} None.

(** [fun.Args[i] = *na.Argument] for the fields of [lastArgs[-1]]. *)
Definition collect_Args (st : BuildState) : list Argument :=
  match lastArgs st !! (-1) with
  | Some r =>
      match heap st !! r with
      | Some root => omap (fun na => heap st !! snd na) (RecordOf root)
      | None => []
      end
  | None => []
  end.

(** Whether the outer loop skips a batch, judged on its first row; an empty
    batch or an empty object name makes the index expression panic. *)
Definition skip_batch (filter : option (string -> bool)) (uas : list UserArgument)
  : outcome PanicReason bool :=
  match uas with
  | [] => Panic PanicIndexOutOfRange
  | ua :: _ =>
      match last_byte (ObjectName ua) with
      | None => Panic PanicIndexOutOfRange
      | Some c =>
          Ret (bool_decide (c = "#"%char)
               || match filter with
                  | Some f => negb (f (ObjectName ua))
                  | None => false
                  end)
      end
  end.

(** One pass of the outer loop over a batch that is not skipped. *)
Definition build_function (h : list Argument) (uas : list UserArgument)
  : outcome PanicReason (Function * list Argument) :=
  let! st := process_rows (batch_init h) uas in
  let fn := match uas with
            | ua :: _ => new_Function (PackageName ua) (ObjectName ua) (LastDDL ua)
            | [] => new_Function "" "" 0
            end in
  Ret (set_Args (collect_Args st) (set_Returns (st_Returns st) fn), heap st).

(** The outer loop: the functions built so far and the store. *)
Fixpoint parse_batches (filter : option (string -> bool))
    (batches : list (list UserArgument)) (acc : list Function) (h : list Argument)
  : outcome PanicReason (list Function * list Argument) :=
  match batches with
  | [] => Ret (acc, h)
  | uas :: rest =>
      let! skip := skip_batch filter uas in
      if (skip : bool) then parse_batches filter rest acc h
      else
        let! fh := build_function h uas in
        parse_batches filter rest (acc ++ [fst fh]) (snd fh)
  end.

(** [ParseArguments]: the channel of batches is the list of what it
    delivers; the result is the slice of Functions and the store their
    pointers refer to. *)
Definition ParseArguments (userArgs : list (list UserArgument))
    (filter : option (string -> bool))
  : outcome PanicReason (list Function * list Argument) :=
  parse_batches filter userArgs [] [].

(** A pre-order walk of one Argument of a Function: its level and name, then
    its element type and its fields one level deeper.  The store could hold a
    cycle, so the walk carries a bound on its depth. *)
Fixpoint walk (fuel : nat) (h : list Argument) (lvl : Z) (a : Argument)
  : list (Z * string) :=
  match fuel with
  | O => []
  | S n =>
      let sub q := match h !! q with
                   | Some c => walk n h (lvl + 1) c
                   | None => []
                   end in
      (lvl, Name a)
        :: match TableOf a with Some q => sub q | None => [] end
        ++ concat (map (fun na => sub (snd na)) (RecordOf a))
  end.

Definition walk_all (fuel : nat) (h : list Argument) (args : list Argument)
  : list (Z * string) :=
  concat (map (walk fuel h 0) args).

End ParseArguments.

(** *** FilterAndGroup and ParseCsv *)

(** The local struct [program] of [FilterAndGroup]: what tells the rows of
    one subprogram from those of the next. *)
Record program : Type := mkProgram {
  prog_ObjectID : Z;
  prog_SubprogramID : Z;
  prog_PackageName : string;
  prog_ObjectName : string
}.

#[global] Instance program_eq_dec : EqDecision program.
Proof. solve_decision. Defined.

Definition zeroProg : program := mkProgram 0 0 "" "".

Definition program_of (ua : UserArgument) : program :=
  mkProgram (ObjectID ua) (SubprogramID ua) (PackageName ua) (ObjectName ua).

(** [filter != nil && !filter(ua.PackageName + "." + ua.ObjectName)]. *)
Definition filtered_out (filter : option (string -> bool)) (ua : UserArgument)
  : bool :=
  match filter with
  | Some f => negb (f (PackageName ua ++ "." ++ ObjectName ua)%string)
  | None => false
  end.

(** The loop of [FilterAndGroup] over the rows still to come: [lastProg] and
    [args] are its variables, [sent] is what went to [filteredArgs] so far. *)
Fixpoint group_rows (filter : option (string -> bool))
    (userArgs : list UserArgument) (lastProg : program)
    (args : list UserArgument) (sent : list (list UserArgument))
  : list (list UserArgument) :=
  match userArgs with
  | [] => if decide (length args <> 0%nat) then sent ++ [args] else sent
  | ua :: rest =>
      if filtered_out filter ua then group_rows filter rest lastProg args sent
      else
        let actProg := program_of ua in
        if decide (lastProg <> zeroProg /\ lastProg <> actProg) then
          if decide (length args <> 0%nat)
          then group_rows filter rest actProg [ua] (sent ++ [args])
          else group_rows filter rest actProg (args ++ [ua]) sent
        else group_rows filter rest actProg (args ++ [ua]) sent
  end.

(** [FilterAndGroup]: the batches it sends for the rows it receives. *)
Definition FilterAndGroup (filter : option (string -> bool))
    (userArgs : list UserArgument) : list (list UserArgument) :=
  group_rows filter userArgs zeroProg [] [].

Section ParseCsv.

Variable CsvError : Type.
Variable csv_records : ascii -> string -> list (list string) * option CsvError.
Variable ToUpper : string -> string.
Variable flavorOf : string -> FlavorKind.
Variable directionOf : string -> Z -> Z.

(** [ParseCsv]: the reader and the grouping run as goroutines, joined to
    the tree builder by channels, so each stage receives what the stage before
    it sent.  The error returned is the reader's, [ParseArguments] having none
    of its own.  A panic of the reader or of the builder ends the process;
    when both would panic the scheduler decides which one is met, so the
    outcome lists them. *)
Definition ParseCsv (r : string) (filter : option (string -> bool))
  : outcome (list PanicReason)
      (list Function * list Argument * option (ReadError CsvError)) :=
  let read := ReadCsv CsvError csv_records ToUpper r in
  let built :=
    ParseArguments flavorOf directionOf (FilterAndGroup filter (fst read)) filter in
  match snd read, built with
  | Ret err, Ret fh => Ret (fst fh, snd fh, err)
  | Panic e, Ret _ => Panic [e]
  | Ret _, Panic e => Panic [e]
  | Panic e1, Panic e2 => Panic [e1; e2]
  end.

End ParseCsv.

(** *** Annotations *)

(** [Annotation{Package, Type, Name, Other, Size}]; the prefix keeps its
    fields apart from those of [Function] and [Argument]. *)
Record Annotation : Type := mkAnnotation {
  ann_Package : string;
  ann_Type : string;
  ann_Name : string;
  ann_Other : string;
  ann_Size : Z
}.

Definition FullName (a : Annotation) : string :=
  if bool_decide (ann_Package a = ""%string) || bool_decide (ann_Name a = ""%string)
  then ann_Name a
  else ann_Package a ++ "." ++ ann_Name a.

Definition FullOther (a : Annotation) : string :=
  if bool_decide (ann_Package a = ""%string) || bool_decide (ann_Other a = ""%string)
  then ann_Other a
  else ann_Package a ++ "." ++ ann_Other a.

(** [Annotation.String]; [%d] writes the size in decimal. *)
Definition Annotation_String (a : Annotation) : string :=
  if bool_decide (ann_Type a = ""%string) || bool_decide (ann_Name a = ""%string)
  then ""%string
  else if bool_decide (ann_Type a = "private"%string)
  then (ann_Type a ++ " " ++ FullName a)%string
  else if bool_decide (ann_Type a = "max-table-size"%string)
  then (FullName a ++ ".MaxTableSize=" ++ pretty (ann_Size a))%string
  else (ann_Type a ++ " " ++ FullName a ++ "=>" ++ FullOther a)%string.

Definition set_alias (al : string) (f : Function) : Function :=
  mkFunction (Package f) (name f) al (fun_LastDDL f) (Args f) (Returns f)
    (Replacement f) (ReplacementIsJSON f) (handle f) (maxTableSize f).

Definition set_Replacement (r : option ptr) (json : bool) (f : Function) : Function :=
  mkFunction (Package f) (name f) (alias f) (fun_LastDDL f) (Args f) (Returns f)
    r json (handle f) (maxTableSize f).

Definition add_handle (exc : string) (f : Function) : Function :=
  mkFunction (Package f) (name f) (alias f) (fun_LastDDL f) (Args f) (Returns f)
    (Replacement f) (ReplacementIsJSON f) (handle f ++ [exc]) (maxTableSize f).

Definition set_maxTableSize (n : Z) (f : Function) : Function :=
  mkFunction (Package f) (name f) (alias f) (fun_LastDDL f) (Args f) (Returns f)
    (Replacement f) (ReplacementIsJSON f) (handle f) n.

(** The map [funcs] of [*Function] and the store those pointers refer to. *)
Record AnnState : Type := mkAnnState {
  funcs : gmap string ptr;
  fstore : list Function
}.

(** A write through a [*Function]: the cell [p] of the store becomes [g] of
    what it held. *)
Definition update_fun (p : ptr) (g : Function -> Function) (st : list Function)
  : list Function :=
  match st !! p with
  | Some f => <[p := g f]> st
  | None => st
  end.

Section ApplyAnnotations.

(** [strings.ToLower], [strings.ToUpper] and [strings.EqualFold] are
    library functions; the methods [RealName] and [Name] of [Function] are in
    a file of the package that is not at hand.  All enter as functions. *)
Variable L : string -> string.
Variable ToUpper : string -> string.
Variable EqualFold : string -> string -> bool.
Variable RealName : Function -> string.
Variable FunctionName : Function -> string.

(** The first loop: a copy of every function goes to the store, and its
    address is filed under its lower-cased real name. *)
Definition index_functions (store : list Function) (functions : list Function)
  : AnnState :=
  mkAnnState
    (fold_left (fun m pf => <[L (RealName (snd pf)) := (length store + fst pf)%nat]> m)
       (imap (fun i f => (i, f)) functions) ∅)
    (store ++ functions).

(** The body of the second loop for one annotation. *)
Definition apply_annotation (st : AnnState) (a : Annotation) : AnnState :=
  let ty := ann_Type a in
  if bool_decide (ann_Name a = ""%string) || bool_decide (ty = ""%string) then st
  else if bool_decide (ann_Other a = ""%string)
          && negb (bool_decide (ty = "private"%string)
                   || bool_decide (ty = "handle"%string)
                   || bool_decide (ty = "max-table-size"%string)) then st
  else if (ann_Size a <=? 0) && bool_decide (ty = "max-table-size"%string) then st
  else if bool_decide (ty = "private"%string) then
    mkAnnState (delete (L (FullName a)) (funcs st)) (fstore st)
  else if bool_decide (ty = "rename"%string) then
    let nm := L (FullName a) in
    match funcs st !! nm with
    | Some p =>
        mkAnnState (<[L (FullOther a) := p]> (delete nm (funcs st)))
                   (update_fun p (set_alias (ann_Other a)) (fstore st))
    | None => st
    end
  else if bool_decide (ty = "replace"%string) || bool_decide (ty = "replace_json"%string) then
    let k := L (FullName a) in
    let v := L (FullOther a) in
    match funcs st !! k with
    | Some p =>
        let store1 :=
          update_fun p (set_Replacement (funcs st !! v)
                          (bool_decide (ty = "replace_json"%string))) (fstore st) in
        let key := match store1 !! p with
                   | Some f => L (FunctionName f)
                   | None => k
                   end in
        mkAnnState (<[key := p]> (delete v (funcs st))) store1
    | None => st
    end
  else if bool_decide (ty = "handle"%string) then
    let exc := ToUpper (ann_Name a) in
    mkAnnState (funcs st)
      (fold_left
         (fun store kp =>
            update_fun (snd kp)
              (fun f => if EqualFold (Package f) (ann_Package a)
                        then add_handle exc f else f) store)
         (map_to_list (funcs st)) (fstore st))
  else if bool_decide (ty = "max-table-size"%string) then
    match funcs st !! L (FullName a) with
    | Some p =>
        mkAnnState (funcs st)
          (update_fun p
             (fun f => if maxTableSize f <=? ann_Size a
                       then set_maxTableSize (ann_Size a) f else f) (fstore st))
    | None => st
    end
  else st.

Definition apply_annotations (st : AnnState) (annotations : list Annotation)
  : AnnState :=
  fold_left apply_annotation annotations st.

(** The last loop: the functions the map still points to.  Go leaves the
    order of a map iteration open; here it is the order of [map_to_list]. *)
Definition collect_functions (st : AnnState) : list Function :=
  omap (fun kp => fstore st !! snd kp) (map_to_list (funcs st)).

(** [ApplyAnnotations]: the slice it returns and the store the
    [Replacement] pointers of that slice refer to. *)
Definition ApplyAnnotations (store : list Function) (functions : list Function)
    (annotations : list Annotation) : list Function * list Function :=
  match annotations with
  | [] => (functions, store)
  | _ =>
      let st := apply_annotations (index_functions store functions) annotations in
      (collect_functions st, fstore st)
  end.

End ApplyAnnotations.

(** *** Notions the properties of the tree builder and of the annotations
    are stated with *)

(** An annotation the second loop passes over: no name, no type, no
    [Other] where the type needs one, or a size that is not positive for
    [max-table-size]. *)
Definition malformed (a : Annotation) : Prop :=
  ann_Name a = ""%string
  \/ ann_Type a = ""%string
  \/ (ann_Other a = ""%string
      /\ ann_Type a <> "private"%string
      /\ ann_Type a <> "handle"%string
      /\ ann_Type a <> "max-table-size"%string)
  \/ (ann_Type a = "max-table-size"%string /\ ann_Size a <= 0).

(** A row with the rows nested below it.  The level of a row is given by
    its depth when the tree is flattened, not by its [DataLevel] field. *)
#[warnings="-register-all"]
Inductive RowTree : Type :=
  | RowNode (ua : UserArgument) (children : list RowTree).

Definition root_row (t : RowTree) : UserArgument :=
  match t with RowNode ua _ => ua end.

Definition children_of (t : RowTree) : list RowTree :=
  match t with RowNode _ cs => cs end.

Definition set_DataLevel (lvl : Z) (ua : UserArgument) : UserArgument :=
  mkUserArgument (PackageName ua) (ObjectName ua) (LastDDL ua) (ArgumentName ua)
    (InOut ua) (DataType ua) (CharacterSetName ua) (PlsType ua) (TypeLink ua)
    (TypeOwner ua) (TypeName ua) (TypeSubname ua) (ObjectID ua) (SubprogramID ua)
    (CharLength ua) (Position ua) (DataPrecision ua) (DataScale ua) lvl.

(** The pre-order flattening of a tree whose root is at level [lvl]. *)
Fixpoint rows_of (lvl : Z) (t : RowTree) : list UserArgument :=
  match t with
  | RowNode ua cs => set_DataLevel lvl ua :: flat_map (rows_of (lvl + 1)) cs
  end.

Fixpoint height (t : RowTree) : nat :=
  match t with
  | RowNode _ cs => S (list_max (map height cs))
  end.

(** The level sequence and the argument names of a batch. *)
Definition level_names (rows : list UserArgument) : list (Z * string) :=
  map (fun ua => (DataLevel ua, ArgumentName ua)) rows.

Definition is_unnamed (t : RowTree) : bool :=
  bool_decide (ArgumentName (root_row t) = ""%string).

(** The top-level trees without the first one whose root has no name. *)
Fixpoint drop_first_unnamed (ts : list RowTree) : list RowTree :=
  match ts with
  | [] => []
  | t :: rest => if is_unnamed t then rest else t :: drop_first_unnamed rest
  end.

(** The addresses an Argument holds: its element type, then its fields. *)
Definition kid_ptrs (c : Argument) : list nat :=
  match TableOf c with
  | Some k => [k]
  | None => []
  end ++ map snd (RecordOf c).

(** The cell [q] of the store [h] and the cells below it are the tree [t],
    its root named [nm]. *)
Fixpoint repr (h : list Argument) (t : RowTree) (nm : string) (q : nat)
    {struct t} : Prop :=
  match t with
  | RowNode ua cs =>
      exists c, h !! q = Some c /\ Name c = nm
        /\ (fix kids (ks : list nat) (cs : list RowTree) {struct cs} : Prop :=
              match cs, ks with
              | [], [] => True
              | c' :: cs', k :: ks' =>
                  (q < k)%nat /\ repr h c' (ArgumentName (root_row c')) k
                  /\ kids ks' cs'
              | _, _ => False
              end) (kid_ptrs c) cs
  end.

(** The row is taken for the return value. *)
Definition is_return_row (st : BuildState) (ua : UserArgument) : Prop :=
  to_int8 (DataLevel ua) = 0 /\ st_Returns st = None
  /\ ArgumentName ua = ""%string.

(** The parent after [parent.TableOf = &arg] or the [append]. *)
Definition adopt (parent : Argument) (q : nat) (nm : string) : Argument :=
  if decide (Flavor parent = FLAVOR_TABLE)
  then set_TableOf (Some q) parent
  else set_RecordOf (RecordOf parent ++ [(nm, q)]) parent.

(** Every pointer of [lastArgs] leads to a cell that is not SIMPLE. *)
Definition composite_parents (st : BuildState) : Prop :=
  forall k p, lastArgs st !! k = Some p ->
    exists c, heap st !! p = Some c /\ Flavor c <> FLAVOR_SIMPLE.

Definition names_of (cs : list RowTree) : list string :=
  map (fun c => ArgumentName (root_row c)) cs.

Definition adopt_all (pc : Argument) (entries : list (string * nat)) : Argument :=
  fold_left (fun c e => adopt c (snd e) (fst e)) entries pc.

(** The index of the first row of a batch that has level 0 and no name. *)
Fixpoint first_return (rows : list UserArgument) : option nat :=
  match rows with
  | [] => None
  | ua :: rest =>
      if decide (to_int8 (DataLevel ua) = 0 /\ ArgumentName ua = ""%string)
      then Some 0%nat else S <$> first_return rest
  end.

(** What holds of [Returns] all along: it is a cell named "ret", and no
    cell holds its address as element type or field. *)
Definition returns_apart (st : BuildState) : Prop :=
  (forall r, st_Returns st = Some r ->
     exists c, heap st !! r = Some c /\ Name c = "ret"%string)
  /\ (forall j cell k, heap st !! j = Some cell -> In k (kid_ptrs cell) ->
        (k < length (heap st))%nat /\ st_Returns st <> Some k).

Section TreeBuilderNotions.

Variable flavorOf : string -> FlavorKind.
Variable directionOf : string -> Z -> Z.

(** [lastArgs] after the assignment [lastArgs[level] = &arg] of a row. *)
Definition register (st : BuildState) (ua : UserArgument) : gmap Z nat :=
  if decide (flavorOf (DataType ua) <> FLAVOR_SIMPLE)
  then <[to_int8 (DataLevel ua) := length (heap st)]> (lastArgs st)
  else lastArgs st.

(** The most recently seen non-SIMPLE Argument at level [k]: the address of
    the last row of [rows] that is not SIMPLE and has that level, the rows
    being allocated at [base], [base + 1], ...; [init] when there is none. *)
Fixpoint most_recent (k : Z) (base : nat) (rows : list UserArgument)
    (init : option nat) : option nat :=
  match rows with
  | [] => init
  | ua :: rest =>
      most_recent k (S base) rest
        (if decide (flavorOf (DataType ua) <> FLAVOR_SIMPLE
                    /\ to_int8 (DataLevel ua) = k)
         then Some base else init)
  end.

(** A tree that the builder can take at level [lvl]: levels fit a [uint8],
    a SIMPLE row has nothing below it, a TABLE row at most one row, and a row
    that is not SIMPLE stays below level 255, whose [int8] value -1 is the
    key of the sentinel. *)
Fixpoint well_formed (lvl : Z) (t : RowTree) : bool :=
  match t with
  | RowNode ua cs =>
      (0 <=? lvl) && (lvl <=? 255)
      && match flavorOf (DataType ua) with
         | FLAVOR_SIMPLE => match cs with [] => true | _ => false end
         | FLAVOR_RECORD => lvl <=? 254
         | FLAVOR_TABLE => (lvl <=? 254) && (length cs <=? 1)%nat
         end
      && forallb (well_formed (lvl + 1)) cs
  end.

(** What the builder does with the trees [cs], flattened at level [lvl],
    when the cell [p] is registered one level up: each tree gets cells of
    its own at the end of the store, [p] adopts their roots in order, no other
    old cell changes, nor [lastArgs] below [lvl], nor [Returns]. *)
Definition grafted (lvl : Z) (cs : list RowTree) (st : BuildState) (p : nat)
    (pc : Argument) : Prop :=
  exists st' ks,
    process_rows flavorOf directionOf st (flat_map (rows_of lvl) cs) = Ret st'
    /\ (length (heap st) <= length (heap st'))%nat
    /\ (forall i, (i < length (heap st))%nat -> i <> p ->
          heap st' !! i = heap st !! i)
    /\ heap st' !! p = Some (adopt_all pc (zip (names_of cs) ks))
    /\ Forall2 (fun k c => (length (heap st) <= k)%nat
                           /\ repr (heap st') c (ArgumentName (root_row c)) k) ks cs
    /\ (forall j, -1 <= j < lvl ->
          lastArgs st' !! to_int8 j = lastArgs st !! to_int8 j)
    /\ st_Returns st' = st_Returns st.

(** The most recent non-SIMPLE row at the level [k], the levels being the
    numbers the rows carry: the address of the last row of [rows] that is
    not SIMPLE and has [DATA_LEVEL] [k], the rows being allocated at [base],
    [base + 1], ...; [init] when there is none. *)
Fixpoint latest_parent (k : Z) (base : nat) (rows : list UserArgument)
    (init : option nat) : option nat :=
  match rows with
  | [] => init
  | ua :: rest =>
      latest_parent k (S base) rest
        (if decide (flavorOf (DataType ua) <> FLAVOR_SIMPLE /\ DataLevel ua = k)
         then Some base else init)
  end.

(** The levels of the rows fit a [uint8], and no row that is not SIMPLE has
    the level 255, whose [int8] value is the key of the sentinel. *)
Definition levels_below_255 (rows : list UserArgument) : Prop :=
  Forall (fun r => 0 <= DataLevel r <= 255
                   /\ (flavorOf (DataType r) <> FLAVOR_SIMPLE -> DataLevel r <> 255))
    rows.

Definition grafts_tree (t : RowTree) : Prop :=
  forall lvl st p pc,
    well_formed lvl t = true ->
    ~ is_return_row st (set_DataLevel lvl (root_row t)) ->
    lastArgs st !! to_int8 (lvl - 1) = Some p -> heap st !! p = Some pc ->
    grafted lvl [t] st p pc.

End TreeBuilderNotions.

(** *** Notions the properties of the pipeline are stated with *)

(** What names a Function: its package, its name and its [LastDDL]. *)
Definition identity (f : Function) : string * string * Z :=
  (Package f, name f, fun_LastDDL f).

(** The identity of the Function the outer loop of [ParseArguments] builds
    from a batch; none for a batch it skips (or cannot look at). *)
Definition batch_identity (filter : option (string -> bool))
    (uas : list UserArgument) : option (string * string * Z) :=
  match skip_batch filter uas, uas with
  | Ret false, ua :: _ => Some (PackageName ua, ObjectName ua, LastDDL ua)
  | _, _ => None
  end.

(** The filter lets a name pass; no filter lets every name pass. *)
Definition passes (filter : option (string -> bool)) (s : string) : Prop :=
  match filter with
  | Some f => f s = true
  | None => True
  end.

(** The column of a head that carries a wanted name: the index of the first
    one whose upper-cased text is the name, and the unset sentinel -1 when
    there is none. *)
Definition first_column (ToUpper : string -> string) (h : string)
    (head : list string) : Z :=
  match list_find (fun c => ToUpper c = h) head with
  | Some (i, _) => Z.of_nat i
  | None => -1
  end.

(** The numeric fields of a row are within what their Go types hold (and
    what the parsers let through), and [LastDDL] is the zero time. *)
Definition row_in_range (ua : UserArgument) : Prop :=
  0 <= DataLevel ua <= 255 /\ 0 <= DataPrecision ua <= 255
  /\ 0 <= DataScale ua <= 255
  /\ 0 <= ObjectID ua <= 2 ^ 32 /\ 0 <= SubprogramID ua <= 2 ^ 32
  /\ 0 <= Position ua <= 2 ^ 32 /\ 0 <= CharLength ua <= 2 ^ 32
  /\ LastDDL ua = 0.

(** What an annotation may change of a Function: its alias, its
    replacement, and its handlers and table size, which only grow. *)
Definition evolves (f g : Function) : Prop :=
  identity g = identity f /\ Args g = Args f /\ Returns g = Returns f
  /\ handle f `prefix_of` handle g
  /\ maxTableSize f <= maxTableSize g.

(** The exception handler an annotation of type [handle] gives to the
    functions of its package. *)
Definition handled (ToUpper : string -> string) (EqualFold : string -> string -> bool)
    (a : Annotation) (f : Function) : Function :=
  if EqualFold (Package f) (ann_Package a)
  then add_handle (ToUpper (ann_Name a)) f else f.

(** *** Concrete functions, annotations and batches *)

(** A package-qualified name, for the instances below. *)
Definition qualified_name (f : Function) : string :=
  Package f ++ "." ++ name f.

Definition fun_P_F : Function := new_Function "P" "F" 0.

Definition size_5 : Annotation := mkAnnotation "P" "max-table-size" "F" "" 5.
Definition size_3 : Annotation := mkAnnotation "P" "max-table-size" "F" "" 3.
Definition size_7 : Annotation := mkAnnotation "P" "max-table-size" "F" "" 7.

(** For the instances: the flavor and the direction bits as the data type
    and the [IN_OUT] text suggest them. *)
Definition flavor_of_type (dataType : string) : FlavorKind :=
  if bool_decide (dataType = "PL/SQL RECORD"%string) then FLAVOR_RECORD
  else if bool_decide (dataType = "TABLE"%string)
          || bool_decide (dataType = "PL/SQL TABLE"%string)
          || bool_decide (dataType = "REF CURSOR"%string) then FLAVOR_TABLE
  else FLAVOR_SIMPLE.

Definition direction_of (dirName : string) (dir : Z) : Z :=
  if bool_decide (dirName = "IN/OUT"%string) then 3
  else if bool_decide (dirName = "OUT"%string) then 2
  else 1.

(** A row of the function [P.F]. *)
Definition row (nm dataType : string) (lvl : Z) : UserArgument :=
  mkUserArgument "P" "F" 0 nm "IN" dataType "" "" "" "" "" "" 1 1 0 0 0 0 lvl.

Definition leaf (nm dataType : string) : RowTree := RowNode (row nm dataType 0) [].

(** A function returning a NUMBER, with one argument. *)
Definition forest_with_return : list RowTree :=
  [leaf "" "NUMBER"; leaf "A" "NUMBER"].

(** A TABLE of RECORDs with two fields, followed by a scalar. *)
Definition forest_table_of_record : list RowTree :=
  [RowNode (row "T" "TABLE" 0)
     [RowNode (row "" "PL/SQL RECORD" 0) [leaf "A" "NUMBER"; leaf "B" "VARCHAR2"]];
   leaf "N" "NUMBER"].

(** Rows at levels 0, 1, ..., [n - 1], each a named RECORD nested in the one
    before. *)
Definition deep_batch (n : nat) : list UserArgument :=
  map (fun i => row "A" "PL/SQL RECORD" (Z.of_nat i)) (seq 0 n).

(** A reader for input without quotes: its records are the lines that are
    not empty, split at the separator. *)
Fixpoint split_at (c : ascii) (s : string) : list string :=
  match s with
  | EmptyString => [EmptyString]
  | String x rest =>
      if decide (x = c) then EmptyString :: split_at c rest
      else match split_at c rest with
           | f :: fs => String x f :: fs
           | [] => [String x EmptyString]
           end
  end.

Definition plain_records (comma : ascii) (s : string)
  : list (list string) * option unit :=
  (map (split_at comma)
     (List.filter (fun l => negb (String.eqb l "")) (split_at "010"%char s)),
   None).

Definition newline : string := String "010"%char EmptyString.

Definition csv_head : string :=
  "OBJECT_ID,SUBPROGRAM_ID,PACKAGE_NAME,OBJECT_NAME,DATA_LEVEL,SEQUENCE,ARGUMENT_NAME,IN_OUT,DATA_TYPE,DATA_PRECISION,DATA_SCALE,CHARACTER_SET_NAME,PLS_TYPE,CHAR_LENGTH,TYPE_LINK,TYPE_OWNER,TYPE_NAME,TYPE_SUBNAME".

(** The export of a function [P.F] that returns a NUMBER and takes one, of
    a hidden function [P.G#] and of a function [Q.H]. *)
Definition csv_three_functions : string :=
  (csv_head ++ newline
   ++ "1,1,P,F,0,1,,OUT,NUMBER,0,0,,,0,,,," ++ newline
   ++ "1,1,P,F,0,2,A,IN,NUMBER,0,0,,,0,,,," ++ newline
   ++ "1,2,P,G#,0,1,B,IN,NUMBER,0,0,,,0,,,," ++ newline
   ++ "2,1,Q,H,0,1,C,IN,NUMBER,0,0,,,0,,,," ++ newline)%string.

Definition not_Q_H (s : string) : bool := negb (String.eqb s "Q.H").

(** An export whose head lacks the column [TYPE_SUBNAME]. *)
Definition csv_without_subname : string :=
  ("OBJECT_ID,SUBPROGRAM_ID,PACKAGE_NAME,OBJECT_NAME,DATA_LEVEL,SEQUENCE,ARGUMENT_NAME,IN_OUT,DATA_TYPE,DATA_PRECISION,DATA_SCALE,CHARACTER_SET_NAME,PLS_TYPE,CHAR_LENGTH,TYPE_LINK,TYPE_OWNER,TYPE_NAME"
   ++ newline
   ++ "1,1,P,F,0,1,,OUT,NUMBER,0,0,,,0,,," ++ newline)%string.

Definition fun_P_G : Function := new_Function "P" "G" 0.

(** [P.F] with the table size 7, and an overload of [P.F]. *)
Definition fun_P_F_size_7 : Function :=
  mkFunction "P" "F" "" 0 [] None None false [] 7.

Definition fun_P_F_overload : Function := new_Function "P" "F" 1.

Definition handle_E : Annotation := mkAnnotation "P" "handle" "e_fail" "" 0.
Definition rename_F_G : Annotation := mkAnnotation "P" "rename" "F" "G" 0.
Definition replace_F_G : Annotation := mkAnnotation "P" "replace" "F" "G" 0.
Definition rename_to_nothing : Annotation := mkAnnotation "P" "rename" "F" "" 0.

End Oracall.

(** ** Package structs: the protobuf schema emitter of [proto.go] *)

Module Structs.

(** [Argument] of package structs, as the emitter reads it: it only walks
    the tree, so [TableOf] and the fields of [RecordOf] are the Arguments
    themselves.  A [nil] [RecordOf] is [None]. *)
#[warnings="-register-all"]
Inductive Argument : Type := mkArgument {
  Name : string;
  Type_ : string;
  TypeName : string;
  Direction : Z;
  Flavor : FlavorKind;
  TableOf : option Argument;
  RecordOf : option (list Argument)
}.

Definition set_Name (n : string) (a : Argument) : Argument :=
  mkArgument n (Type_ a) (TypeName a) (Direction a) (Flavor a) (TableOf a)
    (RecordOf a).

Record Function : Type := mkFunction {
  Package : string;
  name : string;
  Args : list Argument;
  Returns : option Argument
}.

(** A value of a [protoOptions] map. *)
Inductive OptionValue : Type :=
  | OptBool (b : bool)
  | OptString (s : string).

(** What the emitter writes, one element per [Fprintf] or [WriteString]:
    the text of a line is determined by these parts. *)
Inductive Line : Type :=
  | LSyntax
  | LPackage (pkg : string)
  | LImport
  | LMessage (msgName : string)
  | LField (rule typ aName : string) (index : nat)
      (opts : list (string * OptionValue))
  | LClose
  | LService (svc input streamQual output : string).

(** [ErrMissingTableOf] wrapped with the message and the argument it is
    about, and with the contexts [errors.Wrap] adds on the way up. *)
Record EmitError : Type := mkEmitError {
  err_context : list string;
  err_msgName : string;
  err_arg : Argument
}.

Definition Wrap (e : EmitError) (ctx : string) : EmitError :=
  mkEmitError (ctx :: err_context e) (err_msgName e) (err_arg e).

(** What a call leaves behind: the lines it wrote to its writer, the set of
    seen type names, and the error it returned, if any. *)
Record Emitted : Type := mkEmitted {
  written : list Line;
  seen_after : gset string;
  failure : option EmitError
}.

Definition is_nil {A} (o : option A) : bool :=
  match o with
  | None => true
  | Some _ => false
  end.

(** The first loop of [protoWriteMessageTyp]: the first TABLE argument
    without element type. *)
Definition missing_TableOf (args : list Argument) : option Argument :=
  List.find
    (fun arg => bool_decide (Flavor arg = FLAVOR_TABLE) && is_nil (TableOf arg))
    args.

(** The arguments of the nested message of a composite argument. *)
Definition subArgs (arg : Argument) : list Argument :=
  match TableOf arg with
  | Some t =>
      match RecordOf t with
      | None => [t]
      | Some fs => fs
      end
  | None =>
      match RecordOf arg with
      | Some fs => fs
      | None => []
      end
  end.

Definition customtype (path : string) : list (string * OptionValue) :=
  [("gogoproto.nullable"%string, OptBool false);
   ("gogoproto.customtype"%string, OptString path)].

Definition one_of (s : string) (l : list string) : bool :=
  existsb (String.eqb s) l.

Section Emitter.

(** [strings.ToLower] is a library function.  The methods [goType] of
    [Argument], [Name] and [getStructName] of [Function], the function
    [replHidden] and the constants [DIR_IN] and [DIR_OUT] are in files of the
    package that are not at hand.  All enter as they are used. *)
Variable ToLower : string -> string.
Variable goType : Argument -> bool -> string.
Variable replHidden : string -> string.
Variable FunctionName : Function -> string.
Variable getStructName : Function -> bool -> string.
Variable DIR_IN : Z.
Variable DIR_OUT : Z.

Definition protoType (got : string) : string * list (string * OptionValue) :=
  let trimmed := ToLower (TrimPrefix (TrimPrefix got "[]") "*") in
  if one_of trimmed ["ora.time"; "time.time"]%string then ("string"%string, [])
  else if one_of trimmed ["ora.string"]%string then ("string"%string, [])
  else if one_of trimmed ["int32"]%string then ("sint32"%string, [])
  else if one_of trimmed ["ora.int32"]%string then ("sint32"%string, [])
  else if one_of trimmed ["float64"]%string then ("double"%string, [])
  else if one_of trimmed ["ora.float64"]%string then ("double"%string, [])
  else if one_of trimmed ["ora.date"; "custom.date"]%string then
    ("string"%string, customtype "github.com/tgulacsi/oracall/custom.Date")
  else if one_of trimmed ["n"; "ora.n"]%string then
    ("string"%string, customtype "github.com/tgulacsi/oracall/custom.Number")
  else if one_of trimmed ["ora.lob"]%string then
    ("bytes"%string, customtype "github.com/tgulacsi/oracall/custom.Lob")
  else (trimmed, []).

(** The local copy [arg] of the loop body after its name was cleaned. *)
Definition clean_arg (arg : Argument) : Argument :=
  if HasSuffix (Name arg) "#" then set_Name (replHidden (Name arg)) arg else arg.

Definition strip_star (got : string) : string :=
  if HasPrefix got "*" then drop_bytes 1 got else got.

(** [rule] and [typ] (with its options) of a field, as the loop body
    computes them before it decides what to emit. *)
Definition field_rule (arg : Argument) : string :=
  let got := strip_star (goType (clean_arg arg) false) in
  if HasPrefix got "[]" then "repeated "%string
  else if decide (Flavor arg = FLAVOR_TABLE) then "repeated "%string
  else ""%string.

Definition field_type (arg : Argument) : string * list (string * OptionValue) :=
  let got := strip_star (goType (clean_arg arg) false) in
  let got := if HasPrefix got "[]" then drop_bytes 2 got else got in
  protoType (strip_star got).

Definition field_line (i : nat) (arg : Argument) : Line :=
  LField (field_rule arg) (fst (field_type arg)) (Name (clean_arg arg)) (i + 1)
    (snd (field_type arg)).

(** Whether the loop body writes the field and goes on, without a nested
    message. *)
Definition is_scalar_field (arg : Argument) : bool :=
  bool_decide (Flavor arg = FLAVOR_SIMPLE)
  || (bool_decide (Flavor arg = FLAVOR_TABLE)
      && match TableOf arg with
         | Some t => bool_decide (Flavor t = FLAVOR_SIMPLE)
         | None => false
         end).

(** The second loop of [protoWriteMessageTyp], from index [i] on: [w] is
    what went to the writer, [buf] what went to the buffer of nested
    messages.  [nested arg typ seen] stands for the recursive call
    [protoWriteMessageTyp(buf, typ, seen, subArgs...)]. *)
Fixpoint write_fields (nested : Argument -> string -> gset string -> Emitted)
    (msgName : string) (i : nat) (args : list Argument)
    (w buf : list Line) (seen : gset string)
  : list Line * list Line * gset string * option EmitError :=
  match args with
  | [] => (w, buf, seen, None)
  | arg :: rest =>
      if bool_decide (Flavor arg = FLAVOR_TABLE) && is_nil (TableOf arg) then
        (w, buf, seen, Some (mkEmitError [] msgName (clean_arg arg)))
      else if is_scalar_field arg then
        write_fields nested msgName (S i) rest (w ++ [field_line i arg]) buf seen
      else
        let typ := fst (field_type arg) in
        if decide (typ ∈ seen) then
          write_fields nested msgName (S i) rest (w ++ [field_line i arg]) buf seen
        else
          let r := nested arg typ seen in
          match failure r with
          | Some e => (w, buf ++ written r, seen_after r, Some e)
          | None =>
              write_fields nested msgName (S i) rest (w ++ [field_line i arg])
                (buf ++ written r) ({[ typ ]} ∪ seen_after r)
          end
  end.

(** The body of [protoWriteMessageTyp] with its recursive call abstracted. *)
Definition write_message (nested : Argument -> string -> gset string -> Emitted)
    (msgName : string) (seen : gset string) (args : list Argument) : Emitted :=
  match missing_TableOf args with
  | Some arg => mkEmitted [] seen (Some (mkEmitError [] msgName arg))
  | None =>
      match write_fields nested msgName 0 args [LMessage msgName] [] seen with
      | (w, buf, seen', Some e) => mkEmitted w seen' (Some e)
      | (w, buf, seen', None) => mkEmitted (w ++ [LClose] ++ buf) seen' None
      end
  end.

(** The recursive call for the nested message of [arg]: the cases are those
    of [subArgs], spelled out so that the recursion is structural. *)
Fixpoint nested_message (arg : Argument) (typ : string) (seen : gset string)
    {struct arg} : Emitted :=
  match TableOf arg with
  | Some t =>
      match RecordOf t with
      | None => write_message nested_message typ seen [t]
      | Some fs => write_message nested_message typ seen fs
      end
  | None =>
      match RecordOf arg with
      | Some fs => write_message nested_message typ seen fs
      | None => write_message nested_message typ seen []
      end
  end.

Definition protoWriteMessageTyp (msgName : string) (seen : gset string)
    (args : list Argument) : Emitted :=
  write_message nested_message msgName seen args.

(** The arguments [saveProtobufDir] passes on for one direction: those whose
    direction bits meet the mask, and the return value for the output. *)
Definition emitted_args (f : Function) (out : bool) : list Argument :=
  let dirmap := if out then DIR_OUT else DIR_IN in
  let args := List.filter (fun arg => 0 <? Z.land (Direction arg) dirmap) (Args f) in
  if out then args ++ match Returns f with
                      | Some r => [r]
                      | None => []
                      end
  else args.

Definition message_name (f : Function) (out : bool) : string :=
  dot2D (ToLower (FunctionName f)) ++ "__"
    ++ (if out then "output"%string else "input"%string).

(** [f.saveProtobufDir(dst, seen, out)]. *)
Definition saveProtobufDir (f : Function) (seen : gset string) (out : bool)
  : Emitted :=
  protoWriteMessageTyp (message_name f out) seen (emitted_args f out).

(** [f.SaveProtobuf(dst, seen)]: both directions go to a local buffer, which
    reaches [dst] only when neither failed. *)
Definition Function_SaveProtobuf (f : Function) (seen : gset string) : Emitted :=
  let rin := saveProtobufDir f seen false in
  match failure rin with
  | Some e => mkEmitted [] (seen_after rin) (Some (Wrap e "input"))
  | None =>
      let rout := saveProtobufDir f (seen_after rin) true in
      match failure rout with
      | Some e => mkEmitted [] (seen_after rout) (Some (Wrap e "output"))
      | None => mkEmitted (written rin ++ written rout) (seen_after rout) None
      end
  end.

Definition ReturnsCursor (f : Function) : bool :=
  existsb (fun arg => negb (Z.land (Direction arg) DIR_OUT =? 0)
                      && String.eqb (Type_ arg) "REF CURSOR") (Args f).

Definition service_line (f : Function) : Line :=
  LService (ToLower (dot2D (FunctionName f)))
    (ToLower (getStructName f false))
    (if ReturnsCursor f then "stream "%string else ""%string)
    (ToLower (getStructName f true)).

(** [FunLoop]: every error of [Function_SaveProtobuf] has the cause
    [ErrMissingTableOf], so a failing function is skipped. *)
Fixpoint FunLoop (functions : list Function) (seen : gset string) : list Line :=
  match functions with
  | [] => []
  | f :: rest =>
      let r := Function_SaveProtobuf f seen in
      match failure r with
      | Some _ => FunLoop rest (seen_after r)
      | None => written r ++ [service_line f] ++ FunLoop rest (seen_after r)
      end
  end.

(** [SaveProtobuf(dst, functions, pkg)]: what [dst] receives. *)
Definition SaveProtobuf (functions : list Function) (pkg : string) : list Line :=
  [LSyntax] ++ (if bool_decide (pkg = ""%string) then [] else [LPackage pkg])
    ++ [LImport] ++ FunLoop functions ∅.

End Emitter.

(** *** Notions the properties of the emitter are stated with *)

(** The message names declared by a run of lines. *)
Definition declared (ls : list Line) : list string :=
  omap (fun l => match l with LMessage n => Some n | _ => None end) ls.

(** What every call of the emitter keeps, whatever it is given: the seen
    set only grows; apart from the header of the call itself, a message is
    declared only under a name that was not seen when the call began, and
    after a call that succeeded every such name is in the set; an error names
    a TABLE argument without element type. *)
Definition emitter_invariant (msgName : string) (seen : gset string) (r : Emitted)
  : Prop :=
  (seen ⊆ seen_after r)
  /\ (written r = []
      \/ (exists rest,
            written r = LMessage msgName :: rest
            /\ forall n, n ∈ declared rest ->
                 (n ∉ seen) /\ (failure r = None -> n ∈ seen_after r)))
  /\ (forall e, failure r = Some e ->
        Flavor (err_arg e) = FLAVOR_TABLE /\ TableOf (err_arg e) = None).

Definition sound_nested (f : Argument -> string -> gset string -> Emitted)
    (a : Argument) : Prop :=
  forall typ seen, emitter_invariant typ seen (f a typ seen).

(** An argument for which the loop body reaches the test of the seen set:
    it has a nested message of its own. *)
Definition composite (arg : Argument) : Prop :=
  bool_decide (Flavor arg = FLAVOR_TABLE) && is_nil (TableOf arg) = false
  /\ is_scalar_field arg = false.

Section EmitterNotions.

Variable ToLower : string -> string.
Variable goType : Argument -> bool -> string.
Variable replHidden : string -> string.
Variable FunctionName : Function -> string.
Variable DIR_IN : Z.
Variable DIR_OUT : Z.

(** The seen set [FunLoop] has reached after these functions. *)
Fixpoint seen_after_loop (functions : list Function) (seen : gset string)
  : gset string :=
  match functions with
  | [] => seen
  | f :: rest => seen_after_loop rest
        (seen_after
           (Function_SaveProtobuf ToLower goType replHidden FunctionName DIR_IN
              DIR_OUT f seen))
  end.

End EmitterNotions.

(** No TABLE in the tree of the argument lacks its element type. *)
Fixpoint elements_known (a : Argument) : bool :=
  negb (bool_decide (Flavor a = FLAVOR_TABLE) && is_nil (TableOf a))
  && match TableOf a with
     | Some t => elements_known t
     | None => true
     end
  && match RecordOf a with
     | Some fs => forallb elements_known fs
     | None => true
     end.

(** The nested message of such an argument is written without error. *)
Definition never_fails (f : Argument -> string -> gset string -> Emitted)
    (a : Argument) : Prop :=
  elements_known a = true -> forall typ seen, failure (f a typ seen) = None.

(** *** Concrete arguments and functions *)

(** For the instances: the Go type of an argument is its type name, names
    are taken as they are, and the direction bits are 1 for IN, 2 for OUT. *)
Definition goType_of_TypeName (a : Argument) (isTable : bool) : string := TypeName a.

Definition as_is (s : string) : string := s.

Definition plain_name (f : Function) : string := Package f ++ "." ++ name f.

Definition plain_struct (f : Function) (out : bool) : string :=
  plain_name f ++ (if out then "_out" else "_in").

Definition simple_arg (nm ty : string) : Argument :=
  mkArgument nm "NUMBER" ty 1 FLAVOR_SIMPLE None None.

Definition record_arg (nm ty : string) (fields : list Argument) : Argument :=
  mkArgument nm "PL/SQL RECORD" ty 1 FLAVOR_RECORD None (Some fields).

(** Three records that resolve to the type name [t]: [rec_a] holds [rec_c],
    which holds the field [x]; [rec_b] holds the field [y]. *)
Definition rec_c : Argument := record_arg "c" "t" [simple_arg "x" "int32"].
Definition rec_a : Argument := record_arg "a" "t" [rec_c].
Definition rec_b : Argument := record_arg "b" "t" [simple_arg "y" "float64"].

Definition table_without_element : Argument :=
  mkArgument "rows" "TABLE" "t_rows" 1 FLAVOR_TABLE None None.

Definition fun_bad : Function :=
  mkFunction "P" "BAD" [simple_arg "n" "int32"; table_without_element] None.

Definition fun_good : Function :=
  mkFunction "P" "GOOD" [simple_arg "n" "int32"] None.

(** A record whose nested message is sound and one whose nested message
    holds a TABLE without element type; a function with both as input, and
    one with the sound record only. *)
Definition rec_sound : Argument := record_arg "a" "ta" [simple_arg "x" "int32"].
Definition rec_broken : Argument := record_arg "b" "tb" [table_without_element].

Definition fun_first : Function :=
  mkFunction "P" "FIRST" [rec_sound; rec_broken] None.

Definition fun_second : Function := mkFunction "P" "SECOND" [rec_sound] None.

End Structs.

(** ** Package orasrv: request contexts and the set of errored methods *)

Module Orasrv.

(** A key of a [context.Context]: a [ctxKey] of this package, or a key of a
    type of some other package, which no [ctxKey] is equal to. *)
Inductive ContextKey : Type :=
  | ctxKey (s : string)
  | foreignKey (n : nat).

#[global] Instance ContextKey_eq_dec : EqDecision ContextKey.
Proof. solve_decision. Defined.

Definition reqIDCtxKey : ContextKey := ctxKey "reqID".
Definition loggerCtxKey : ContextKey := ctxKey "logger".

Section Contexts.

(** The values of type [log.Logger]. *)
Variable Logger : Type.

(** What an [interface{}] bound in a context holds, as far as the type
    assertions of this package tell values apart. *)
Inductive Bound : Type :=
  | BoundNil
  | BoundString (s : string)
  | BoundLogger (l : Logger)
  | BoundOther (n : nat).

(** A [context.Context] is the chain of its [WithValue] calls, the latest
    first; [Value] returns the latest binding of a key, and [nil] when there
    is none. *)
Definition Context : Type := list (ContextKey * Bound).

Definition WithValue (ctx : Context) (k : ContextKey) (v : Bound) : Context :=
  (k, v) :: ctx.

Fixpoint Value (ctx : Context) (k : ContextKey) : Bound :=
  match ctx with
  | [] => BoundNil
  | (k', v) :: parent => if decide (k' = k) then v else Value parent k
  end.

(** [ContextWithLogger]; a [nil] logger is [None]. *)
Definition ContextWithLogger (ctx : Context) (logger : option Logger) : Context :=
  WithValue ctx loggerCtxKey
    match logger with
    | Some l => BoundLogger l
    | None => BoundNil
    end.

Definition ContextGetLogger (ctx : Context) : option Logger :=
  match Value ctx loggerCtxKey with
  | BoundLogger l => Some l
  | _ => None
  end.

(** [NewULID] draws on the clock and on [crypto/rand]; the functions that
    may call it take the string that call would return. *)
Definition ContextWithReqID (ulid : string) (ctx : Context) (reqID : string)
  : Context :=
  WithValue ctx reqIDCtxKey
    (BoundString (if bool_decide (reqID = ""%string) then ulid else reqID)).

Definition ContextGetReqID (ulid : string) (ctx : Context) : string :=
  match Value ctx reqIDCtxKey with
  | BoundString reqID => reqID
  | _ => ulid
  end.

(** [log.With(logger, "reqID", reqID)] and the binding that
    [goracle.ContextWithLog] adds are the libraries'. *)
Variable With : Logger -> string -> string -> Logger.
Variable goracleLogKey : nat.
Variable goracleLog : Logger -> nat.

(** The closure [commit] of [getLogger], for the method and the [wasThere]
    it has captured: what it makes of [erroredMethods] when the handler
    returned, with an error ([failed]) or without. *)
Definition commit (fullMethod : string) (wasThere : bool) (failed : bool)
    (erroredMethods : gset string) : gset string :=
  if wasThere && negb failed then erroredMethods ∖ {[ fullMethod ]}
  else if failed && negb wasThere then {[ fullMethod ]} ∪ erroredMethods
  else erroredMethods.

(** What [getLogger] returns besides [commit]: the logger, the context, and
    [wasThere].  [ulid1] and [ulid2] are what its two possible calls of
    [NewULID] would return. *)
Definition getLogger (ulid1 ulid2 : string) (logger : Logger) (verbose : bool)
    (erroredMethods : gset string) (ctx : Context) (fullMethod : string)
  : Logger * bool * Context :=
  let reqID := ContextGetReqID ulid1 ctx in
  let ctx := ContextWithReqID ulid2 ctx reqID in
  let logger := With logger "reqID" reqID in
  let ctx := ContextWithLogger ctx (Some logger) in
  let wasThere := negb verbose && bool_decide (fullMethod ∈ erroredMethods) in
  let verbose := verbose || wasThere in
  let ctx := if verbose
             then WithValue ctx (foreignKey goracleLogKey)
                    (BoundOther (goracleLog (With logger "lib" "goracle")))
             else ctx in
  (logger, wasThere, ctx).

End Contexts.

(** How a call went, as far as [erroredMethods] is concerned: [checkAuth]
    refused it, the handler returned (with an error or without), or something
    panicked and the deferred [recover] took over. *)
Inductive CallResult : Type :=
  | AuthFailed
  | Returned (failed : bool)
  | Panicked.

(** What one call handled by an interceptor leaves of [erroredMethods]:
    [commit] runs only when the handler has returned. *)
Definition intercept (verbose : bool) (erroredMethods : gset string)
    (fullMethod : string) (res : CallResult) : gset string :=
  let wasThere := negb verbose && bool_decide (fullMethod ∈ erroredMethods) in
  match res with
  | Returned failed => commit fullMethod wasThere failed erroredMethods
  | AuthFailed | Panicked => erroredMethods
  end.

(** Calls handled one after the other by a server that starts with no
    errored method. *)
Definition serve (verbose : bool) (calls : list (string * CallResult))
  : gset string :=
  fold_left (fun e c => intercept verbose e (fst c) (snd c)) calls ∅.

(** The outcome of the last call of a method whose handler returned. *)
Fixpoint last_returned (fullMethod : string) (calls : list (string * CallResult))
    (init : option bool) : option bool :=
  match calls with
  | [] => init
  | (m, Returned failed) :: rest =>
      last_returned fullMethod rest
        (if decide (m = fullMethod) then Some failed else init)
  | _ :: rest => last_returned fullMethod rest init
  end.

End Orasrv.

(** * Properties of package oracall *)

Module OracallFacts.

Import Oracall.

(** ** The numeric fields *)

Lemma mustBeUint_blank : mustBeUint "" = Ret 0.
Proof. reflexivity. Qed.

Lemma mustBeUint8_blank : mustBeUint8 "" = Ret 0.
Proof. reflexivity. Qed.

(** A byte-like field that is accepted lies in [0, 255]; one whose text
    parses to a number outside is a panic carrying that number. *)
Lemma mustBeUint8_range (text : string) (u : Z) :
  mustBeUint8 text = Ret u -> 0 <= u <= 255.
Proof.
  unfold mustBeUint8. case_bool_decide; [intros [= <-]; lia|].
  destruct (Strconv.Atoi text) as [e|v]; [discriminate|].
  destruct (v <? 0) eqn:Hneg; [discriminate|].
  destruct (255 <? v) eqn:Hbig; [discriminate|].
  intros [= <-]. apply Z.ltb_ge in Hneg, Hbig. lia.
Qed.

Lemma mustBeUint8_outside (text : string) (v : Z) :
  text <> ""%string -> Strconv.Atoi text = inr v -> (v < 0 \/ 255 < v) ->
  mustBeUint8 text = Panic (PanicOutOfRange v).
Proof.
  intros Hne Hv Hout. unfold mustBeUint8.
  rewrite bool_decide_eq_false_2 by done. rewrite Hv.
  destruct Hout as [H|H].
  - apply Z.ltb_lt in H. by rewrite H.
  - apply Z.ltb_lt in H. rewrite H. by rewrite orb_true_r.
Qed.

(** What [mustBeUint] accepts reaches up to 2^32 inclusive. *)
Lemma mustBeUint_range (text : string) (u : Z) :
  mustBeUint text = Ret u -> 0 <= u <= 2 ^ 32.
Proof.
  unfold mustBeUint. case_bool_decide; [intros [= <-]; lia|].
  destruct (Strconv.Atoi text) as [e|v]; [discriminate|].
  destruct (v <? 0) eqn:Hneg; [discriminate|].
  destruct (2 ^ 32 <? v) eqn:Hbig; [discriminate|].
  intros [= <-]. apply Z.ltb_ge in Hneg, Hbig. lia.
Qed.

(** C9 (numeric-field parsing contract): the claim makes every count-like
    value outside [0, 2^32) a fatal error.  [mustBeUint] compares with
    [u > 1<<32], so the text 4294967296, which is 2^32 and lies outside that
    interval, is returned as a value instead; its neighbour 4294967297
    panics, as do 256 and -1 for a byte-like field, and a blank field is 0. *)
Theorem mustBeUint_accepts_two_pow_32 :
  mustBeUint "4294967296" = Ret (2 ^ 32)
  /\ ~ (0 <= 2 ^ 32 < 2 ^ 32)
  /\ mustBeUint "4294967297" = Panic (PanicOutOfRange 4294967297)
  /\ mustBeUint8 "256" = Panic (PanicOutOfRange 256)
  /\ mustBeUint8 "-1" = Panic (PanicOutOfRange (-1))
  /\ mustBeUint "" = Ret 0 /\ mustBeUint8 "" = Ret 0.
Proof. repeat split; try reflexivity. lia. Qed.

(** The contract of the two parsers as the code has it: a blank field is 0;
    what is returned lies in [0, 255] for a byte-like field and in
    [0, 2^32] (the upper bound included) for a count-like field; a text that
    [Atoi] reads as a number outside those ranges is a panic, as is a text it
    cannot read. *)
Lemma numeric_fields_contract (text : string) :
  (text = ""%string -> mustBeUint text = Ret 0 /\ mustBeUint8 text = Ret 0)
  /\ (forall u, mustBeUint8 text = Ret u -> 0 <= u <= 255)
  /\ (forall u, mustBeUint text = Ret u -> 0 <= u <= 2 ^ 32)
  /\ (forall v, text <> ""%string -> Strconv.Atoi text = inr v ->
        (v < 0 \/ 255 < v -> mustBeUint8 text = Panic (PanicOutOfRange v))
        /\ (v < 0 \/ 2 ^ 32 < v -> mustBeUint text = Panic (PanicOutOfRange v)))
  /\ (forall e, text <> ""%string -> Strconv.Atoi text = inl e ->
        mustBeUint8 text = Panic (PanicNumError e)
        /\ mustBeUint text = Panic (PanicNumError e)).
Proof.
  split; [by intros ->|]. split; [apply mustBeUint8_range|].
  split; [apply mustBeUint_range|]. split.
  - intros v Hne Hv. split; [by apply mustBeUint8_outside|].
    intros Hout. unfold mustBeUint. rewrite bool_decide_eq_false_2 by done.
    rewrite Hv. destruct Hout as [H|H]; apply Z.ltb_lt in H; rewrite H;
      [done|by rewrite orb_true_r].
  - intros e Hne He. unfold mustBeUint, mustBeUint8.
    rewrite bool_decide_eq_false_2 by done. by rewrite He.
Qed.

(** ** ReadCsv *)

Section ReadCsvFacts.

Variable CsvError : Type.
Variable csv_records : ascii -> string -> list (list string) * option CsvError.
Variable ToUpper : string -> string.

Lemma Peek_short (n : nat) (r : string) :
  (String.length r < n)%nat -> Peek n r = inl EOF.
Proof. intros H. unfold Peek. case_decide; [lia|done]. Qed.

(** C10 (short inputs): a stream of fewer than 100 bytes makes [Peek(100)]
    fail, so [ReadCsv] returns the peeking error and sends no row, whatever
    the stream holds. *)
Theorem ReadCsv_short_input (r : string) :
  (String.length r < 100)%nat ->
  ReadCsv CsvError csv_records ToUpper r = ([], Ret (Some (ErrPeeking EOF))).
Proof. intros H. unfold ReadCsv. by rewrite Peek_short. Qed.

End ReadCsvFacts.

(** A complete CSV of two lines, which any CSV reader splits into a header
    and one row, is still refused for being short. *)
Lemma ReadCsv_short_input_witness :
  (String.length "OBJECT_ID,DATA_LEVEL
1,0
" < 100)%nat
  /\ ReadCsv unit
       (fun _ _ => ([["OBJECT_ID"; "DATA_LEVEL"]; ["1"; "0"]]%string, None))
       (fun s => s) "OBJECT_ID,DATA_LEVEL
1,0
" = ([], Ret (Some (ErrPeeking EOF))).
Proof.
  split; [vm_compute; lia|].
  apply (ReadCsv_short_input unit
           (fun _ _ => ([["OBJECT_ID"; "DATA_LEVEL"]; ["1"; "0"]]%string, None))
           (fun s => s)).
  vm_compute; lia.
Defined.

(** ** Annotations *)

Section AnnotationFacts.

Variable L : string -> string.
Variable ToUpper : string -> string.
Variable EqualFold : string -> string -> bool.
Variable RealName : Function -> string.
Variable FunctionName : Function -> string.

Let step := apply_annotation L ToUpper EqualFold FunctionName.
Let run := apply_annotations L ToUpper EqualFold FunctionName.

Lemma apply_annotation_malformed (st : AnnState) (a : Annotation) :
  malformed a -> step st a = st.
Proof.
  intros Hm. unfold step, apply_annotation.
  destruct Hm as [H|[H|[(Ho & Hp & Hh & Hs)|[Ht Hs]]]].
  - by rewrite (bool_decide_eq_true_2 _ H).
  - rewrite (bool_decide_eq_true_2 _ H). by rewrite orb_true_r.
  - destruct (bool_decide (ann_Name a = ""%string) || bool_decide (ann_Type a = ""%string));
      [done|].
    rewrite (bool_decide_eq_true_2 _ Ho).
    rewrite (bool_decide_eq_false_2 _ Hp), (bool_decide_eq_false_2 _ Hh),
      (bool_decide_eq_false_2 _ Hs).
    reflexivity.
  - destruct (bool_decide (ann_Name a = ""%string) || bool_decide (ann_Type a = ""%string));
      [done|].
    destruct (bool_decide (ann_Other a = ""%string) && _); [done|].
    rewrite (bool_decide_eq_true_2 _ Ht).
    apply Z.leb_le in Hs. rewrite Hs. reflexivity.
Qed.

Lemma apply_annotations_app (st : AnnState) (l1 l2 : list Annotation) :
  run st (l1 ++ l2) = run (run st l1) l2.
Proof. unfold run, apply_annotations. apply fold_left_app. Qed.

Lemma index_functions_single (store : list Function) (f : Function) :
  index_functions L RealName store [f]
  = mkAnnState {[ L (RealName f) := length store ]} (store ++ [f]).
Proof.
  unfold index_functions. simpl. rewrite Nat.add_0_r. by rewrite insert_empty.
Qed.

(** C8 (rename, then private): with the set holding exactly one function,
    filed under the lower-cased [P.F], the rename moves its entry to the key
    of [P.G] and the private directive that follows deletes that entry: the
    map is empty and the slice returned has no element. *)
Theorem rename_then_private_is_empty (store : list Function) (f : Function) :
  L (RealName f) = L "P.F" ->
  fst (ApplyAnnotations L ToUpper EqualFold RealName FunctionName store [f]
         [mkAnnotation "P" "rename" "F" "G" 0;
          mkAnnotation "P" "private" "G" "" 0])
  = []
  /\ funcs (apply_annotations L ToUpper EqualFold FunctionName
              (index_functions L RealName store [f])
              [mkAnnotation "P" "rename" "F" "G" 0])
     = {[ L "P.G" := length store ]}.
Proof.
  intros Hkey. unfold ApplyAnnotations, apply_annotations.
  rewrite index_functions_single, Hkey. simpl.
  unfold apply_annotation at 2 3. simpl.
  change (FullName (mkAnnotation "P" "rename" "F" "G" 0)) with "P.F"%string.
  change (FullOther (mkAnnotation "P" "rename" "F" "G" 0)) with "P.G"%string.
  rewrite lookup_singleton_eq. rewrite delete_singleton_eq, insert_empty.
  split; [|reflexivity].
  unfold apply_annotation. simpl.
  change (FullName (mkAnnotation "P" "private" "G" "" 0)) with "P.G"%string.
  rewrite delete_singleton_eq.
  unfold collect_functions. simpl. by rewrite map_to_list_empty.
Qed.

Lemma max_table_size_step (a : Annotation) (s : AnnState) (p : nat) (g : Function) :
  ann_Type a = "max-table-size"%string -> ann_Name a <> ""%string ->
  0 < ann_Size a -> funcs s !! L (FullName a) = Some p ->
  fstore s !! p = Some g ->
  step s a
  = mkAnnState (funcs s)
      (<[p := set_maxTableSize (Z.max (maxTableSize g) (ann_Size a)) g]> (fstore s)).
Proof.
  intros Ht Hn Hs Hk Hg. unfold step, apply_annotation.
  rewrite Ht. rewrite (bool_decide_eq_false_2 _ Hn). simpl.
  destruct (ann_Size a <=? 0) eqn:E; [apply Z.leb_le in E; lia|]. simpl.
  rewrite andb_false_r, Hk. unfold update_fun. rewrite Hg.
  destruct (maxTableSize g <=? ann_Size a) eqn:E2.
  - apply Z.leb_le in E2. by rewrite Z.max_r.
  - apply Z.leb_gt in E2. rewrite Z.max_l by lia. by destruct g.
Qed.

Lemma max_table_size_twice (st : AnnState) (p : nat) (f : Function)
    (b1 b2 : Annotation) :
  ann_Type b1 = "max-table-size"%string -> ann_Type b2 = "max-table-size"%string ->
  ann_Name b1 <> ""%string -> ann_Name b2 <> ""%string ->
  0 < ann_Size b1 -> 0 < ann_Size b2 ->
  funcs st !! L (FullName b1) = Some p -> funcs st !! L (FullName b2) = Some p ->
  fstore st !! p = Some f ->
  run st [b1; b2]
  = mkAnnState (funcs st)
      (<[p := set_maxTableSize
                (Z.max (maxTableSize f) (Z.max (ann_Size b1) (ann_Size b2))) f]>
         (fstore st)).
Proof.
  intros T1 T2 N1 N2 S1 S2 K1 K2 Hf.
  assert (Hlen : (p < length (fstore st))%nat) by (by eapply lookup_lt_Some).
  change (run st [b1; b2]) with (step (step st b1) b2).
  rewrite (max_table_size_step b1 st p f) by done.
  rewrite (max_table_size_step b2 _ p
             (set_maxTableSize (Z.max (maxTableSize f) (ann_Size b1)) f));
    [|done..|by apply list_lookup_insert_eq].
  simpl. rewrite list_insert_insert_eq. by rewrite Z.max_assoc.
Qed.

(** C6 (max-table-size is monotone), amended: two [max-table-size]
    annotations with a name and a positive size, aimed at one Function, leave
    its table size at the maximum of the size it had and the two sizes, in
    either order.  So the size never decreases, and it is the maximum of the
    two sizes whenever the size it had did not exceed that (a Function fresh
    from the tree builder has size 0).  No other field of the Function
    and no other cell of the store changes, the map is as it was, and the
    Function with the new size is among those returned. *)
Theorem max_table_size_monotone (st : AnnState) (p : nat) (f : Function)
    (a1 a2 : Annotation) :
  ann_Type a1 = "max-table-size"%string -> ann_Type a2 = "max-table-size"%string ->
  ann_Name a1 <> ""%string -> ann_Name a2 <> ""%string ->
  0 < ann_Size a1 -> 0 < ann_Size a2 ->
  funcs st !! L (FullName a1) = Some p -> funcs st !! L (FullName a2) = Some p ->
  fstore st !! p = Some f ->
  let st' := apply_annotations L ToUpper EqualFold FunctionName st [a1; a2] in
  st' = apply_annotations L ToUpper EqualFold FunctionName st [a2; a1]
  /\ funcs st' = funcs st
  /\ length (fstore st') = length (fstore st)
  /\ (forall i, i <> p -> fstore st' !! i = fstore st !! i)
  /\ exists f',
       fstore st' !! p = Some f'
       /\ In f' (collect_functions st')
       /\ maxTableSize f'
          = Z.max (maxTableSize f) (Z.max (ann_Size a1) (ann_Size a2))
       /\ maxTableSize f <= maxTableSize f'
       /\ (maxTableSize f <= Z.max (ann_Size a1) (ann_Size a2) ->
           maxTableSize f' = Z.max (ann_Size a1) (ann_Size a2))
       /\ Package f' = Package f /\ name f' = name f /\ alias f' = alias f
       /\ fun_LastDDL f' = fun_LastDDL f /\ Args f' = Args f
       /\ Returns f' = Returns f /\ Replacement f' = Replacement f
       /\ ReplacementIsJSON f' = ReplacementIsJSON f /\ handle f' = handle f.
Proof.
  intros Ht1 Ht2 Hn1 Hn2 Hs1 Hs2 Hk1 Hk2 Hf st'.
  assert (Hlen : (p < length (fstore st))%nat) by (by eapply lookup_lt_Some).
  assert (E1 : st' = mkAnnState (funcs st)
                 (<[p := set_maxTableSize
                           (Z.max (maxTableSize f) (Z.max (ann_Size a1) (ann_Size a2)))
                           f]> (fstore st))).
  { by apply max_table_size_twice. }
  split.
  { rewrite E1. symmetry. fold run. rewrite (max_table_size_twice st p f a2 a1) by done.
    by rewrite (Z.max_comm (ann_Size a2)). }
  rewrite E1. simpl.
  split; [done|]. split; [by rewrite length_insert|].
  split; [intros i Hi; by apply list_lookup_insert_ne|].
  eexists. split; [by apply list_lookup_insert_eq|]. split.
  { apply list_elem_of_In. unfold collect_functions. simpl.
    apply list_elem_of_omap. exists (L (FullName a1), p). split.
    - by apply elem_of_map_to_list.
    - simpl. by apply list_lookup_insert_eq. }
  simpl. split; [done|]. split; [lia|]. split; [lia|]. by split_and!.
Qed.

End AnnotationFacts.

(** *** Concrete instances *)

Lemma rename_then_private_is_empty_witness :
  qualified_name fun_P_F = "P.F"%string
  /\ fst (ApplyAnnotations (fun s => s) (fun s => s) String.eqb qualified_name
            qualified_name [] [fun_P_F]
            [mkAnnotation "P" "rename" "F" "G" 0;
             mkAnnotation "P" "private" "G" "" 0]) = [].
Proof.
  split; [reflexivity|].
  exact (proj1 (rename_then_private_is_empty (fun s => s) (fun s => s) String.eqb
                  qualified_name qualified_name [] fun_P_F eq_refl)).
Defined.

(** Sizes 5 and 3, in both orders, on [P.F] fresh from the tree builder: the
    size of the Function returned is 5. *)
Lemma max_table_size_monotone_witness :
  (maxTableSize <$> fst (ApplyAnnotations (fun s => s) (fun s => s) String.eqb
                           qualified_name qualified_name [] [fun_P_F] [size_5; size_3]))
  = [5]
  /\ (maxTableSize <$> fst (ApplyAnnotations (fun s => s) (fun s => s) String.eqb
                              qualified_name qualified_name [] [fun_P_F]
                              [size_3; size_5]))
     = [5]
  /\ let st0 := index_functions (fun s => s) qualified_name [] [fun_P_F] in
     exists f',
       fstore (apply_annotations (fun s => s) (fun s => s) String.eqb qualified_name
                 st0 [size_5; size_3]) !! 0%nat = Some f'
       /\ maxTableSize f' = 5.
Proof.
  split; [reflexivity|]. split; [reflexivity|]. intros st0.
  destruct (max_table_size_monotone (fun s => s) (fun s => s) String.eqb
              qualified_name st0 0%nat fun_P_F size_5 size_3
              eq_refl eq_refl ltac:(discriminate) ltac:(discriminate)
              ltac:(reflexivity) ltac:(reflexivity) eq_refl eq_refl eq_refl)
    as (_ & _ & _ & _ & f' & Hf' & _ & Hmax & _).
  exists f'. split; [exact Hf'|exact Hmax].
Defined.

(** C6 as claimed fails for a Function whose size is above both sizes.
    [P.F] with the size 7, which is what an annotation of size 7 makes of the
    fresh [P.F]: the annotations of sizes 5 and 3 leave 7, in either order, and
    7 is not the maximum of 5 and 3. *)
Lemma size_above_both_annotations_stays :
  fst (ApplyAnnotations (fun s => s) (fun s => s) String.eqb qualified_name
         qualified_name [] [fun_P_F] [size_7])
  = [fun_P_F_size_7]
  /\ maxTableSize fun_P_F_size_7 = 7
  /\ (maxTableSize <$> fst (ApplyAnnotations (fun s => s) (fun s => s) String.eqb
                              qualified_name qualified_name [] [fun_P_F_size_7]
                              [size_5; size_3]))
     = [7]
  /\ (maxTableSize <$> fst (ApplyAnnotations (fun s => s) (fun s => s) String.eqb
                              qualified_name qualified_name [] [fun_P_F_size_7]
                              [size_3; size_5]))
     = [7]
  /\ (maxTableSize <$> fst (ApplyAnnotations (fun s => s) (fun s => s) String.eqb
                              qualified_name qualified_name [] [fun_P_F]
                              [size_7; size_5; size_3]))
     = [7]
  /\ Z.max (ann_Size size_5) (ann_Size size_3) = 5.
Proof. by split_and!. Qed.

(** ** The tree builder *)

Lemma to_int8_pred (z : Z) : to_int8 (to_int8 z - 1) = to_int8 (z - 1).
Proof. unfold to_int8. Z.div_mod_to_equations. lia. Qed.

Lemma to_int8_inj (a b : Z) :
  -1 <= a <= 254 -> -1 <= b <= 254 -> to_int8 a = to_int8 b -> a = b.
Proof. unfold to_int8. intros Ha Hb. Z.div_mod_to_equations. lia. Qed.

Lemma to_int8_zero (z : Z) : 0 <= z <= 255 -> to_int8 z = 0 -> z = 0.
Proof. unfold to_int8. intros Hz. Z.div_mod_to_equations. lia. Qed.

Lemma to_int8_pred_ne (z : Z) : to_int8 (z - 1) <> to_int8 z.
Proof. unfold to_int8. Z.div_mod_to_equations. lia. Qed.

(** *** Batches that flatten a forest of rows *)

Lemma RowTree_ind' (P : RowTree -> Prop) :
  (forall ua cs, Forall P cs -> P (RowNode ua cs)) -> forall t, P t.
Proof.
  intros H. fix IH 1. intros [ua cs]. apply H.
  induction cs as [|c cs IHcs]; constructor; [apply IH|exact IHcs].
Qed.

Lemma repr_unfold (h : list Argument) (ua : UserArgument) (cs : list RowTree)
    (nm : string) (q : nat) :
  repr h (RowNode ua cs) nm q
  <-> exists c, h !! q = Some c /\ Name c = nm
        /\ Forall2 (fun k c' => (q < k)%nat /\ repr h c' (ArgumentName (root_row c')) k)
             (kid_ptrs c) cs.
Proof.
  simpl. split; intros (c & H1 & H2 & H3); exists c; (split; [done|]); (split; [done|]).
  - revert H3. generalize (kid_ptrs c). induction cs as [|c' cs IH]; intros ks H3.
    + destruct ks; [constructor|done].
    + destruct ks as [|k ks]; [done|].
      destruct H3 as (Ha & Hb & Hc). constructor; [done|by apply IH].
  - revert H3. generalize (kid_ptrs c). induction cs as [|c' cs IH]; intros ks H3.
    + by apply Forall2_nil_inv_r in H3 as ->.
    + apply Forall2_cons_inv_r in H3 as (k & ks' & [Ha Hb] & Hrest & ->).
      split; [done|]. split; [done|]. by apply IH.
Qed.

Lemma level_names_app (l1 l2 : list UserArgument) :
  level_names (l1 ++ l2) = level_names l1 ++ level_names l2.
Proof. apply map_app. Qed.

Lemma level_names_rows_of (lvl : Z) (t : RowTree) :
  level_names (rows_of lvl t)
  = (lvl, ArgumentName (root_row t))
      :: level_names (flat_map (rows_of (lvl + 1)) (children_of t)).
Proof. by destruct t. Qed.

Lemma repr_frame (t : RowTree) :
  forall h h' nm q,
    repr h t nm q ->
    (forall i, (q <= i)%nat -> (i < length h)%nat -> h' !! i = h !! i) ->
    repr h' t nm q.
Proof.
  induction t as [ua cs IH] using RowTree_ind'. intros h h' nm q Hr Hsame.
  apply repr_unfold in Hr as (c & Hc & Hnm & Hkids). apply repr_unfold.
  exists c. split; [rewrite Hsame; [done|lia|by eapply lookup_lt_Some]|].
  split; [done|].
  revert Hkids. generalize (kid_ptrs c). induction IH as [|c' cs Hc' _ IHcs];
    intros ks Hkids.
  - by apply Forall2_nil_inv_r in Hkids as ->.
  - apply Forall2_cons_inv_r in Hkids as (k & ks' & [Ha Hb] & Hrest & ->).
    constructor; [|by apply IHcs].
    split; [done|]. apply (Hc' h h'); [done|].
    intros i Hi Hlt. apply Hsame; [lia|done].
Qed.

Lemma walk_kids (n : nat) (h : list Argument) (lvl : Z) (c : Argument) :
  walk (S n) h lvl c
  = (lvl, Name c)
      :: concat (map (fun k => match h !! k with
                               | Some c' => walk n h (lvl + 1) c'
                               | None => []
                               end) (kid_ptrs c)).
Proof.
  simpl. f_equal. unfold kid_ptrs. rewrite map_app, concat_app, map_map.
  f_equal. destruct (TableOf c); simpl; [by rewrite app_nil_r|done].
Qed.

Lemma list_max_le_elem (l : list nat) (x : nat) : In x l -> (x <= list_max l)%nat.
Proof.
  induction l as [|y l IH]; [done|]. simpl. intros [->|Hin]; [lia|].
  specialize (IH Hin). lia.
Qed.

(** Walking a represented tree gives its flattening back. *)
Lemma walk_repr (t : RowTree) :
  forall h nm q c fuel lvl,
    repr h t nm q -> h !! q = Some c -> (height t <= fuel)%nat ->
    walk fuel h lvl c
    = (lvl, nm) :: level_names (flat_map (rows_of (lvl + 1)) (children_of t)).
Proof.
  induction t as [ua cs IH] using RowTree_ind'. intros h nm q c fuel lvl Hr Hq Hfuel.
  apply repr_unfold in Hr as (c0 & Hc0 & Hnm & Hkids).
  assert (c0 = c) as -> by congruence.
  destruct fuel as [|n]; [simpl in Hfuel; lia|].
  rewrite walk_kids, Hnm. f_equal. simpl children_of.
  assert (Hh : forall c', In c' cs -> (height c' <= n)%nat).
  { intros c' Hin. simpl in Hfuel.
    pose proof (list_max_le_elem (map height cs) (height c') (in_map _ _ _ Hin)). lia. }
  clear Hfuel Hq Hc0 Hnm. revert Hkids Hh. generalize (kid_ptrs c).
  induction IH as [|c' cs Hc' _ IHcs]; intros ks Hkids Hh.
  - by apply Forall2_nil_inv_r in Hkids as ->.
  - apply Forall2_cons_inv_r in Hkids as (k & ks' & [Ha Hb] & Hrest & ->).
    simpl. rewrite level_names_app. f_equal.
    + pose proof Hb as Hb'. destruct c' as [ua' cs'].
      apply repr_unfold in Hb' as (ck & Hck & _). rewrite Hck.
      rewrite (Hc' h _ k ck n (lvl + 1) Hb Hck) by (apply Hh; by left).
      by rewrite level_names_rows_of.
    + apply IHcs; [done|]. intros x Hx. apply Hh. by right.
Qed.

Section TreeBuilderFacts.

Variable flavorOf : string -> FlavorKind.
Variable directionOf : string -> Z -> Z.

Let new_arg := arg_of_row flavorOf directionOf.
Let step := process_row flavorOf directionOf.
Local Abbreviation run := (process_rows flavorOf directionOf).

Local Abbreviation register := (Oracall.register flavorOf).
Local Abbreviation most_recent := (Oracall.most_recent flavorOf).
Local Abbreviation well_formed := (Oracall.well_formed flavorOf).
Local Abbreviation grafted := (Oracall.grafted flavorOf directionOf).
Local Abbreviation grafts_tree := (Oracall.grafts_tree flavorOf directionOf).

Lemma new_arg_Name (ua : UserArgument) : Name (new_arg ua) = ArgumentName ua.
Proof. reflexivity. Qed.

Lemma new_arg_Flavor (ua : UserArgument) :
  Flavor (new_arg ua) = flavorOf (DataType ua).
Proof. reflexivity. Qed.

Lemma attach_app (p q : nat) (nm : string) (h : list Argument) (a parent : Argument) :
  h !! p = Some parent ->
  attach p q nm (h ++ [a]) = <[p := adopt parent q nm]> h ++ [a].
Proof.
  intros Hp. assert (Hlt : (p < length h)%nat) by (by eapply lookup_lt_Some).
  unfold attach, adopt. rewrite lookup_app_l, Hp by done.
  destruct (decide (Flavor parent = FLAVOR_TABLE)); by rewrite insert_app_l.
Qed.

Lemma step_return (st : BuildState) (ua : UserArgument) :
  is_return_row st ua ->
  step st ua
  = Ret (mkBuildState (heap st ++ [set_Name "ret" (new_arg ua)]) (register st ua)
           (Some (length (heap st)))).
Proof.
  intros Hret. unfold step, process_row. fold new_arg.
  rewrite decide_True by exact Hret.
  f_equal. f_equal.
  rewrite insert_app_r_alt by done. by rewrite Nat.sub_diag.
Qed.

Lemma step_attach (st : BuildState) (ua : UserArgument) (p : nat) (parent : Argument) :
  ~ is_return_row st ua ->
  register st ua !! to_int8 (to_int8 (DataLevel ua) - 1) = Some p ->
  heap st !! p = Some parent ->
  step st ua
  = Ret (mkBuildState
           (<[p := adopt parent (length (heap st)) (ArgumentName ua)]> (heap st)
              ++ [new_arg ua])
           (register st ua) (st_Returns st)).
Proof.
  intros Hret Hp Hparent. unfold step, process_row. fold new_arg.
  rewrite decide_False by exact Hret.
  change (if decide (Flavor (new_arg ua) <> FLAVOR_SIMPLE)
          then <[to_int8 (DataLevel ua) := length (heap st)]> (lastArgs st)
          else lastArgs st) with (register st ua).
  rewrite Hp. by rewrite (attach_app _ _ _ _ _ parent).
Qed.

Lemma step_orphan (st : BuildState) (ua : UserArgument) :
  ~ is_return_row st ua ->
  register st ua !! to_int8 (to_int8 (DataLevel ua) - 1) = None ->
  step st ua = Panic (PanicParentIsNil (to_int8 (DataLevel ua))).
Proof.
  intros Hret Hp. unfold step, process_row. fold new_arg.
  rewrite decide_False by exact Hret.
  change (if decide (Flavor (new_arg ua) <> FLAVOR_SIMPLE)
          then <[to_int8 (DataLevel ua) := length (heap st)]> (lastArgs st)
          else lastArgs st) with (register st ua).
  by rewrite Hp.
Qed.

Lemma obind_Ret {E A B : Type} (a : A) (k : A -> outcome E B) :
  obind (Ret a) k = k a.
Proof. reflexivity. Qed.

Lemma run_app (st : BuildState) (l1 l2 : list UserArgument) :
  run st (l1 ++ l2) = let! st1 := run st l1 in run st1 l2.
Proof.
  revert st. induction l1 as [|ua l1 IH]; intros st; [done|].
  simpl. fold step. destruct (step st ua) as [st1|e]; simpl; [apply IH|done].
Qed.

(** *** Parent resolution *)

Lemma most_recent_app (k : Z) (base : nat) (l1 l2 : list UserArgument)
    (init : option nat) :
  most_recent k base (l1 ++ l2) init
  = most_recent k (base + length l1) l2 (most_recent k base l1 init).
Proof.
  revert base init. induction l1 as [|ua l1 IH]; intros base init; simpl.
  - by rewrite Nat.add_0_r.
  - rewrite IH. f_equal. lia.
Qed.

Lemma register_lookup (st : BuildState) (ua : UserArgument) (k : Z) :
  register st ua !! k
  = if decide (flavorOf (DataType ua) <> FLAVOR_SIMPLE /\ to_int8 (DataLevel ua) = k)
    then Some (length (heap st)) else lastArgs st !! k.
Proof.
  unfold register. destruct (decide (flavorOf (DataType ua) <> FLAVOR_SIMPLE)) as [Hf|Hf].
  - destruct (decide (to_int8 (DataLevel ua) = k)) as [<-|Hk].
    + rewrite lookup_insert_eq. by rewrite decide_True.
    + rewrite lookup_insert_ne by done. rewrite decide_False; [done|]. by intros [_ ?].
  - rewrite decide_False; [done|]. by intros [? _].
Qed.

Lemma adopt_Flavor (parent : Argument) (q : nat) (nm : string) :
  Flavor (adopt parent q nm) = Flavor parent.
Proof. unfold adopt. by destruct (decide _). Qed.

Lemma step_shape (st st1 : BuildState) (ua : UserArgument) :
  step st ua = Ret st1 ->
  length (heap st1) = S (length (heap st))
  /\ lastArgs st1 = register st ua
  /\ (forall i c, heap st !! i = Some c ->
        exists c', heap st1 !! i = Some c' /\ Flavor c' = Flavor c)
  /\ (exists c', heap st1 !! length (heap st) = Some c'
        /\ Flavor c' = flavorOf (DataType ua)).
Proof.
  intros Hstep. destruct (decide (is_return_row st ua)) as [Hret|Hret].
  - rewrite step_return in Hstep by done. injection Hstep as <-. simpl.
    split; [rewrite length_app; simpl; lia|]. split; [done|]. split.
    + intros i c Hi. exists c. split; [|done]. by apply lookup_app_l_Some.
    + eexists. split; [by apply list_lookup_middle|done].
  - destruct (register st ua !! to_int8 (to_int8 (DataLevel ua) - 1)) as [p|] eqn:Hp;
      [|by rewrite step_orphan in Hstep].
    destruct (heap st !! p) as [parent|] eqn:Hparent.
    + rewrite (step_attach st ua p parent) in Hstep by done.
      injection Hstep as <-. simpl.
      split; [rewrite length_app, length_insert; simpl; lia|]. split; [done|]. split.
      * intros i c Hi. destruct (decide (i = p)) as [->|Hne].
        -- exists (adopt parent (length (heap st)) (ArgumentName ua)).
           split; [|rewrite adopt_Flavor; congruence].
           apply lookup_app_l_Some, list_lookup_insert_eq. by eapply lookup_lt_Some.
        -- exists c. split; [|done].
           apply lookup_app_l_Some. by rewrite list_lookup_insert_ne.
      * exists (new_arg ua). split; [|done].
        apply list_lookup_middle. by rewrite length_insert.
    + unfold step, process_row in Hstep. fold new_arg in Hstep.
      rewrite decide_False in Hstep by exact Hret.
      change (if decide (Flavor (new_arg ua) <> FLAVOR_SIMPLE)
              then <[to_int8 (DataLevel ua) := length (heap st)]> (lastArgs st)
              else lastArgs st) with (register st ua) in Hstep.
      rewrite Hp in Hstep. injection Hstep as <-. simpl.
      assert (Hge : (length (heap st) <= p)%nat) by (by apply lookup_ge_None).
      unfold attach.
      destruct ((heap st ++ [new_arg ua]) !! p) as [c0|] eqn:Hc0.
      * assert (p = length (heap st)) as ->.
        { apply lookup_lt_Some in Hc0. rewrite length_app in Hc0. simpl in Hc0. lia. }
        rewrite list_lookup_middle in Hc0 by done. injection Hc0 as <-.
        assert (Hlen : forall x, length (<[length (heap st) := x]> (heap st ++ [new_arg ua]))
                         = S (length (heap st))).
        { intros x. rewrite length_insert, length_app. simpl. lia. }
        assert (Hold : forall x i c, heap st !! i = Some c ->
                  <[length (heap st) := x]> (heap st ++ [new_arg ua]) !! i = Some c).
        { intros x i c Hi. rewrite list_lookup_insert_ne.
          - by apply lookup_app_l_Some.
          - apply lookup_lt_Some in Hi. lia. }
        assert (Hnew : forall x,
                  <[length (heap st) := x]> (heap st ++ [new_arg ua]) !! length (heap st)
                  = Some x).
        { intros x. apply list_lookup_insert_eq. rewrite length_app. simpl. lia. }
        destruct (decide (Flavor (new_arg ua) = FLAVOR_TABLE)).
        -- split; [apply Hlen|]. split; [done|]. split.
           ++ intros i c Hi. exists c. split; [by apply Hold|done].
           ++ eexists. split; [apply Hnew|done].
        -- split; [apply Hlen|]. split; [done|]. split.
           ++ intros i c Hi. exists c. split; [by apply Hold|done].
           ++ eexists. split; [apply Hnew|done].
      * split; [rewrite length_app; simpl; lia|]. split; [done|]. split.
        -- intros i c Hi. exists c. split; [by apply lookup_app_l_Some|done].
        -- eexists. split; [by apply list_lookup_middle|done].
Qed.

Lemma step_composite_parents (st st1 : BuildState) (ua : UserArgument) :
  composite_parents st -> step st ua = Ret st1 -> composite_parents st1.
Proof.
  intros Hinv Hstep k p Hk.
  destruct (step_shape st st1 ua Hstep) as (Hlen & Hla & Hold & c' & Hnew & Hfl).
  rewrite Hla, register_lookup in Hk.
  destruct (decide _) as [[Hf _]|_].
  - injection Hk as <-. exists c'. split; [done|]. by rewrite Hfl.
  - destruct (Hinv k p Hk) as (c & Hc & Hcf).
    destruct (Hold p c Hc) as (c2 & Hc2 & Hf2). exists c2. split; [done|]. by rewrite Hf2.
Qed.

Lemma run_shape (rows : list UserArgument) (st st' : BuildState) :
  composite_parents st -> run st rows = Ret st' ->
  composite_parents st'
  /\ length (heap st') = (length (heap st) + length rows)%nat
  /\ forall k, lastArgs st' !! k
               = most_recent k (length (heap st)) rows (lastArgs st !! k).
Proof.
  revert st. induction rows as [|ua rows IH]; intros st Hinv Hrun.
  - injection Hrun as <-. split; [done|]. split; [simpl; lia|done].
  - simpl in Hrun. fold step in Hrun.
    destruct (step st ua) as [st1|e] eqn:Hstep; [|done]. simpl in Hrun.
    destruct (step_shape st st1 ua Hstep) as (Hlen & Hla & _).
    destruct (IH st1 (step_composite_parents _ _ _ Hinv Hstep) Hrun) as (H1 & H2 & H3).
    split; [done|]. split; [rewrite H2, Hlen; simpl; lia|].
    intros k. rewrite H3, Hlen, Hla, register_lookup. done.
Qed.

Lemma batch_init_composite_parents (h0 : list Argument) :
  composite_parents (batch_init h0).
Proof.
  intros k p Hk. unfold batch_init in Hk. simpl in Hk.
  apply lookup_singleton_Some in Hk as [_ <-].
  exists root_Argument. split; [by apply list_lookup_middle|done].
Qed.

Lemma register_most_recent (h0 : list Argument) (rows : list UserArgument)
    (ua : UserArgument) (st : BuildState) (k : Z) :
  run (batch_init h0) rows = Ret st ->
  register st ua !! k
  = most_recent k (S (length h0)) (rows ++ [ua])
      (if decide (k = -1) then Some (length h0) else None).
Proof.
  intros Hrun.
  destruct (run_shape rows _ _ (batch_init_composite_parents h0) Hrun) as (_ & Hlen & Hla).
  unfold batch_init in Hlen, Hla. simpl in Hlen, Hla.
  rewrite length_app in Hlen, Hla. simpl in Hlen, Hla.
  rewrite Nat.add_1_r in Hlen, Hla.
  rewrite register_lookup, most_recent_app. simpl. rewrite Hlen, Hla.
  replace ((∅ : gmap Z nat) !! k) with (@None nat) in * by done.
  assert (Hinit : ({[ -1 := length h0 ]} : gmap Z nat) !! k
                  = if decide (k = -1) then Some (length h0) else None).
  { destruct (decide (k = -1)) as [->|Hk].
    - by rewrite lookup_singleton_eq.
    - by rewrite lookup_singleton_ne. }
  by rewrite Hinit.
Qed.

(** The loop body in terms of the keys of [lastArgs].  [level] is the
    variable of the code, [int8(ua.DataLevel)], and [level - 1] is taken in
    [int8] as well; the sentinel RECORD is filed under the key -1.  For a row
    that is not taken for the return value, after any rows of the batch that
    were processed: when [lastArgs] has nothing under the key [level - 1] the
    body panics; otherwise the cell filed there last is the parent, and the
    state after the row is the one written out.  The rows TABLE, RECORD,
    SIMPLE, SIMPLE at levels 0, 1, 2, 2 give the store written out below. *)
Lemma lastArgs_parent (h0 : list Argument) (rows : list UserArgument)
    (ua : UserArgument) (st : BuildState) :
  process_rows flavorOf directionOf (batch_init h0) rows = Ret st ->
  ~ is_return_row st ua ->
  let level := to_int8 (DataLevel ua) in
  let q := length (heap st) in
  match most_recent (to_int8 (level - 1)) (S (length h0)) (rows ++ [ua])
          (if decide (to_int8 (level - 1) = -1) then Some (length h0) else None) with
  | None =>
      process_row flavorOf directionOf st ua = Panic (PanicParentIsNil level)
  | Some p =>
      exists parent,
        (p < q)%nat /\ heap st !! p = Some parent /\ Flavor parent <> FLAVOR_SIMPLE
        /\ process_row flavorOf directionOf st ua
           = Ret (mkBuildState
                    (<[p := if decide (Flavor parent = FLAVOR_TABLE)
                            then set_TableOf (Some q) parent
                            else set_RecordOf
                                   (RecordOf parent ++ [(ArgumentName ua, q)]) parent]>
                       (heap st)
                     ++ [arg_of_row flavorOf directionOf ua])
                    (register st ua) (st_Returns st))
  end
  /\ (forall t r s1 s2,
        DataLevel t = 0 -> DataLevel r = 1 -> DataLevel s1 = 2 -> DataLevel s2 = 2 ->
        flavorOf (DataType t) = FLAVOR_TABLE ->
        flavorOf (DataType r) = FLAVOR_RECORD ->
        flavorOf (DataType s1) = FLAVOR_SIMPLE ->
        flavorOf (DataType s2) = FLAVOR_SIMPLE ->
        ArgumentName t <> ""%string ->
        skip_batch None [t; r; s1; s2] = Ret false ->
        exists f,
          ParseArguments flavorOf directionOf [[t; r; s1; s2]] None
          = Ret ([f],
                 [set_RecordOf [(ArgumentName t, 1%nat)] root_Argument;
                  set_TableOf (Some 2%nat) (arg_of_row flavorOf directionOf t);
                  set_RecordOf [(ArgumentName s1, 3%nat); (ArgumentName s2, 4%nat)]
                    (arg_of_row flavorOf directionOf r);
                  arg_of_row flavorOf directionOf s1;
                  arg_of_row flavorOf directionOf s2])
          /\ Args f = [set_TableOf (Some 2%nat) (arg_of_row flavorOf directionOf t)]
          /\ Returns f = None).
Proof.
  intros Hrun Hret level q. split.
  - fold step new_arg.
    rewrite <- (register_most_recent h0 rows ua st _ Hrun).
    destruct (register st ua !! to_int8 (level - 1)) as [p|] eqn:Hp.
    + assert (Hla : lastArgs st !! to_int8 (level - 1) = Some p).
      { rewrite register_lookup in Hp. destruct (decide _) as [[_ Hk]|_]; [|done].
        unfold level in Hk. rewrite to_int8_pred in Hk.
        by apply eq_sym, to_int8_pred_ne in Hk. }
      destruct (run_shape rows _ _ (batch_init_composite_parents h0) Hrun) as (Hinv & _).
      destruct (Hinv _ _ Hla) as (parent & Hparent & Hfl).
      exists parent. split; [by eapply lookup_lt_Some|]. split; [done|]. split; [done|].
      by apply step_attach.
    + by apply step_orphan.
  - intros t r s1 s2 Lt Lr L1 L2 Ft Fr F1 F2 Hnm Hskip.
    unfold ParseArguments, parse_batches. rewrite Hskip. simpl.
    unfold build_function.
    change (process_rows flavorOf directionOf (batch_init []) [t; r; s1; s2])
      with (let! a := step (batch_init []) t in let! b := step a r in
            let! c := step b s1 in let! d := step c s2 in Ret d).
    assert (Hreg : forall (st0 : BuildState) (x : UserArgument) (k : Z) (fl : FlavorKind)
                     (lv : Z),
               flavorOf (DataType x) = fl -> DataLevel x = lv ->
               register st0 x !! k
               = if bool_decide (fl <> FLAVOR_SIMPLE) && (to_int8 lv =? k)
                 then Some (length (heap st0)) else lastArgs st0 !! k).
    { intros st0 x k fl lv <- <-. rewrite register_lookup.
      destruct (decide _) as [[H1 H2]|Hn].
      - by rewrite bool_decide_eq_true_2, H2, Z.eqb_refl.
      - destruct (bool_decide _ && _) eqn:E; [|done].
        apply andb_prop in E as [E1 E2]. apply bool_decide_eq_true_1 in E1.
        apply Z.eqb_eq in E2. by destruct Hn. }
    rewrite (step_attach (batch_init []) t 0%nat root_Argument); cycle 1.
    { intros (_ & _ & H). done. }
    { rewrite Lt, (Hreg _ _ _ _ _ Ft Lt). reflexivity. }
    { done. }
    simpl.
    rewrite (step_attach _ r 1%nat (new_arg t)); cycle 1.
    { intros (H & _). by rewrite Lr in H. }
    { rewrite Lr, (Hreg _ _ _ _ _ Fr Lr). simpl.
      rewrite (Hreg _ _ _ _ _ Ft Lt). reflexivity. }
    { done. }
    simpl.
    rewrite (step_attach _ s1 2%nat (new_arg r)); cycle 1.
    { intros (H & _). by rewrite L1 in H. }
    { rewrite L1, (Hreg _ _ _ _ _ F1 L1). simpl.
      rewrite (Hreg _ _ _ _ _ Fr Lr). reflexivity. }
    { done. }
    simpl.
    rewrite (step_attach _ s2 2%nat (adopt (new_arg r) 3 (ArgumentName s1))); cycle 1.
    { intros (H & _). by rewrite L2 in H. }
    { rewrite L2, (Hreg _ _ _ _ _ F2 L2). simpl.
      rewrite (Hreg _ _ _ _ _ F1 L1). simpl.
      rewrite (Hreg _ _ _ _ _ Fr Lr). reflexivity. }
    { done. }
    simpl.
    assert (Ha1 : adopt root_Argument 1 (ArgumentName t)
                  = set_RecordOf [(ArgumentName t, 1%nat)] root_Argument) by done.
    assert (Ha2 : adopt (new_arg t) 2 (ArgumentName r)
                  = set_TableOf (Some 2%nat) (new_arg t)).
    { unfold adopt. by rewrite new_arg_Flavor, Ft. }
    assert (Ha3 : adopt (adopt (new_arg r) 3 (ArgumentName s1)) 4 (ArgumentName s2)
                  = set_RecordOf [(ArgumentName s1, 3%nat); (ArgumentName s2, 4%nat)]
                      (new_arg r)).
    { unfold adopt at 1. rewrite adopt_Flavor. unfold adopt.
      by rewrite new_arg_Flavor, Fr. }
    rewrite Ha1, Ha2, Ha3. clear Ha1 Ha2 Ha3.
    eexists. split; [reflexivity|]. split; [|reflexivity].
    unfold collect_Args. simpl.
    rewrite (Hreg _ _ _ _ _ F2 L2). simpl.
    rewrite (Hreg _ _ _ _ _ F1 L1). simpl.
    rewrite (Hreg _ _ _ _ _ Fr Lr). simpl.
    rewrite (Hreg _ _ _ _ _ Ft Lt). reflexivity.
Qed.

(** *** Rebuilding a flattened forest *)

Lemma well_formed_inv (lvl : Z) (ua : UserArgument) (cs : list RowTree) :
  well_formed lvl (RowNode ua cs) = true ->
  0 <= lvl <= 255
  /\ (flavorOf (DataType ua) = FLAVOR_SIMPLE -> cs = [])
  /\ (flavorOf (DataType ua) <> FLAVOR_SIMPLE -> lvl <= 254)
  /\ (flavorOf (DataType ua) = FLAVOR_TABLE -> (length cs <= 1)%nat)
  /\ forallb (well_formed (lvl + 1)) cs = true.
Proof.
  simpl. intros H. apply andb_prop in H as [H Hcs].
  apply andb_prop in H as [H Hfl]. apply andb_prop in H as [H0 H255].
  apply Z.leb_le in H0, H255. split; [lia|].
  destruct (flavorOf (DataType ua)).
  - split; [intros _; by destruct cs|]. done.
  - apply Z.leb_le in Hfl. done.
  - apply andb_prop in Hfl as [H254 Hlen]. apply Z.leb_le in H254.
    apply Nat.leb_le in Hlen. done.
Qed.

Lemma is_return_row_Returns (st st1 : BuildState) (ua : UserArgument) :
  st_Returns st1 = st_Returns st -> is_return_row st1 ua -> is_return_row st ua.
Proof. unfold is_return_row. intros ->. done. Qed.

Lemma adopt_all_cons (pc : Argument) (nm : string) (k : nat)
    (entries : list (string * nat)) :
  adopt_all pc ((nm, k) :: entries) = adopt_all (adopt pc k nm) entries.
Proof. reflexivity. Qed.

Lemma adopt_all_shape (entries : list (string * nat)) (pc : Argument) :
  TableOf pc = None -> RecordOf pc = [] ->
  (Flavor pc = FLAVOR_TABLE -> (length entries <= 1)%nat) ->
  kid_ptrs (adopt_all pc entries) = map snd entries
  /\ Name (adopt_all pc entries) = Name pc.
Proof.
  intros Ht Hr Hlen. destruct (decide (Flavor pc = FLAVOR_TABLE)) as [Hfl|Hfl].
  - specialize (Hlen Hfl). destruct entries as [|[nm k] [|e entries]];
      [|clear Hlen|simpl in Hlen; lia].
    + unfold kid_ptrs. simpl. by rewrite Ht, Hr.
    + unfold adopt_all, adopt, kid_ptrs. simpl. rewrite decide_True by done.
      simpl. by rewrite Hr.
  - assert (Hgen : forall es c, Flavor c <> FLAVOR_TABLE ->
              adopt_all c es = set_RecordOf (RecordOf c ++ es) c).
    { induction es as [|[nm k] es IH]; intros c Hc.
      - simpl. rewrite app_nil_r. by destruct c.
      - rewrite adopt_all_cons, IH by (by rewrite adopt_Flavor).
        unfold adopt. rewrite decide_False by done. simpl.
        by rewrite <- app_assoc. }
    rewrite Hgen by done. unfold kid_ptrs. simpl. by rewrite Ht, Hr.
Qed.

(** The trees of a list are grafted one after the other. *)
Lemma grafted_list (cs : list RowTree) :
  Forall grafts_tree cs ->
  forall lvl st p pc,
    forallb (well_formed lvl) cs = true ->
    Forall (fun c => ~ is_return_row st (set_DataLevel lvl (root_row c))) cs ->
    (cs <> [] -> lastArgs st !! to_int8 (lvl - 1) = Some p) ->
    heap st !! p = Some pc ->
    grafted lvl cs st p pc.
Proof.
  induction 1 as [|c cs Hc _ IH]; intros lvl st p pc Hwf Hnr Hla Hp.
  - exists st, []. simpl. repeat split; done.
  - simpl in Hwf. apply andb_prop in Hwf as [Hwfc Hwfcs].
    apply Forall_cons in Hnr as [Hnrc Hnrcs].
    specialize (Hla ltac:(done)).
    destruct (Hc lvl st p pc Hwfc Hnrc Hla Hp)
      as (st1 & ks1 & Hrun1 & Hlen1 & Hold1 & Hp1 & Hks1 & Hkeys1 & Hret1).
    simpl in Hrun1. rewrite app_nil_r in Hrun1.
    apply Forall2_cons_inv_r in Hks1 as (k1 & ks0 & [Hk1 Hrepr1] & Hnil & ->).
    apply Forall2_nil_inv_r in Hnil as ->.
    simpl in Hp1.
    assert (Hplt : (p < length (heap st))%nat) by (by eapply lookup_lt_Some).
    assert (Hnr1 : Forall (fun x => ~ is_return_row st1 (set_DataLevel lvl (root_row x)))
                     cs).
    { eapply Forall_impl; [exact Hnrcs|]. intros x Hx Hx1. apply Hx.
      by eapply is_return_row_Returns. }
    assert (Hla1 : cs <> [] -> lastArgs st1 !! to_int8 (lvl - 1) = Some p).
    { intros _. destruct (decide (0 <= lvl)) as [H0|H0].
      - rewrite Hkeys1 by lia. exact Hla.
      - destruct c as [ua0 cs0]. apply well_formed_inv in Hwfc. lia. }
    destruct (IH lvl st1 p _ Hwfcs Hnr1 Hla1 Hp1)
      as (st' & ks & Hrun & Hlen & Hold & Hp' & Hks & Hkeys & Hret).
    exists st', (k1 :: ks). split.
    { simpl. rewrite run_app, Hrun1. exact Hrun. }
    split; [lia|]. split.
    { intros i Hi Hne. rewrite Hold by (done || lia). by apply Hold1. }
    split; [exact Hp'|]. split.
    { constructor.
      - split; [done|]. apply (repr_frame c (heap st1)); [done|].
        intros i Hi Hlt. apply Hold; [done|lia].
      - eapply Forall2_impl; [exact Hks|]. intros k x [Hk Hx]. split; [lia|done]. }
    split; [|congruence].
    intros j Hj. rewrite Hkeys by done. by apply Hkeys1.
Qed.

Lemma register_below (st : BuildState) (ua : UserArgument) (lvl j : Z) :
  0 <= lvl <= 255 -> (flavorOf (DataType ua) <> FLAVOR_SIMPLE -> lvl <= 254) ->
  -1 <= j < lvl ->
  register st (set_DataLevel lvl ua) !! to_int8 j = lastArgs st !! to_int8 j.
Proof.
  intros Hlvl Hfl Hj. rewrite register_lookup. simpl.
  destruct (decide _) as [[Hf Hk]|_]; [|done].
  apply to_int8_inj in Hk; [lia| |lia]. specialize (Hfl Hf). lia.
Qed.

Lemma register_self (st : BuildState) (ua : UserArgument) (lvl : Z) :
  flavorOf (DataType ua) <> FLAVOR_SIMPLE ->
  register st (set_DataLevel lvl ua) !! to_int8 lvl = Some (length (heap st)).
Proof.
  intros Hfl. rewrite register_lookup. simpl. by rewrite decide_True.
Qed.

(** The rows below a row that was just given the cell [q]. *)
Lemma root_then_kids (ua : UserArgument) (cs : list RowTree) (lvl : Z)
    (st1 : BuildState) (q : nat) (cell : Argument) :
  Forall grafts_tree cs ->
  well_formed lvl (RowNode ua cs) = true ->
  length (heap st1) = S q -> heap st1 !! q = Some cell ->
  TableOf cell = None -> RecordOf cell = [] ->
  Flavor cell = flavorOf (DataType ua) ->
  (flavorOf (DataType ua) <> FLAVOR_SIMPLE -> lastArgs st1 !! to_int8 lvl = Some q) ->
  exists st',
    run st1 (flat_map (rows_of (lvl + 1)) cs) = Ret st'
    /\ (length (heap st1) <= length (heap st'))%nat
    /\ (forall i, (i < q)%nat -> heap st' !! i = heap st1 !! i)
    /\ repr (heap st') (RowNode ua cs) (Name cell) q
    /\ (forall j, -1 <= j <= lvl ->
          lastArgs st' !! to_int8 j = lastArgs st1 !! to_int8 j)
    /\ st_Returns st' = st_Returns st1.
Proof.
  intros IH Hwf Hlen Hq Htab Hrec Hflv Hla.
  destruct (well_formed_inv _ _ _ Hwf) as (Hlvl & Hsimple & H254 & Htable & Hwfcs).
  assert (Hcomposite : cs <> [] -> flavorOf (DataType ua) <> FLAVOR_SIMPLE).
  { intros Hne Hs. by apply Hne, Hsimple. }
  destruct (grafted_list cs IH (lvl + 1) st1 q cell Hwfcs)
    as (st' & ks & Hrun & Hlen' & Hold & Hq' & Hks & Hkeys & Hret); [| |done|].
  { apply Forall_forall. intros c Hc (H0 & _). simpl in H0.
    assert (Hne : cs <> []) by (intros ->; by apply elem_of_nil in Hc).
    specialize (H254 (Hcomposite Hne)).
    apply to_int8_zero in H0; lia. }
  { intros Hne. replace (lvl + 1 - 1) with lvl by lia. by apply Hla, Hcomposite. }
  exists st'. split; [done|]. split; [done|]. split.
  { intros i Hi. apply Hold; lia. }
  split; [|split; [intros j Hj; apply Hkeys; lia|done]].
  apply repr_unfold.
  destruct (adopt_all_shape (zip (names_of cs) ks) cell Htab Hrec) as [Hkids Hname].
  { intros Hfl. rewrite length_zip_with. unfold names_of. rewrite length_map.
    rewrite Hflv in Hfl. specialize (Htable Hfl). lia. }
  exists (adopt_all cell (zip (names_of cs) ks)).
  split; [done|]. split; [done|].
  rewrite Hkids, snd_zip.
  - eapply Forall2_impl; [exact Hks|]. intros k c [Hk Hc]. split; [lia|done].
  - unfold names_of. rewrite length_map. by rewrite (Forall2_length _ _ _ Hks).
Qed.

(** Every well-formed tree whose root is not taken for the return value is
    grafted onto the cell registered one level up. *)
Lemma grafts_every_tree (t : RowTree) : grafts_tree t.
Proof.
  induction t as [ua cs IH] using RowTree_ind'.
  intros lvl st p pc Hwf Hnr Hla Hp.
  destruct (well_formed_inv _ _ _ Hwf) as (Hlvl & Hsimple & H254 & Htable & Hwfcs).
  simpl root_row in Hnr.
  set (row := set_DataLevel lvl ua). set (q := length (heap st)).
  assert (Hplt : (p < q)%nat) by (by eapply lookup_lt_Some).
  assert (Hstep : step st row
                  = Ret (mkBuildState
                           (<[p := adopt pc q (ArgumentName ua)]> (heap st)
                              ++ [new_arg row])
                           (register st row) (st_Returns st))).
  { apply (step_attach st row p pc); [done| |done].
    change (DataLevel row) with lvl. rewrite to_int8_pred.
    rewrite register_lookup. rewrite decide_False; [done|].
    intros [_ Hk]. change (DataLevel row) with lvl in Hk.
    by apply eq_sym, to_int8_pred_ne in Hk. }
  set (st1 := mkBuildState (<[p := adopt pc q (ArgumentName ua)]> (heap st)
                              ++ [new_arg row]) (register st row) (st_Returns st)).
  destruct (root_then_kids ua cs lvl st1 q (new_arg row) IH Hwf)
    as (st' & Hrun & Hlen & Hold & Hrepr & Hkeys & Hret); try done.
  { simpl. rewrite length_app, length_insert. simpl. lia. }
  { simpl. apply list_lookup_middle. by rewrite length_insert. }
  { intros Hfl. simpl. by apply register_self. }
  exists st', [q]. split.
  { simpl. rewrite app_nil_r. fold step. fold row. rewrite Hstep. exact Hrun. }
  split; [simpl in Hlen; rewrite length_app, length_insert in Hlen; simpl in Hlen; lia|].
  split.
  { intros i Hi Hne. rewrite Hold by done. simpl.
    rewrite lookup_app_l by (rewrite length_insert; done).
    by rewrite list_lookup_insert_ne. }
  split.
  { rewrite Hold by done. simpl.
    rewrite lookup_app_l by (rewrite length_insert; lia).
    by rewrite list_lookup_insert_eq by lia. }
  split.
  { constructor; [|constructor]. split; [done|exact Hrepr]. }
  split; [|done].
  intros j Hj. rewrite Hkeys by lia. simpl. by apply register_below.
Qed.

(** A well-formed tree at level 0 whose root is taken for the return value:
    its root cell is renamed, becomes [Returns] and no old cell changes. *)
Lemma return_tree (ua : UserArgument) (cs : list RowTree) (st : BuildState) :
  well_formed 0 (RowNode ua cs) = true ->
  is_return_row st (set_DataLevel 0 ua) ->
  exists st',
    run st (rows_of 0 (RowNode ua cs)) = Ret st'
    /\ (length (heap st) < length (heap st'))%nat
    /\ (forall i, (i < length (heap st))%nat -> heap st' !! i = heap st !! i)
    /\ repr (heap st') (RowNode ua cs) "ret" (length (heap st))
    /\ lastArgs st' !! (-1) = lastArgs st !! (-1)
    /\ st_Returns st' = Some (length (heap st)).
Proof.
  intros Hwf Hret.
  destruct (well_formed_inv _ _ _ Hwf) as (Hlvl & Hsimple & H254 & Htable & Hwfcs).
  set (row := set_DataLevel 0 ua). set (q := length (heap st)).
  set (st1 := mkBuildState (heap st ++ [set_Name "ret" (new_arg row)])
                (register st row) (Some q)).
  assert (Hstep : step st row = Ret st1) by (by apply step_return).
  destruct (root_then_kids ua cs 0 st1 q (set_Name "ret" (new_arg row)))
    as (st' & Hrun & Hlen & Hold & Hrepr & Hkeys & Hret'); try done.
  { apply Forall_forall. intros c _. apply grafts_every_tree. }
  { simpl. rewrite length_app. simpl. lia. }
  { simpl. by apply list_lookup_middle. }
  { intros Hfl. simpl. by apply (register_self st ua 0). }
  exists st'. split.
  { simpl. fold step. fold row. rewrite Hstep. exact Hrun. }
  split; [simpl in Hlen; rewrite length_app in Hlen; simpl in Hlen; lia|].
  split.
  { intros i Hi. rewrite Hold by done. simpl. by rewrite lookup_app_l. }
  split; [exact Hrepr|]. split; [|by rewrite Hret'].
  change (-1) with (to_int8 (-1)). rewrite Hkeys by lia. simpl.
  by apply (register_below st ua 0 (-1)).
Qed.

Lemma adopt_all_record (es : list (string * nat)) (c : Argument) :
  Flavor c <> FLAVOR_TABLE -> adopt_all c es = set_RecordOf (RecordOf c ++ es) c.
Proof.
  revert c. induction es as [|[nm k] es IH]; intros c Hc.
  - simpl. rewrite app_nil_r. by destruct c.
  - rewrite adopt_all_cons, IH by (by rewrite adopt_Flavor).
    unfold adopt. rewrite decide_False by done. simpl. by rewrite <- app_assoc.
Qed.

Lemma adopt_all_app (c : Argument) (es1 es2 : list (string * nat)) :
  adopt_all c (es1 ++ es2) = adopt_all (adopt_all c es1) es2.
Proof. apply fold_left_app. Qed.

Lemma first_unnamed_split (ts : list RowTree) :
  (List.find is_unnamed ts = None
   /\ Forall (fun t => ArgumentName (root_row t) <> ""%string) ts
   /\ drop_first_unnamed ts = ts)
  \/ (exists pre t post,
        ts = pre ++ t :: post
        /\ Forall (fun t => ArgumentName (root_row t) <> ""%string) pre
        /\ ArgumentName (root_row t) = ""%string
        /\ List.find is_unnamed ts = Some t
        /\ drop_first_unnamed ts = pre ++ post).
Proof.
  induction ts as [|t ts IH]; [left; split; [done|split; [constructor|done]]|].
  simpl. destruct (is_unnamed t) eqn:Hn; unfold is_unnamed in Hn.
  - apply bool_decide_eq_true_1 in Hn.
    right. exists [], t, ts. split; [done|]. split; [constructor|]. done.
  - apply bool_decide_eq_false_1 in Hn.
    destruct IH as [(H1 & H2 & H3)|(pre & t0 & post & H1 & H2 & H3 & H4 & H5)].
    + left. rewrite H1, H3. split; [done|]. split; [by constructor|done].
    + right. exists (t :: pre), t0, post. rewrite H1 at 1. rewrite H4, H5.
      split; [done|]. split; [by constructor|]. done.
Qed.

(** The cells the fields of the root lead to, walked in order, give the
    flattening of the trees they represent. *)
Lemma walk_fields (h : list Argument) (fuel : nat) (lvl : Z) (cs : list RowTree) :
  forall ks,
    Forall2 (fun k c => repr h c (ArgumentName (root_row c)) k) ks cs ->
    Forall (fun c => (height c <= fuel)%nat) cs ->
    concat (map (walk fuel h lvl)
              (omap (fun na : string * nat => h !! snd na) (zip (names_of cs) ks)))
    = level_names (flat_map (rows_of lvl) cs).
Proof.
  induction cs as [|c cs IH]; intros ks Hks Hh.
  - by apply Forall2_nil_inv_r in Hks as ->.
  - apply Forall2_cons_inv_r in Hks as (k & ks' & Hk & Hrest & ->).
    apply Forall_cons in Hh as [Hc Hcs].
    pose proof Hk as Hk'. destruct c as [ua cs0].
    apply repr_unfold in Hk' as (cell & Hcell & _).
    assert (E : omap (fun na : string * nat => h !! snd na)
                  (zip (names_of (RowNode ua cs0 :: cs)) (k :: ks'))
                = cell :: omap (fun na : string * nat => h !! snd na)
                            (zip (names_of cs) ks')).
    { simpl. by rewrite Hcell. }
    rewrite E.
    change (flat_map (rows_of lvl) (RowNode ua cs0 :: cs))
      with (rows_of lvl (RowNode ua cs0) ++ flat_map (rows_of lvl) cs).
    rewrite level_names_app, level_names_rows_of.
    rewrite <- (IH ks' Hrest Hcs).
    rewrite <- (walk_repr _ h _ k cell fuel lvl Hk Hcell Hc). reflexivity.
Qed.

(** The whole batch: the trees at level 0 below the sentinel. *)
Lemma top_level (ts : list RowTree) (h0 : list Argument) :
  forallb (well_formed 0) ts = true ->
  exists st' ks,
    run (batch_init h0) (flat_map (rows_of 0) ts) = Ret st'
    /\ lastArgs st' !! (-1) = Some (length h0)
    /\ heap st' !! length h0
       = Some (set_RecordOf (zip (names_of (drop_first_unnamed ts)) ks) root_Argument)
    /\ Forall2 (fun k c => repr (heap st') c (ArgumentName (root_row c)) k) ks
         (drop_first_unnamed ts)
    /\ match List.find is_unnamed ts with
       | None => st_Returns st' = None
       | Some t => exists q, st_Returns st' = Some q /\ repr (heap st') t "ret" q
       end.
Proof.
  intros Hwf.
  assert (Hall : forall cs, Forall grafts_tree cs).
  { intros cs. apply Forall_forall. intros c _. apply grafts_every_tree. }
  assert (Hroot : heap (batch_init h0) !! length h0 = Some root_Argument).
  { by apply list_lookup_middle. }
  assert (Hla0 : lastArgs (batch_init h0) !! to_int8 (0 - 1) = Some (length h0)).
  { simpl. change (to_int8 (0 - 1)) with (-1). by rewrite lookup_singleton_eq. }
  destruct (first_unnamed_split ts)
    as [(Hfind & Hnamed & Hdrop)|(pre & t & post & -> & Hnamed & Hun & Hfind & Hdrop)].
  - rewrite Hfind, Hdrop.
    destruct (grafted_list ts (Hall ts) 0 (batch_init h0) (length h0) root_Argument Hwf)
      as (st' & ks & Hrun & Hlen & Hold & Hp & Hks & Hkeys & Hret); [| |done|].
    { eapply Forall_impl; [exact Hnamed|]. intros c Hc (_ & _ & H). done. }
    { intros _. exact Hla0. }
    exists st', ks. split; [done|]. split.
    { change (-1) with (to_int8 (-1)). rewrite Hkeys by lia. exact Hla0. }
    split; [by rewrite Hp, adopt_all_record|]. split; [|by rewrite Hret].
    eapply Forall2_impl; [exact Hks|]. by intros k c [_ Hc].
  - rewrite Hfind, Hdrop.
    rewrite forallb_app in Hwf. apply andb_prop in Hwf as [Hwf1 Hwf2].
    simpl in Hwf2. apply andb_prop in Hwf2 as [Hwft Hwf3].
    destruct (grafted_list pre (Hall pre) 0 (batch_init h0) (length h0) root_Argument Hwf1)
      as (st1 & ks1 & Hrun1 & Hlen1 & Hold1 & Hp1 & Hks1 & Hkeys1 & Hret1); [| |done|].
    { eapply Forall_impl; [exact Hnamed|]. intros c Hc (_ & _ & H). done. }
    { intros _. exact Hla0. }
    destruct t as [ua cs].
    destruct (return_tree ua cs st1 Hwft)
      as (st2 & Hrun2 & Hlen2 & Hold2 & Hrepr2 & Hkey2 & Hret2).
    { split; [done|]. split; [by rewrite Hret1|done]. }
    assert (Hr1 : (length h0 < length (heap (batch_init h0)))%nat).
    { simpl. rewrite length_app. simpl. lia. }
    assert (Hp2 : heap st2 !! length h0
                  = Some (adopt_all root_Argument (zip (names_of pre) ks1))).
    { rewrite Hold2 by lia. exact Hp1. }
    assert (Hla2 : lastArgs st2 !! to_int8 (0 - 1) = Some (length h0)).
    { change (to_int8 (0 - 1)) with (-1). rewrite Hkey2.
      change (-1) with (to_int8 (-1)). rewrite Hkeys1 by lia. exact Hla0. }
    assert (Hnr2 : Forall (fun c => ~ is_return_row st2 (set_DataLevel 0 (root_row c)))
                     post).
    { apply Forall_forall. intros c _ (_ & H & _). by rewrite Hret2 in H. }
    destruct (grafted_list post (Hall post) 0 st2 (length h0) _ Hwf3 Hnr2
                (fun _ => Hla2) Hp2)
      as (st3 & ks3 & Hrun3 & Hlen3 & Hold3 & Hp3 & Hks3 & Hkeys3 & Hret3).
    exists st3, (ks1 ++ ks3). split.
    { rewrite flat_map_app.
      change (flat_map (rows_of 0) (RowNode ua cs :: post))
        with (rows_of 0 (RowNode ua cs) ++ flat_map (rows_of 0) post).
      rewrite run_app, Hrun1, obind_Ret, run_app, Hrun2, obind_Ret. exact Hrun3. }
    split.
    { change (-1) with (to_int8 (-1)). rewrite Hkeys3 by lia. exact Hla2. }
    assert (Hl1 : length (names_of pre) = length ks1).
    { unfold names_of. rewrite length_map. by rewrite (Forall2_length _ _ _ Hks1). }
    split.
    { rewrite Hp3, <- adopt_all_app, adopt_all_record by done. simpl.
      unfold names_of. rewrite map_app. fold (names_of pre) (names_of post).
      by rewrite zip_with_app. }
    split.
    { apply Forall2_app.
      - eapply Forall2_impl; [exact Hks1|]. intros k c [Hk Hc].
        apply (repr_frame c (heap st2)).
        + apply (repr_frame c (heap st1)); [done|].
          intros i Hi Hlt. by apply Hold2.
        + intros i Hi Hlt. apply Hold3; [done|lia].
      - eapply Forall2_impl; [exact Hks3|]. by intros k c [_ Hc]. }
    exists (length (heap st1)). split; [by rewrite Hret3|].
    apply (repr_frame _ (heap st2)); [done|].
    intros i Hi Hlt. apply Hold3; [done|lia].
Qed.

Lemma drop_first_unnamed_In (ts : list RowTree) (c : RowTree) :
  In c (drop_first_unnamed ts) -> In c ts.
Proof.
  induction ts as [|t ts IH]; [done|]. simpl.
  destruct (is_unnamed t); [by right|]. intros [->|H]; [by left|right; by apply IH].
Qed.

(** C1, amended (round trip of the tree reconstruction).  A batch that is
    the pre-order flattening of a well-formed forest and is not skipped gives
    exactly one Function.  The first top-level row without a name, if there is
    one, is not among [Args]: its subtree hangs from [Returns], its root named
    "ret".  The other top-level trees are the [Args], in order, and walking
    them in pre-order gives their rows' levels and names back; so when no
    top-level row lacks a name the walk of [Args] is the level sequence and
    the names of the whole batch. *)
Theorem tree_round_trip (ts : list RowTree) (filter : option (string -> bool)) :
  forallb (well_formed 0) ts = true ->
  skip_batch filter (flat_map (rows_of 0) ts) = Ret false ->
  exists f h,
    ParseArguments flavorOf directionOf [flat_map (rows_of 0) ts] filter
    = Ret ([f], h)
    /\ (List.find is_unnamed ts = None -> drop_first_unnamed ts = ts)
    /\ forall fuel, (list_max (map height ts) <= fuel)%nat ->
         walk_all fuel h (Args f)
         = level_names (flat_map (rows_of 0) (drop_first_unnamed ts))
         /\ match List.find is_unnamed ts with
            | None => Returns f = None
            | Some t =>
                exists q c,
                  Returns f = Some q /\ h !! q = Some c
                  /\ walk fuel h 0 c
                     = (0, "ret"%string) :: tail (level_names (rows_of 0 t))
            end.
Proof.
  intros Hwf Hskip.
  destruct (top_level ts [] Hwf) as (st' & ks & Hrun & Hla & Hroot & Hks & Hret).
  simpl in Hla, Hroot.
  eexists _, (heap st'). split.
  { unfold ParseArguments, parse_batches. rewrite Hskip, obind_Ret.
    unfold build_function. rewrite Hrun, !obind_Ret. reflexivity. }
  split.
  { intros Hnone. destruct (first_unnamed_split ts) as [(_ & _ & H)|(? & ? & ? & _ & _ & _ & H & _)];
      [done|congruence]. }
  intros fuel Hfuel.
  assert (Hh : forall c, In c ts -> (height c <= fuel)%nat).
  { intros c Hc. pose proof (list_max_le_elem _ _ (in_map height _ _ Hc)). lia. }
  split.
  - simpl Args. unfold walk_all, collect_Args. rewrite Hla, Hroot. simpl RecordOf.
    apply walk_fields; [done|].
    apply Forall_forall. intros c Hc. apply Hh, drop_first_unnamed_In.
    by apply list_elem_of_In.
  - simpl Returns. destruct (List.find is_unnamed ts) as [t|] eqn:Hfind; [|done].
    destruct Hret as (q & Hq & Hrepr). pose proof Hrepr as Hrepr'.
    destruct t as [ua cs]. apply repr_unfold in Hrepr' as (c & Hc & _).
    exists q, c. split; [done|]. split; [done|].
    rewrite (walk_repr _ _ _ q c fuel 0 Hrepr Hc).
    + by rewrite level_names_rows_of.
    + apply Hh. by apply find_some in Hfind as [H _].
Qed.

(** *** The return value *)

Lemma kid_ptrs_adopt (parent : Argument) (q : nat) (nm : string) (k : nat) :
  In k (kid_ptrs (adopt parent q nm)) -> k = q \/ In k (kid_ptrs parent).
Proof.
  unfold adopt, kid_ptrs. destruct (decide _); simpl.
  - intros [->|H]; [by left|]. right. apply in_or_app. by right.
  - rewrite map_app. simpl. intros H. apply in_app_or in H as [H|H].
    + right. apply in_or_app. by left.
    + apply in_app_or in H as [H|H].
      * right. apply in_or_app. by right.
      * destruct H as [->|[]]. by left.
Qed.

Lemma adopt_Name (parent : Argument) (q : nat) (nm : string) :
  Name (adopt parent q nm) = Name parent.
Proof. unfold adopt. by destruct (decide _). Qed.

Lemma step_returns_apart (st st1 : BuildState) (ua : UserArgument) :
  composite_parents st -> returns_apart st -> step st ua = Ret st1 ->
  returns_apart st1
  /\ st_Returns st1 = if decide (is_return_row st ua)
                      then Some (length (heap st)) else st_Returns st.
Proof.
  intros Hcp [Hret Hkids] Hstep.
  destruct (step_shape st st1 ua Hstep) as (Hlen1 & _).
  destruct (decide (is_return_row st ua)) as [Hr|Hr].
  - rewrite step_return in Hstep by done.
    assert (Hh : heap st1 = heap st ++ [set_Name "ret" (new_arg ua)])
      by (by injection Hstep as <-).
    assert (Hrt : st_Returns st1 = Some (length (heap st)))
      by (by injection Hstep as <-).
    split; [|done]. split.
    + rewrite Hrt, Hh. intros r [= <-].
      eexists. split; [by apply list_lookup_middle|done].
    + intros j cell k Hj Hk. rewrite Hlen1, Hrt. rewrite Hh in Hj.
      apply lookup_app_Some in Hj as [Hj|[Hge Hj]].
      * destruct (Hkids j cell k Hj Hk) as [Hlt _]. split; [lia|].
        intros [= E]. lia.
      * apply list_lookup_singleton_Some in Hj as [_ <-]. destruct Hk.
  - destruct (register st ua !! to_int8 (to_int8 (DataLevel ua) - 1)) as [p|] eqn:Hp;
      [|by rewrite step_orphan in Hstep].
    assert (Hla : lastArgs st !! to_int8 (to_int8 (DataLevel ua) - 1) = Some p).
    { rewrite register_lookup in Hp. destruct (decide _) as [[_ Hk]|_]; [|done].
      rewrite to_int8_pred in Hk. by apply eq_sym, to_int8_pred_ne in Hk. }
    destruct (Hcp _ _ Hla) as (parent & Hparent & _).
    rewrite (step_attach st ua p parent) in Hstep by done.
    assert (Hh : heap st1
                 = <[p := adopt parent (length (heap st)) (ArgumentName ua)]> (heap st)
                     ++ [new_arg ua])
      by (by injection Hstep as <-).
    assert (Hrt : st_Returns st1 = st_Returns st) by (by injection Hstep as <-).
    split; [|done].
    assert (Hplt : (p < length (heap st))%nat) by (by eapply lookup_lt_Some).
    split.
    + rewrite Hrt, Hh. intros r Hr'. destruct (Hret r Hr') as (c & Hc & Hn).
      destruct (decide (r = p)) as [->|Hne].
      * exists (adopt parent (length (heap st)) (ArgumentName ua)). split.
        -- apply lookup_app_l_Some. by apply list_lookup_insert_eq.
        -- rewrite adopt_Name. congruence.
      * exists c. split; [|done]. apply lookup_app_l_Some.
        by rewrite list_lookup_insert_ne.
    + intros j cell k Hj Hk. rewrite Hlen1, Hrt. rewrite Hh in Hj.
      assert (Hfresh : st_Returns st <> Some (length (heap st))).
      { intros E. destruct (Hret _ E) as (c & Hc & _).
        apply lookup_lt_Some in Hc. lia. }
      apply lookup_app_Some in Hj as [Hj|[Hge Hj]].
      * destruct (decide (j = p)) as [->|Hne].
        -- rewrite list_lookup_insert_eq in Hj by done. injection Hj as <-.
           apply kid_ptrs_adopt in Hk as [->|Hk]; [split; [lia|done]|].
           destruct (Hkids p parent k Hparent Hk) as [Hlt Hnot]. split; [lia|done].
        -- rewrite list_lookup_insert_ne in Hj by done.
           destruct (Hkids j cell k Hj Hk) as [Hlt Hnot]. split; [lia|done].
      * apply list_lookup_singleton_Some in Hj as [_ <-]. destruct Hk.
Qed.

Lemma run_returns_apart (rows : list UserArgument) (st st' : BuildState) :
  composite_parents st -> returns_apart st -> run st rows = Ret st' ->
  returns_apart st'
  /\ st_Returns st'
     = match st_Returns st with
       | Some r => Some r
       | None => (fun i => (length (heap st) + i)%nat) <$> first_return rows
       end.
Proof.
  revert st. induction rows as [|ua rows IH]; intros st Hcp Hra Hrun.
  - injection Hrun as <-. split; [done|]. by destruct (st_Returns st).
  - simpl in Hrun. fold step in Hrun.
    destruct (step st ua) as [st1|e] eqn:Hstep; [|done]. simpl in Hrun.
    destruct (step_returns_apart st st1 ua Hcp Hra Hstep) as [Hra1 Hret1].
    destruct (step_shape st st1 ua Hstep) as (Hlen1 & _).
    destruct (IH st1 (step_composite_parents _ _ _ Hcp Hstep) Hra1 Hrun) as [Hra' Hret'].
    split; [done|]. rewrite Hret', Hret1.
    destruct (decide (is_return_row st ua)) as [(H1 & H2 & H3)|Hn].
    + rewrite H2. simpl. rewrite decide_True by done. simpl. f_equal. lia.
    + destruct (st_Returns st) as [r|] eqn:Er; [done|].
      simpl. rewrite decide_False by (intros [H1 H2]; by apply Hn).
      rewrite Hlen1. destruct (first_return rows); simpl; [f_equal; lia|done].
Qed.

(** The return-value rule, for every batch that the builder gets through:
    the first row with level 0 and no name, if there is one, is what
    [Returns] points to; its cell is named "ret" and no cell of the store
    holds its address, so it is attached to no parent and is not among the
    fields [Args] is copied from.  And [Args] is copied from the fields of the
    sentinel provided no row that is not SIMPLE has the level whose [int8]
    value is -1. *)
Lemma return_value_rule (h0 : list Argument) (rows : list UserArgument)
    (st' : BuildState) :
  (forall j cell k, h0 !! j = Some cell -> In k (kid_ptrs cell) ->
     (k < length h0)%nat) ->
  process_rows flavorOf directionOf (batch_init h0) rows = Ret st' ->
  match first_return rows with
  | None => st_Returns st' = None
  | Some i =>
      st_Returns st' = Some (S (length h0) + i)%nat
      /\ (exists c, heap st' !! (S (length h0) + i)%nat = Some c
            /\ Name c = "ret"%string)
      /\ (forall j cell, heap st' !! j = Some cell ->
            ~ In (S (length h0) + i)%nat (kid_ptrs cell))
  end
  /\ (Forall (fun ua => flavorOf (DataType ua) <> FLAVOR_SIMPLE ->
                        to_int8 (DataLevel ua) <> -1) rows ->
      exists root,
        heap st' !! length h0 = Some root
        /\ collect_Args st'
           = omap (fun na : string * nat => heap st' !! snd na) (RecordOf root)).
Proof.
  intros Hclosed Hrun.
  assert (Hl0 : length (heap (batch_init h0)) = S (length h0)).
  { simpl. rewrite length_app. simpl. lia. }
  assert (Hra0 : returns_apart (batch_init h0)).
  { split; [done|]. intros j cell k Hj Hk. rewrite Hl0. split; [|done].
    simpl in Hj. apply lookup_app_Some in Hj as [Hj|[_ Hj]].
    - specialize (Hclosed j cell k Hj Hk). lia.
    - apply list_lookup_singleton_Some in Hj as [_ <-]. destruct Hk. }
  pose proof (batch_init_composite_parents h0) as Hcp0.
  destruct (run_returns_apart rows _ _ Hcp0 Hra0 Hrun) as [[Hret Hkids] Hrt].
  destruct (run_shape rows _ _ Hcp0 Hrun) as (Hcp & _ & Hla).
  split.
  - rewrite Hl0 in Hrt. simpl in Hrt.
    destruct (first_return rows) as [i|]; simpl in Hrt; [|done].
    split; [done|]. split; [by apply Hret|].
    intros j cell Hj Hin. destruct (Hkids j cell _ Hj Hin) as [_ Hne]. done.
  - intros Hlevels.
    assert (Hroot : lastArgs st' !! (-1) = Some (length h0)).
    { rewrite Hla. simpl lastArgs. rewrite lookup_singleton_eq. rewrite Hl0.
      clear Hrun Hla Hrt. generalize (S (length h0)).
      induction Hlevels as [|ua rows Hua _ IH]; intros base; [done|].
      simpl. rewrite decide_False; [apply IH|]. intros [H1 H2]. by apply Hua. }
    destruct (Hcp _ _ Hroot) as (root & Hr & _).
    exists root. split; [done|]. unfold collect_Args. by rewrite Hroot, Hr.
Qed.

End TreeBuilderFacts.

(** *** The parent of a row, by levels *)

Section ParentFacts.

Variable flavorOf : string -> FlavorKind.
Variable directionOf : string -> Z -> Z.

Local Abbreviation most_recent := (Oracall.most_recent flavorOf).
Local Abbreviation latest_parent := (Oracall.latest_parent flavorOf).
Local Abbreviation levels_below_255 := (Oracall.levels_below_255 flavorOf).

Lemma to_int8_same_level (a k : Z) :
  0 <= a <= 255 -> -1 <= k <= 254 -> a <> 255 -> to_int8 a = to_int8 k -> a = k.
Proof. unfold to_int8. intros Ha Hk Hne. Z.div_mod_to_equations. lia. Qed.

(** Below level 255 the keys of [lastArgs] tell the levels apart. *)
Lemma most_recent_latest (k : Z) (rows : list UserArgument) :
  -1 <= k <= 254 -> levels_below_255 rows ->
  forall base init,
    most_recent (to_int8 k) base rows init = latest_parent k base rows init.
Proof.
  intros Hk. induction 1 as [|ua rows [Hl H255] _ IH]; intros base init; [done|].
  simpl. rewrite IH. f_equal.
  destruct (decide (flavorOf (DataType ua) <> FLAVOR_SIMPLE
                    /\ to_int8 (DataLevel ua) = to_int8 k)) as [[Hf He]|Hn].
  - rewrite decide_True; [done|]. split; [done|].
    by apply to_int8_same_level; [| |apply H255|].
  - rewrite decide_False; [done|]. intros [Hf He]. apply Hn. by rewrite He.
Qed.

(** Parent resolution and attachment when the levels are told apart.  The
    rows processed so far and the row at hand have a [DataLevel] in 0..255 and
    no row that is not SIMPLE is at level 255.  For a row that is not taken
    for the return value, the parent is the cell of the last earlier row that
    is not SIMPLE and has [DataLevel] one less, the synthetic root standing
    for level -1, with levels compared as numbers ([latest_parent]).  When
    there is none the body panics.  Otherwise the row's Argument is allocated
    at the end of the store with no element type and no fields, and the
    parent is the only earlier cell that changes: a TABLE gets the address of
    the new cell as its [TableOf], whatever that was, and keeps its fields;
    any other parent gets the new cell appended to its [RecordOf] under the
    row's name and keeps its [TableOf]. *)
Theorem parent_resolution_below_level_255 (h0 : list Argument)
    (rows : list UserArgument) (ua : UserArgument) (st : BuildState) :
  process_rows flavorOf directionOf (batch_init h0) rows = Ret st ->
  levels_below_255 (rows ++ [ua]) ->
  ~ (DataLevel ua = 0 /\ st_Returns st = None /\ ArgumentName ua = ""%string) ->
  let q := length (heap st) in
  match latest_parent (DataLevel ua - 1) (S (length h0)) rows
          (if decide (DataLevel ua = 0) then Some (length h0) else None) with
  | None =>
      exists level, process_row flavorOf directionOf st ua
                    = Panic (PanicParentIsNil level)
  | Some p =>
      exists parent st' parent' child,
        (p < q)%nat /\ heap st !! p = Some parent /\ Flavor parent <> FLAVOR_SIMPLE
        /\ process_row flavorOf directionOf st ua = Ret st'
        /\ length (heap st') = S q
        /\ heap st' !! p = Some parent' /\ heap st' !! q = Some child
        /\ (forall i, i <> p -> (i < q)%nat -> heap st' !! i = heap st !! i)
        /\ st_Returns st' = st_Returns st
        /\ Name child = ArgumentName ua /\ Flavor child = flavorOf (DataType ua)
        /\ TableOf child = None /\ RecordOf child = []
        /\ Name parent' = Name parent /\ Flavor parent' = Flavor parent
        /\ (Flavor parent = FLAVOR_TABLE ->
            TableOf parent' = Some q /\ RecordOf parent' = RecordOf parent)
        /\ (Flavor parent <> FLAVOR_TABLE ->
            TableOf parent' = TableOf parent
            /\ RecordOf parent' = RecordOf parent ++ [(ArgumentName ua, q)])
  end.
Proof.
  intros Hrun Hlv Hnr q.
  apply Forall_app in Hlv as [Hrows Hua].
  apply Forall_cons in Hua as [[Hl H255] _].
  assert (Hnret : ~ is_return_row st ua).
  { intros (H0 & Hr & Hn). apply Hnr. split; [|done]. by apply to_int8_zero. }
  pose proof (proj1 (lastArgs_parent flavorOf directionOf h0 rows ua st Hrun Hnret))
    as Hpr.
  cbv zeta in Hpr. rewrite to_int8_pred, most_recent_app in Hpr. simpl in Hpr.
  rewrite decide_False in Hpr by (intros [_ H]; by apply (to_int8_pred_ne (DataLevel ua))).
  rewrite (most_recent_latest (DataLevel ua - 1) rows) in Hpr by (done || lia).
  assert (Hinit : (if decide (to_int8 (DataLevel ua - 1) = -1)
                   then Some (length h0) else None)
                  = (if decide (DataLevel ua = 0) then Some (length h0) else @None nat)).
  { destruct (decide (DataLevel ua = 0)) as [H0|H0].
    - rewrite H0. by rewrite decide_True.
    - rewrite decide_False; [done|]. intros H. apply H0.
      change (-1) with (to_int8 (0 - 1)) in H.
      apply to_int8_inj in H; lia. }
  rewrite Hinit in Hpr.
  destruct (latest_parent _ _ rows _) as [p|]; [|by eexists].
  destruct Hpr as (parent & Hp & Hparent & Hfl & Hstep).
  exists parent. eexists. 
  exists (if decide (Flavor parent = FLAVOR_TABLE)
          then set_TableOf (Some q) parent
          else set_RecordOf (RecordOf parent ++ [(ArgumentName ua, q)]) parent),
         (arg_of_row flavorOf directionOf ua).
  split; [done|]. split; [done|]. split; [done|]. split; [exact Hstep|]. simpl.
  split; [by rewrite length_app, length_insert, Nat.add_1_r|].
  split.
  { rewrite lookup_app_l by (by rewrite length_insert).
    by apply list_lookup_insert_eq. }
  split.
  { rewrite lookup_app_r by (by rewrite length_insert).
    by rewrite length_insert, Nat.sub_diag. }
  split.
  { intros i Hi Hlt. rewrite lookup_app_l by (by rewrite length_insert).
    by apply list_lookup_insert_ne. }
  split; [done|]. split; [done|]. split; [done|]. split; [done|]. split; [done|].
  destruct (decide (Flavor parent = FLAVOR_TABLE)) as [Ht|Ht]; simpl.
  - split; [done|]. split; [done|]. split; [done|]. by intros H.
  - split; [done|]. split; [done|]. split; [by intros H|done].
Qed.

(** A TABLE row at level 0, a RECORD row at level 1 and two SIMPLE rows at
    level 2 make one Function without return value whose only argument is the
    TABLE; its [TableOf] is the cell of the RECORD, whose [RecordOf] holds the
    two SIMPLE rows under their names, in the order of the input, and nothing
    else. *)
Theorem table_of_record_scenario (t r s1 s2 : UserArgument) :
  DataLevel t = 0 -> DataLevel r = 1 -> DataLevel s1 = 2 -> DataLevel s2 = 2 ->
  flavorOf (DataType t) = FLAVOR_TABLE ->
  flavorOf (DataType r) = FLAVOR_RECORD ->
  flavorOf (DataType s1) = FLAVOR_SIMPLE ->
  flavorOf (DataType s2) = FLAVOR_SIMPLE ->
  ArgumentName t <> ""%string ->
  skip_batch None [t; r; s1; s2] = Ret false ->
  exists f h targ rarg a1 a2,
    ParseArguments flavorOf directionOf [[t; r; s1; s2]] None = Ret ([f], h)
    /\ length h = 5%nat
    /\ Returns f = None /\ Args f = [targ]
    /\ h !! 1%nat = Some targ /\ h !! 2%nat = Some rarg
    /\ h !! 3%nat = Some a1 /\ h !! 4%nat = Some a2
    /\ Name targ = ArgumentName t /\ Flavor targ = FLAVOR_TABLE
    /\ TableOf targ = Some 2%nat /\ RecordOf targ = []
    /\ Name rarg = ArgumentName r /\ Flavor rarg = FLAVOR_RECORD
    /\ TableOf rarg = None
    /\ RecordOf rarg = [(ArgumentName s1, 3%nat); (ArgumentName s2, 4%nat)]
    /\ Name a1 = ArgumentName s1 /\ Flavor a1 = FLAVOR_SIMPLE
    /\ TableOf a1 = None /\ RecordOf a1 = []
    /\ Name a2 = ArgumentName s2 /\ Flavor a2 = FLAVOR_SIMPLE
    /\ TableOf a2 = None /\ RecordOf a2 = [].
Proof.
  intros Lt Lr L1 L2 Ft Fr F1 F2 Hnm Hskip.
  assert (Hnr : ~ is_return_row (batch_init []) t) by (by intros (_ & _ & H)).
  destruct (proj2 (lastArgs_parent flavorOf directionOf [] [] t (batch_init [])
                     eq_refl Hnr) t r s1 s2 Lt Lr L1 L2 Ft Fr F1 F2 Hnm Hskip)
    as (f & Hparse & Hargs & Hret).
  exists f. eexists. eexists. eexists. eexists. eexists.
  split; [exact Hparse|]. split; [reflexivity|]. split; [exact Hret|].
  split; [exact Hargs|].
  split; [reflexivity|]. split; [reflexivity|]. split; [reflexivity|].
  split; [reflexivity|]. simpl.
  rewrite Ft, Fr, F1, F2. by split_and!.
Qed.

End ParentFacts.

(** *** Concrete batches *)

(** C1 as claimed fails on a batch with a return row: the batch is the
    flattening of a well-formed forest, its level sequence and names are
    (0, empty), (0, A); the walk of [Args] gives (0, A) alone, and the return
    value, walked from [Returns], is named ret. *)
Lemma return_row_breaks_round_trip :
  forallb (well_formed flavor_of_type 0) forest_with_return = true
  /\ flat_map (rows_of 0) forest_with_return
     = [row "" "NUMBER" 0; row "A" "NUMBER" 0]
  /\ level_names [row "" "NUMBER" 0; row "A" "NUMBER" 0]
     = [(0, ""%string); (0, "A"%string)]
  /\ match ParseArguments flavor_of_type direction_of
             [[row "" "NUMBER" 0; row "A" "NUMBER" 0]] None with
     | Ret ([f], h) =>
         walk_all 2 h (Args f) = [(0, "A"%string)]
         /\ Returns f = Some 1%nat
         /\ (walk 2 h 0 <$> h !! 1%nat) = Some [(0, "ret"%string)]
     | _ => False
     end.
Proof. repeat split. Qed.

Lemma tree_round_trip_witness :
  exists f h,
    ParseArguments flavor_of_type direction_of
      [flat_map (rows_of 0) forest_table_of_record] None = Ret ([f], h)
    /\ level_names (flat_map (rows_of 0) forest_table_of_record)
       = [(0, "T"); (1, ""); (2, "A"); (2, "B"); (0, "N")]%string
    /\ walk_all 3 h (Args f)
       = [(0, "T"); (1, ""); (2, "A"); (2, "B"); (0, "N")]%string.
Proof.
  destruct (tree_round_trip flavor_of_type direction_of forest_table_of_record None
              eq_refl eq_refl) as (f & h & Hparse & _ & Hwalk).
  exists f, h. split; [exact Hparse|]. split; [reflexivity|].
  exact (proj1 (Hwalk 3%nat ltac:(vm_compute; lia))).
Defined.

(** After a TABLE row at level 0, a RECORD row at level 1 has that TABLE,
    the cell 1, as its parent: the TABLE's element type becomes the cell 2,
    where the RECORD is allocated. *)
Lemma parent_resolution_below_level_255_witness :
  exists st st' parent' child,
    process_rows flavor_of_type direction_of (batch_init []) [row "T" "TABLE" 0] = Ret st
    /\ process_row flavor_of_type direction_of st (row "" "PL/SQL RECORD" 1) = Ret st'
    /\ heap st' !! 1%nat = Some parent' /\ heap st' !! 2%nat = Some child
    /\ Name parent' = "T"%string /\ Flavor parent' = FLAVOR_TABLE
    /\ TableOf parent' = Some 2%nat /\ RecordOf parent' = []
    /\ Flavor child = FLAVOR_RECORD /\ TableOf child = None /\ RecordOf child = [].
Proof.
  destruct (process_rows flavor_of_type direction_of (batch_init []) [row "T" "TABLE" 0])
    as [st|e] eqn:E; [|vm_compute in E; discriminate E].
  assert (Hlv : levels_below_255 flavor_of_type
                  ([row "T" "TABLE" 0] ++ [row "" "PL/SQL RECORD" 1])).
  { repeat constructor; simpl; try lia; discriminate. }
  assert (Hnr : ~ (DataLevel (row "" "PL/SQL RECORD" 1) = 0 /\ st_Returns st = None
                   /\ ArgumentName (row "" "PL/SQL RECORD" 1) = ""%string)).
  { intros (H & _). discriminate H. }
  pose proof (parent_resolution_below_level_255 flavor_of_type direction_of []
                [row "T" "TABLE" 0] (row "" "PL/SQL RECORD" 1) st E Hlv Hnr) as H.
  vm_compute in E. injection E as <-.
  destruct H as (parent & st' & parent' & child & _ & Hp & _ & Hstep & _ & Hp' & Hc
                 & _ & _ & _ & Hcf & Hct & Hcr & Hn & Hf & Ht & _).
  assert (Hparent : parent = set_RecordOf [] (arg_of_row flavor_of_type direction_of
                                                (row "T" "TABLE" 0))).
  { vm_compute in Hp. by injection Hp as <-. }
  rewrite Hparent in Hn, Hf, Ht. destruct (Ht eq_refl) as [Ht1 Ht2].
  eexists. exists st', parent', child.
  split; [reflexivity|]. split; [exact Hstep|]. split; [exact Hp'|].
  split; [exact Hc|]. split; [exact Hn|]. split; [exact Hf|]. split; [exact Ht1|].
  split; [exact Ht2|]. split; [exact Hcf|]. split; [exact Hct|exact Hcr].
Defined.

(** The TABLE T of RECORDs with the fields A and B. *)
Lemma table_of_record_scenario_witness :
  exists f h targ rarg,
    ParseArguments flavor_of_type direction_of
      [[row "T" "TABLE" 0; row "" "PL/SQL RECORD" 1; row "A" "NUMBER" 2;
        row "B" "VARCHAR2" 2]] None = Ret ([f], h)
    /\ Args f = [targ] /\ h !! 2%nat = Some rarg
    /\ Name targ = "T"%string /\ TableOf targ = Some 2%nat
    /\ RecordOf rarg = [("A"%string, 3%nat); ("B"%string, 4%nat)].
Proof.
  destruct (table_of_record_scenario flavor_of_type direction_of
              (row "T" "TABLE" 0) (row "" "PL/SQL RECORD" 1) (row "A" "NUMBER" 2)
              (row "B" "VARCHAR2" 2) eq_refl eq_refl eq_refl eq_refl eq_refl eq_refl
              eq_refl eq_refl ltac:(discriminate) eq_refl)
    as (f & h & targ & rarg & a1 & a2 & Hparse & _ & _ & Hargs & _ & Hr & _ & _
        & Hn & _ & Ht & _ & _ & _ & _ & Hrec & _).
  exists f, h, targ, rarg.
  split; [exact Hparse|]. split; [exact Hargs|]. split; [exact Hr|].
  split; [exact Hn|]. split; [exact Ht|exact Hrec].
Defined.

(** C2 (the parent of a row is the most recent Argument that is not SIMPLE
    at the level above) fails for a row at level 0 that follows a row at level
    255.  The batch is that of C3 below, rows at levels 0..255, each a RECORD
    named A, with one more row at the end: the NUMBER B at level 0.  Its
    parent is to be the synthetic root, the cell 0, which stands for level -1
    and is what [latest_parent] finds.  [int8(255)] is -1, so the RECORD at
    level 255, the cell 256, took the place of the root in [lastArgs]: B, the
    cell 257, is appended to the fields of that RECORD, 255 levels down, and
    the root keeps the one field it had.  With one row less (levels 0..254) B
    joins the fields of the root. *)
Theorem level_255_row_adopts_a_level_0_row :
  (DataLevel <$> deep_batch 256 !! 255%nat) = Some 255
  /\ latest_parent flavor_of_type (0 - 1) 1 (deep_batch 256) (Some 0%nat) = Some 0%nat
  /\ match ParseArguments flavor_of_type direction_of
             [deep_batch 256 ++ [row "B" "NUMBER" 0]] None with
     | Ret ([f], h) =>
         length h = 258%nat
         /\ (RecordOf <$> h !! 0%nat) = Some [("A"%string, 1%nat)]
         /\ (Flavor <$> h !! 256%nat) = Some FLAVOR_RECORD
         /\ (RecordOf <$> h !! 256%nat) = Some [("B"%string, 257%nat)]
         /\ (Name <$> h !! 257%nat) = Some "B"%string
         /\ (Name <$> Args f) = ["B"%string]
     | _ => False
     end
  /\ match ParseArguments flavor_of_type direction_of
             [deep_batch 255 ++ [row "B" "NUMBER" 0]] None with
     | Ret ([f], h) =>
         length h = 257%nat
         /\ (RecordOf <$> h !! 0%nat) = Some [("A"%string, 1%nat); ("B"%string, 256%nat)]
         /\ (RecordOf <$> h !! 255%nat) = Some []
         /\ (Name <$> h !! 256%nat) = Some "B"%string
         /\ (Name <$> Args f) = ["A"%string; "B"%string]
     | _ => False
     end.
Proof. split; [reflexivity|]. split; [reflexivity|]. split; vm_compute; repeat split. Qed.

(** C3 (the Args are the fields of the synthetic root) fails for a batch
    that reaches level 255.  [int8(255)] is -1, the key of the sentinel, so
    the RECORD row at level 255 replaces the sentinel in [lastArgs], and
    [Args] is read from that row, which has no fields, although the row at
    level 0 was attached to the sentinel (the cell 0 of the store).  One level
    less and [Args] holds the row at level 0. *)
Theorem level_255_row_replaces_the_root :
  length (deep_batch 256) = 256%nat
  /\ match ParseArguments flavor_of_type direction_of [deep_batch 256] None with
     | Ret ([f], h) =>
         Args f = []
         /\ (RecordOf <$> h !! 0%nat) = Some [("A"%string, 1%nat)]
         /\ Returns f = None
     | _ => False
     end
  /\ match ParseArguments flavor_of_type direction_of [deep_batch 255] None with
     | Ret ([f], h) =>
         (Name <$> Args f) = ["A"%string]
         /\ (RecordOf <$> h !! 0%nat) = Some [("A"%string, 1%nat)]
     | _ => False
     end.
Proof. split; [reflexivity|]. split; vm_compute; repeat split. Qed.

(** The batch of a function returning a NUMBER: the first row is what
    [Returns] points to, and no cell holds its address. *)
Lemma return_value_rule_witness :
  match process_rows flavor_of_type direction_of (batch_init [])
          [row "" "NUMBER" 0; row "A" "NUMBER" 0] with
  | Ret st' =>
      st_Returns st' = Some 1%nat
      /\ (Name <$> heap st' !! 1%nat) = Some "ret"%string
      /\ (forall j cell, heap st' !! j = Some cell -> ~ In 1%nat (kid_ptrs cell))
      /\ (Name <$> collect_Args st') = ["A"%string]
  | Panic _ => False
  end.
Proof.
  destruct (process_rows flavor_of_type direction_of (batch_init [])
              [row "" "NUMBER" 0; row "A" "NUMBER" 0]) as [st'|e] eqn:E;
    [|vm_compute in E; discriminate E].
  destruct (return_value_rule flavor_of_type direction_of []
              [row "" "NUMBER" 0; row "A" "NUMBER" 0] st'
              ltac:(intros j cell k Hj; destruct j; discriminate Hj) E)
    as [(H1 & _ & H3) _].
  vm_compute in E. injection E as <-.
  split; [exact H1|]. split; [reflexivity|]. split; [exact H3|reflexivity].
Defined.

(** ** Decimal texts *)

Lemma digit_of_char (d : N) :
  (d < 10)%N ->
  Strconv.is_digit (pretty_N_char d) = true
  /\ Strconv.digit_val (pretty_N_char d) = Z.of_N d.
Proof.
  intros Hd.
  assert (d = 0 \/ d = 1 \/ d = 2 \/ d = 3 \/ d = 4 \/ d = 5 \/ d = 6 \/ d = 7
          \/ d = 8 \/ d = 9)%N as H by lia.
  repeat (destruct H as [->|H]; [done|]). by subst.
Qed.

Lemma is_digit_no_sign (c : ascii) :
  Strconv.is_digit c = true -> c <> "-"%char /\ c <> "+"%char.
Proof. intros H. split; by intros ->. Qed.

(** The digit loop reads back what [pretty] has written in front of [s]. *)
Lemma parse_digits_go (x : N) :
  forall s, (0 < x)%N -> Z.of_N x <= Strconv.maxUint64 ->
  Strconv.parse_digits 0 (pretty_N_go x s) = Strconv.parse_digits (Z.of_N x) s
  /\ exists c rest, pretty_N_go x s = String c rest /\ Strconv.is_digit c = true.
Proof.
  induction (N.lt_wf_0 x) as [x _ IH]. intros s Hpos Hmax.
  rewrite pretty_N_go_step by done.
  destruct (digit_of_char (x `mod` 10)%N) as [Hd Hv]; [by apply N.mod_lt|].
  assert (Hstep : Strconv.parse_digits (Z.of_N (x `div` 10))
                    (String (pretty_N_char (x `mod` 10)) s)
                  = Strconv.parse_digits (Z.of_N x) s).
  { cbn [Strconv.parse_digits]. rewrite Hd, Hv.
    assert (Hx : Z.of_N (x `div` 10) * 10 + Z.of_N (x `mod` 10) = Z.of_N x).
    { pose proof (N.div_mod x 10 ltac:(done)) as E.
      apply (f_equal Z.of_N) in E. rewrite N2Z.inj_add, N2Z.inj_mul in E. lia. }
    rewrite Hx.
    assert (Hq : Z.of_N (x `div` 10) < 1844674407370955162).
    { rewrite N2Z.inj_div. change (Z.of_N 10) with 10.
      apply Z.div_lt_upper_bound; [done|].
      change Strconv.maxUint64 with 18446744073709551615 in Hmax. lia. }
    change (Strconv.maxUint64 / 10 + 1) with 1844674407370955162.
    rewrite (proj2 (Z.leb_gt _ _)) by lia.
    by rewrite (proj2 (Z.ltb_ge _ _) Hmax). }
  destruct (decide (x `div` 10 = 0)%N) as [Hz|Hnz].
  - rewrite Hz, pretty_N_go_0. rewrite Hz in Hstep. split; [done|]. by eauto.
  - destruct (IH (x `div` 10)%N) with (s := String (pretty_N_char (x `mod` 10)) s)
      as [Hp Hc].
    + by apply N.div_lt.
    + by apply N.neq_0_lt_0.
    + assert (Z.of_N (x `div` 10) <= Z.of_N x); [|lia].
      apply N2Z.inj_le. apply N.Div0.div_le_upper_bound. lia.
    + split; [by rewrite Hp|done].
Qed.

Lemma Atoi_pretty_pos (p : positive) :
  Z.pos p < 2 ^ 63 -> Strconv.Atoi (pretty (Z.pos p)) = inr (Z.pos p).
Proof.
  intros Hp. unfold pretty, pretty_Z, pretty, pretty_positive, pretty, pretty_N.
  rewrite decide_False by done.
  destruct (parse_digits_go (N.pos p) ""%string) as (Hd & c & rest & Hs & Hc);
    [done
    |change (Z.of_N (N.pos p)) with (Z.pos p);
     change Strconv.maxUint64 with 18446744073709551615; lia|].
  unfold Strconv.Atoi. rewrite Hs in *.
  destruct (is_digit_no_sign c Hc) as [Hm Hpl].
  rewrite (bool_decide_eq_false_2 _ Hm), (bool_decide_eq_false_2 _ Hpl). simpl orb.
  cbv iota beta. rewrite Hd. simpl.
  by rewrite (proj2 (Z.leb_gt _ _)) by lia.
Qed.

Lemma Atoi_pretty (z : Z) :
  - 2 ^ 63 < z < 2 ^ 63 -> Strconv.Atoi (pretty z) = inr z.
Proof.
  intros Hz. destruct z as [|p|p]; [done|apply Atoi_pretty_pos; lia|].
  unfold pretty, pretty_Z, pretty, pretty_positive, pretty, pretty_N.
  rewrite decide_False by done.
  destruct (parse_digits_go (N.pos p) ""%string) as (Hd & c & rest & Hs & Hc);
    [done
    |change (Z.of_N (N.pos p)) with (Z.pos p);
     change Strconv.maxUint64 with 18446744073709551615; lia|].
  change ("-" +:+ pretty_N_go (N.pos p) "")
    with (String "-"%char (pretty_N_go (N.pos p) "")).
  unfold Strconv.Atoi. rewrite (bool_decide_eq_true_2 ("-"%char = "-"%char)) by done.
  simpl orb. cbv iota beta. rewrite Hs in *. rewrite Hd. simpl.
  by rewrite (proj2 (Z.ltb_ge _ _)) by lia.
Qed.

Lemma pretty_not_blank (z : Z) : - 2 ^ 63 < z < 2 ^ 63 -> pretty z <> ""%string.
Proof. intros Hz E. apply Atoi_pretty in Hz. by rewrite E in Hz. Qed.

(** Numbers written in decimal are read back: for every number a Go [int]
    holds (the least one apart), [mustBeUint] returns it when it is in
    [0, 2^32] and [mustBeUint8] when it is in [0, 255]; for a number
    outside, both panic with that number. *)
Theorem decimal_texts_are_read_back (z : Z) :
  - 2 ^ 63 < z < 2 ^ 63 ->
  mustBeUint (pretty z)
    = (if (z <? 0) || (2 ^ 32 <? z) then Panic (PanicOutOfRange z) else Ret z)
  /\ mustBeUint8 (pretty z)
     = (if (z <? 0) || (255 <? z) then Panic (PanicOutOfRange z) else Ret z).
Proof.
  intros Hz. unfold mustBeUint, mustBeUint8.
  rewrite (bool_decide_eq_false_2 _ (pretty_not_blank z Hz)).
  by rewrite (Atoi_pretty z Hz).
Qed.

(** ** The head and the rows of the CSV *)

Lemma obind_inv {E A B : Type} (c : outcome E A) (k : A -> outcome E B) (b : B) :
  obind c k = Ret b -> exists a, c = Ret a /\ k a = Ret b.
Proof. destruct c as [a|e]; [|done]. intros H. by exists a. Qed.

Lemma csvFields_init_lookup (h : string) :
  csvFields_init !! h = if decide (h ∈ csvHeaders) then Some (-1) else None.
Proof.
  unfold csvFields_init.
  assert (G : forall (l : list string) (m : gmap string Z),
            fold_left (fun m h => <[h := -1]> m) l m !! h
            = if decide (h ∈ l) then Some (-1) else m !! h).
  { induction l as [|a l IH]; intros m; cbn [fold_left].
    - rewrite decide_False; [done|]. by intros ?%elem_of_nil.
    - rewrite IH. destruct (decide (h ∈ l)) as [Hl|Hl].
      + rewrite decide_True; [done|by right].
      + destruct (decide (h = a)) as [->|Hne].
        * rewrite lookup_insert_eq, decide_True; [done|by left].
        * rewrite lookup_insert_ne by done.
          rewrite decide_False; [done|]. by intros [?|?]%elem_of_cons. }
  rewrite G. by destruct (decide _).
Qed.

Section ReadCsvMore.

Variable CsvError : Type.
Variable csv_records : ascii -> string -> list (list string) * option CsvError.
Variable ToUpper : string -> string.

Lemma resolve_header_from (head : list string) (k : nat) (m : gmap string Z)
    (h : string) :
  fold_left
    (fun m ih =>
       let h := ToUpper (snd ih) in
       match m !! h with
       | Some j => if j <? 0 then <[h := Z.of_nat (fst ih)]> m else m
       | None => m
       end)
    (imap (fun i c => ((k + i)%nat, c)) head) m !! h
  = match m !! h with
    | Some j =>
        if j <? 0
        then Some (match list_find (fun c => ToUpper c = h) head with
                   | Some (i, _) => Z.of_nat (k + i)
                   | None => j
                   end)
        else Some j
    | None => None
    end.
Proof.
  revert k m. induction head as [|c head IH]; intros k m; simpl.
  - destruct (m !! h) as [j|]; [|done]. by destruct (j <? 0).
  - rewrite (imap_ext _ (fun i c => ((S k + i)%nat, c))) by (intros; simpl; f_equal; lia).
    rewrite IH. rewrite Nat.add_0_r.
    destruct (decide (ToUpper c = h)) as [Heq|Hne].
    + rewrite Heq. destruct (m !! h) as [j|] eqn:Hj.
      * destruct (j <? 0) eqn:Hneg.
        -- rewrite lookup_insert_eq.
           assert ((Z.of_nat k <? 0) = false) as -> by (apply Z.ltb_ge; lia).
           by rewrite ?Nat.add_0_r.
        -- by rewrite Hj, Hneg.
      * by rewrite Hj.
    + assert (Hm : (match m !! ToUpper c with
                    | Some j => if j <? 0 then <[ToUpper c := Z.of_nat k]> m else m
                    | None => m
                    end) !! h = m !! h).
      { destruct (m !! ToUpper c) as [j|]; [|done].
        destruct (j <? 0); [|done]. by rewrite lookup_insert_ne. }
      rewrite Hm. destruct (m !! h) as [j|]; [|done].
      destruct (j <? 0); [|done]. f_equal.
      destruct (list_find _ head) as [[i x]|]; simpl; [|done]. f_equal. lia.
Qed.

Lemma resolve_header_lookup (head : list string) (h : string) :
  resolve_header ToUpper head !! h
  = if decide (h ∈ csvHeaders) then Some (first_column ToUpper h head) else None.
Proof.
  unfold resolve_header.
  pose proof (resolve_header_from head 0 csvFields_init h) as H.
  cbn [Nat.add] in H. rewrite H, csvFields_init_lookup.
  destruct (decide _); [|done]. simpl. unfold first_column.
  by destruct (list_find _ head) as [[i x]|].
Qed.

(** The header loop: each of the eighteen wanted names is mapped to the
    index of the first column whose upper-cased head is that name, and to -1
    when no column carries it; no other name enters the map.  So the field a
    row takes for a wanted name is what its record holds in that column,
    wherever the column stands and whatever columns stand beside it, and
    taking it panics when the column is missing from the head or from the
    record. *)
Theorem header_resolution (head : list string) (h : string) :
  resolve_header ToUpper head !! h
    = (if decide (h ∈ csvHeaders) then Some (first_column ToUpper h head) else None)
  /\ (h ∈ csvHeaders -> forall rec,
      column rec (resolve_header ToUpper head) h
      = match list_find (fun c => ToUpper c = h) head with
        | Some (i, _) =>
            match rec !! i with
            | Some v => Ret v
            | None => Panic PanicIndexOutOfRange
            end
        | None => Panic PanicIndexOutOfRange
        end).
Proof.
  split; [apply resolve_header_lookup|].
  intros Hh rec. unfold column.
  rewrite resolve_header_lookup, decide_True by done. simpl. unfold first_column.
  destruct (list_find _ head) as [[i x]|]; [|done].
  rewrite (proj2 (Z.ltb_ge _ _)) by lia. by rewrite Nat2Z.id.
Qed.

Lemma row_of_record_columns (rec : list string) (f : gmap string Z)
    (ua : UserArgument) (h : string) :
  row_of_record rec f = Ret ua -> h ∈ csvHeaders ->
  exists v, column rec f h = Ret v.
Proof.
  unfold row_of_record. intros H Hh.
  repeat match type of H with
         | obind _ _ = Ret _ =>
             let v := fresh "v" in let Hc := fresh "Hc" in
             apply obind_inv in H as (v & Hc & H);
             try (apply obind_inv in Hc as (? & Hc & _))
         end.
  unfold csvHeaders in Hh.
  repeat match type of Hh with
         | _ ∈ _ :: _ => apply elem_of_cons in Hh as [->|Hh]; [by eexists|]
         end.
  by apply elem_of_nil in Hh.
Qed.

Lemma row_of_record_in_range (rec : list string) (f : gmap string Z)
    (ua : UserArgument) :
  row_of_record rec f = Ret ua -> row_in_range ua.
Proof.
  unfold row_of_record. intros H.
  repeat match type of H with
         | obind _ _ = Ret _ =>
             let v := fresh "v" in let Hc := fresh "Hc" in
             apply obind_inv in H as (v & Hc & H);
             try (apply obind_inv in Hc as (? & _ & Hc))
         end.
  injection H as <-. unfold row_in_range. simpl.
  repeat match goal with
         | H : mustBeUint _ = Ret _ |- _ => apply mustBeUint_range in H
         | H : mustBeUint8 _ = Ret _ |- _ => apply mustBeUint8_range in H
         end.
  lia.
Qed.

Lemma read_records_in_range (nfields : nat) (f : gmap string Z)
    (recs : list (list string)) (tail_err : option CsvError)
    (sent : list UserArgument) :
  Forall row_in_range sent ->
  Forall row_in_range (fst (read_records CsvError nfields f recs tail_err sent)).
Proof.
  revert sent. induction recs as [|rec recs IH]; intros sent Hs; simpl; [done|].
  destruct (decide _); [|done].
  destruct (row_of_record rec f) as [arg|e'] eqn:Hr; [|done].
  apply IH, Forall_app. split; [done|]. constructor; [|done].
  by eapply row_of_record_in_range.
Qed.

(** Every row [ReadCsv] sends has its byte-like fields in [0, 255], its
    count-like fields in [0, 2^32], and the zero time as [LastDDL], however
    the reading ends. *)
Theorem ReadCsv_rows_in_range (r : string) :
  Forall row_in_range (fst (ReadCsv CsvError csv_records ToUpper r)).
Proof.
  unfold ReadCsv. destruct (Peek 100 r) as [e|b]; [done|].
  destruct (csv_records _ r) as [[|head recs] [e|]]; try done;
    by apply read_records_in_range.
Qed.

Lemma column_unset (rec : list string) (f : gmap string Z) (h : string) :
  f !! h = Some (-1) -> column rec f h = Panic PanicIndexOutOfRange.
Proof. intros H. unfold column. by rewrite H. Qed.

(** A head that lacks one of the eighteen wanted columns: [ReadCsv] sends
    no row at all.  It returns without an error when no record follows the
    head (or with the reader's error); otherwise the first record makes it
    panic, unless that record has not as many fields as the head, which is
    the reader's field-count error. *)
Theorem ReadCsv_missing_column (r : string) (head : list string)
    (recs : list (list string)) (tail_err : option CsvError) (h : string) :
  (100 <= String.length r)%nat ->
  csv_records (if IndexByte (substring 0 100 r) ";" then ";"%char else ","%char) r
    = (head :: recs, tail_err) ->
  h ∈ csvHeaders ->
  (forall c, c ∈ head -> ToUpper c <> h) ->
  fst (ReadCsv CsvError csv_records ToUpper r) = []
  /\ match recs with
     | [] => snd (ReadCsv CsvError csv_records ToUpper r)
             = Ret (option_map ErrRecord tail_err)
     | rec :: _ =>
         if decide (length rec = length head)
         then exists e, snd (ReadCsv CsvError csv_records ToUpper r) = Panic e
         else snd (ReadCsv CsvError csv_records ToUpper r) = Ret (Some ErrFieldCount)
     end.
Proof.
  intros Hlen Hrec Hh Hno. unfold ReadCsv, Peek.
  rewrite decide_True by done. rewrite Hrec.
  destruct recs as [|rec recs]; simpl; [done|].
  destruct (decide _); [|done].
  assert (Hf : resolve_header ToUpper head !! h = Some (-1)).
  { rewrite resolve_header_lookup, decide_True by done. unfold first_column.
    destruct (list_find _ head) as [[i x]|] eqn:Hfind; [|done].
    apply list_find_Some in Hfind as (Hx & Hp & _).
    destruct (Hno x); [by eapply list_elem_of_lookup_2|done]. }
  destruct (row_of_record rec _) as [arg|pe] eqn:Hr.
  - destruct (row_of_record_columns _ _ _ h Hr Hh) as [v Hv].
    by rewrite (column_unset _ _ _ Hf) in Hv.
  - split; [done|by exists pe].
Qed.

End ReadCsvMore.

(** ** The pipeline of ParseCsv *)

Section FilterAndGroupFacts.

Variable filter : option (string -> bool).

Let kept (ua : UserArgument) : bool := negb (filtered_out filter ua).
Let joined (x y : UserArgument) : Prop :=
  program_of x = zeroProg \/ program_of x = program_of y.
Let parted (b1 b2 : list UserArgument) : Prop :=
  forall x y, last b1 = Some x -> head b2 = Some y -> ~ joined x y.

Lemma group_rows_sent (rows : list UserArgument) (lastProg : program)
    (args : list UserArgument) (sent : list (list UserArgument)) :
  group_rows filter rows lastProg args sent
  = sent ++ group_rows filter rows lastProg args [].
Proof.
  revert lastProg args sent.
  induction rows as [|ua rows IH]; intros lastProg args sent; simpl.
  - destruct (decide _); [done|]. by rewrite app_nil_r.
  - destruct (filtered_out filter ua); [apply IH|].
    destruct (decide (_ /\ _)); [|apply IH].
    destruct (decide _); [|apply IH].
    rewrite IH, (IH _ _ ([] ++ [args])). by rewrite <- app_assoc.
Qed.

Lemma Sorted_snoc {A} (R : A -> A -> Prop) (l : list A) (y : A) :
  Sorted R l -> (forall x, last l = Some x -> R x y) -> Sorted R (l ++ [y]).
Proof.
  induction l as [|a l IH]; intros Hs Hl; simpl.
  - repeat constructor.
  - inversion Hs as [|? ? Hs' Hd]; subst. constructor.
    + apply IH; [done|]. intros x Hx. apply Hl.
      destruct l; [done|]. done.
    + destruct l as [|b l]; simpl.
      * constructor. by apply Hl.
      * inversion Hd; subst. by constructor.
Qed.

Lemma Sorted_lookup {A} (R : A -> A -> Prop) (l : list A) (i : nat) (x y : A) :
  Sorted R l -> l !! i = Some x -> l !! S i = Some y -> R x y.
Proof.
  intros Hs. revert i. induction Hs as [|a l Hs IH Hd]; intros i; [done|].
  destruct i as [|i]; simpl.
  - intros [= ->]. destruct l as [|b l]; [done|]. simpl. intros [= ->].
    by inversion Hd.
  - apply IH.
Qed.

(** What the loop sends from a state in which [lastProg] is the program of
    the last row of [args]. *)
Lemma group_rows_spec (rows : list UserArgument) (lastProg : program)
    (args : list UserArgument) :
  (args = [] -> lastProg = zeroProg) ->
  (forall x, last args = Some x -> lastProg = program_of x) ->
  Sorted joined args ->
  let bs := group_rows filter rows lastProg args [] in
  concat bs = args ++ List.filter kept rows
  /\ Forall (fun b => b <> []) bs
  /\ (args <> [] -> exists t bs', bs = (args ++ t) :: bs')
  /\ Forall (Sorted joined) bs
  /\ Sorted parted bs.
Proof.
  revert lastProg args.
  induction rows as [|ua rows IH]; intros lastProg args Hnil Hlast Hs; simpl.
  - destruct (decide _) as [Hl|Hl].
    + assert (args <> []) by (by destruct args).
      simpl. rewrite !app_nil_r. split_and!.
      * done.
      * by constructor.
      * intros _. exists [], []. by rewrite app_nil_r.
      * by constructor.
      * repeat constructor.
    + assert (args = []) as -> by (destruct args; [done|simpl in Hl; lia]).
      repeat split; try constructor; try done.
  - unfold kept at 1. destruct (filtered_out filter ua) eqn:Hf; simpl.
    { by apply IH. }
    assert (Hsn : forall l, last (l ++ [ua]) = Some ua).
    { intros l. by rewrite last_snoc. }
    destruct (decide (_ /\ _)) as [[Hz Hne]|Hno].
    + assert (Hargs : args <> []) by (intros H; by apply Hz, Hnil).
      destruct (decide _) as [_|Hl]; [|destruct args; [done|by destruct Hl]].
      rewrite group_rows_sent.
      destruct (IH (program_of ua) [ua]) as (Hc & Hne' & Hpre & Hw & Ha);
        [done|by intros x [= <-]|repeat constructor|].
      destruct Hpre as (t & bs' & Hbs); [done|].
      simpl. rewrite Hc. split_and!.
      * done.
      * by constructor.
      * intros _. exists [], (group_rows filter rows (program_of ua) [ua] []).
        by rewrite app_nil_r.
      * by constructor.
      * constructor; [done|]. rewrite Hbs. constructor.
        intros x y Hx Hy. simpl in Hy. injection Hy as <-.
        unfold joined. rewrite <- (Hlast x Hx). by intros [?|?].
    + assert (Hj : forall x, last args = Some x -> joined x ua).
      { intros x Hx. rewrite (Hlast x Hx) in Hno.
        destruct (decide (program_of x = zeroProg)) as [|H1]; [by left|].
        destruct (decide (program_of x = program_of ua)) as [|H2]; [by right|].
        by destruct Hno. }
      destruct (IH (program_of ua) (args ++ [ua])) as (Hc & Hne' & Hpre & Hw & Ha).
      * intros H. by destruct args.
      * intros x. rewrite Hsn. by intros [= <-].
      * by apply Sorted_snoc.
      * rewrite Hc, <- app_assoc. split_and!; try done.
        intros _. destruct Hpre as (t & bs' & Hbs); [by destruct args|].
        exists (ua :: t), bs'. by rewrite Hbs, <- app_assoc.
Qed.

(** [FilterAndGroup] loses and invents nothing: the batches it sends, one
    after the other, are the rows the filter lets pass, in the order they
    came; and it never sends an empty batch. *)
Theorem FilterAndGroup_partition (rows : list UserArgument) :
  concat (FilterAndGroup filter rows)
  = List.filter (fun ua => negb (filtered_out filter ua)) rows
  /\ Forall (fun b => b <> []) (FilterAndGroup filter rows).
Proof.
  destruct (group_rows_spec rows zeroProg []) as (Hc & Hne & _);
    [done|done|constructor|done].
Qed.

(** Where [FilterAndGroup] cuts: two rows that follow each other in one
    batch are of the same program (object id, subprogram id, package and
    object name), unless the first is of the zero program, after which the
    loop never cuts; and where one batch ends and the next begins the program
    changes, the one that ends not being the zero program. *)
Theorem FilterAndGroup_boundaries (rows : list UserArgument) :
  let bs := FilterAndGroup filter rows in
  (forall b i x y, In b bs -> b !! i = Some x -> b !! S i = Some y ->
     program_of x = zeroProg \/ program_of x = program_of y)
  /\ (forall j b1 b2 x y, bs !! j = Some b1 -> bs !! S j = Some b2 ->
        last b1 = Some x -> head b2 = Some y ->
        program_of x <> zeroProg /\ program_of x <> program_of y).
Proof.
  destruct (group_rows_spec rows zeroProg []) as (_ & _ & _ & Hw & Ha);
    [done|done|constructor|].
  split.
  - intros b i x y Hb. rewrite Forall_forall in Hw.
    apply (Sorted_lookup joined). apply Hw. by apply list_elem_of_In.
  - intros j b1 b2 x y H1 H2 Hx Hy.
    pose proof (Sorted_lookup parted _ _ _ _ Ha H1 H2 x y Hx Hy) as Hn.
    split; intros H; apply Hn; [by left|by right].
Qed.

End FilterAndGroupFacts.

Section PipelineFacts.

Variable CsvError : Type.
Variable csv_records : ascii -> string -> list (list string) * option CsvError.
Variable ToUpper : string -> string.
Variable flavorOf : string -> FlavorKind.
Variable directionOf : string -> Z -> Z.

Lemma build_function_identity (h : list Argument) (ua : UserArgument)
    (uas : list UserArgument) (f : Function) (h' : list Argument) :
  build_function flavorOf directionOf h (ua :: uas) = Ret (f, h') ->
  identity f = (PackageName ua, ObjectName ua, LastDDL ua).
Proof.
  unfold build_function.
  destruct (process_rows _ _ _ _) as [st|e]; [|done].
  simpl. by intros [= <- _].
Qed.

Lemma parse_batches_identities (filter : option (string -> bool))
    (batches : list (list UserArgument)) (acc fs : list Function)
    (h h' : list Argument) :
  parse_batches flavorOf directionOf filter batches acc h = Ret (fs, h') ->
  map identity fs = map identity acc ++ omap (batch_identity filter) batches.
Proof.
  revert acc h. induction batches as [|uas batches IH]; intros acc h; simpl.
  - intros [= <- _]. by rewrite app_nil_r.
  - unfold batch_identity at 1.
    destruct (skip_batch filter uas) as [[|]|e] eqn:Hs; simpl; [apply IH| |done].
    destruct uas as [|ua uas]; [done|].
    destruct (build_function _ _ h (ua :: uas)) as [[f h1]|e] eqn:Hb; [|done].
    simpl. intros H. rewrite (IH _ _ H), map_app. simpl.
    rewrite (build_function_identity _ _ _ _ _ Hb). by rewrite <- app_assoc.
Qed.

(** The Functions come out in the order of the batches, one for every batch
    that is not skipped, named by the first row of its batch. *)
(** When [ParseArguments] returns, it returns one Function for each batch
    it did not skip, in the order of the batches, carrying the package, the
    object name and the [LastDDL] of the first row of its batch. *)
Theorem functions_follow_batches (filter : option (string -> bool))
    (batches : list (list UserArgument)) (fs : list Function)
    (h : list Argument) :
  ParseArguments flavorOf directionOf batches filter = Ret (fs, h) ->
  map identity fs = omap (batch_identity filter) batches.
Proof. apply parse_batches_identities. Qed.

Lemma batch_identity_Some (filter : option (string -> bool))
    (uas : list UserArgument) (i : string * string * Z) :
  batch_identity filter uas = Some i ->
  exists ua rest, uas = ua :: rest
    /\ i = (PackageName ua, ObjectName ua, LastDDL ua)
    /\ ObjectName ua <> ""%string
    /\ last_byte (ObjectName ua) <> Some "#"%char
    /\ passes filter (ObjectName ua).
Proof.
  unfold batch_identity, skip_batch.
  destruct uas as [|ua rest]; [done|]. simpl.
  destruct (last_byte (ObjectName ua)) as [c|] eqn:Hc; [|done].
  destruct (bool_decide (c = "#"%char)) eqn:Hh; simpl; [done|].
  apply bool_decide_eq_false in Hh.
  destruct filter as [g|]; simpl.
  - destruct (g (ObjectName ua)) eqn:Hg; simpl; [|done].
    intros [= <-]. exists ua, rest. split_and!; try done.
    + intros E. by rewrite E in Hc.
    + congruence.
  - intros [= <-]. exists ua, rest. split_and!; try done.
    + intros E. by rewrite E in Hc.
    + congruence.
Qed.

(** [ParseCsv] hands one filter to two stages that ask it about different
    names: every Function it returns has passed the filter both under its
    qualified name [PACKAGE.OBJECT] (in [FilterAndGroup]) and under its bare
    object name (in [ParseArguments]); and its name is not empty and does
    not end in [#]. *)
Theorem ParseCsv_applies_filter_twice (r : string) (filter : option (string -> bool))
    (fs : list Function) (h : list Argument) (err : option (ReadError CsvError)) :
  ParseCsv CsvError csv_records ToUpper flavorOf directionOf r filter
    = Ret (fs, h, err) ->
  Forall (fun f =>
            passes filter (Package f ++ "." ++ name f)%string
            /\ passes filter (name f)
            /\ name f <> ""%string
            /\ last_byte (name f) <> Some "#"%char) fs.
Proof.
  unfold ParseCsv.
  destruct (ReadCsv CsvError csv_records ToUpper r) as [rows res]. simpl.
  destruct res as [err'|e];
    destruct (ParseArguments _ _ _ _) as [[fs' h']|e'] eqn:Hp; try done.
  intros [= -> -> ->].
  pose proof (parse_batches_identities _ _ _ _ _ _ Hp) as Hid. simpl in Hid.
  apply Forall_forall. intros f Hf.
  assert (Hi : identity f ∈ omap (batch_identity filter) (FilterAndGroup filter rows)).
  { rewrite <- Hid. by apply list_elem_of_fmap_2. }
  apply list_elem_of_omap in Hi as (uas & Huas & Hi).
  apply batch_identity_Some in Hi as (ua & rest & -> & Hi & Hne & Hh & Hp2).
  injection Hi as HP HN _. rewrite HP, HN. split_and!; try done.
  assert (Hin : ua ∈ concat (FilterAndGroup filter rows)).
  { apply list_elem_of_In, in_concat. exists (ua :: rest). split.
    - by apply list_elem_of_In.
    - by left. }
  destruct (group_rows_spec filter rows zeroProg []) as (Hc & _);
    [done|done|constructor|].
  unfold FilterAndGroup in Hin. rewrite Hc in Hin. simpl in Hin.
  apply list_elem_of_In, filter_In in Hin as [_ Hk].
  unfold filtered_out in Hk. destruct filter as [g|]; [|done]. simpl.
  by apply negb_true_iff, negb_false_iff in Hk.
Qed.

End PipelineFacts.

(** ** One batch after the other *)

Section BatchFacts.

Variable flavorOf : string -> FlavorKind.
Variable directionOf : string -> Z -> Z.

Local Abbreviation step := (process_row flavorOf directionOf).
Local Abbreviation run := (process_rows flavorOf directionOf).

Lemma attach_take (n p q : nat) (nm : string) (h : list Argument) :
  (n <= p)%nat -> take n (attach p q nm h) = take n h.
Proof.
  intros Hp. unfold attach. destruct (h !! p) as [parent|]; [|done].
  destruct (decide _); by rewrite take_insert_ge.
Qed.

Lemma attach_length (p q : nat) (nm : string) (h : list Argument) :
  length (attach p q nm h) = length h.
Proof.
  unfold attach. destruct (h !! p) as [parent|]; [|done].
  destruct (decide _); by rewrite length_insert.
Qed.

(** A row leaves alone the cells below the first cell of its batch. *)
Lemma step_below (n : nat) (st st1 : BuildState) (ua : UserArgument) :
  (n <= length (heap st))%nat ->
  (forall k p, lastArgs st !! k = Some p -> (n <= p)%nat) ->
  step st ua = Ret st1 ->
  take n (heap st1) = take n (heap st)
  /\ (n <= length (heap st1))%nat
  /\ (forall k p, lastArgs st1 !! k = Some p -> (n <= p)%nat).
Proof.
  intros Hn Hla. unfold process_row.
  set (la1 := if decide (Flavor (arg_of_row flavorOf directionOf ua) <> FLAVOR_SIMPLE)
              then _ else _).
  assert (Hla1 : forall k p, la1 !! k = Some p -> (n <= p)%nat).
  { intros k p. unfold la1. destruct (decide _); [|apply Hla].
    intros [[_ <-]|[_ H]]%lookup_insert_Some; [done|by eapply Hla]. }
  destruct (decide (_ /\ _)).
  - intros [= <-]. simpl. rewrite take_insert_ge by done.
    rewrite length_insert, length_app. simpl.
    split; [by rewrite take_app_le|]. split; [lia|done].
  - destruct (la1 !! _) as [p|] eqn:Hp; [|done]. intros [= <-]. simpl.
    rewrite attach_take by (by eapply Hla1).
    split; [by rewrite take_app_le|]. split; [|done].
    rewrite attach_length, length_app. simpl. lia.
Qed.

Lemma run_below (n : nat) (rows : list UserArgument) (st st' : BuildState) :
  (n <= length (heap st))%nat ->
  (forall k p, lastArgs st !! k = Some p -> (n <= p)%nat) ->
  run st rows = Ret st' ->
  take n (heap st') = take n (heap st).
Proof.
  revert st. induction rows as [|ua rows IH]; intros st Hn Hla; simpl.
  - by intros [= <-].
  - destruct (step st ua) as [st1|e] eqn:Hs; [|done]. simpl. intros Hr.
    destruct (step_below n _ _ _ Hn Hla Hs) as (Ht & Hn1 & Hla1).
    rewrite <- Ht. by apply IH.
Qed.

Lemma build_function_extends (h h' : list Argument) (uas : list UserArgument)
    (f : Function) :
  build_function flavorOf directionOf h uas = Ret (f, h') -> h `prefix_of` h'.
Proof.
  unfold build_function.
  destruct (run (batch_init h) uas) as [st|e] eqn:Hr; [|done].
  simpl. intros [= _ <-].
  apply (run_below (length h)) in Hr.
  - simpl in Hr. rewrite take_app_le, firstn_all in Hr by done.
    rewrite <- Hr. apply prefix_take.
  - simpl. rewrite length_app. lia.
  - simpl. intros k p [_ <-]%lookup_singleton_Some. done.
Qed.

Lemma parse_batches_extends (filter : option (string -> bool))
    (batches : list (list UserArgument)) (acc fs : list Function)
    (h h' : list Argument) :
  parse_batches flavorOf directionOf filter batches acc h = Ret (fs, h') ->
  acc `prefix_of` fs /\ h `prefix_of` h'.
Proof.
  revert acc h. induction batches as [|uas batches IH]; intros acc h; simpl.
  - by intros [= <- <-].
  - destruct (skip_batch filter uas) as [[|]|e]; simpl; [apply IH| |done].
    destruct (build_function _ _ h uas) as [[f h1]|e] eqn:Hb; [|done]. simpl.
    intros [H1 H2]%IH. split.
    + etrans; [|exact H1]. by apply prefix_app_r.
    + etrans; [|exact H2]. by eapply build_function_extends.
Qed.

Lemma parse_batches_app (filter : option (string -> bool))
    (bs1 bs2 : list (list UserArgument)) (acc : list Function) (h : list Argument) :
  parse_batches flavorOf directionOf filter (bs1 ++ bs2) acc h
  = let! r := parse_batches flavorOf directionOf filter bs1 acc h in
    parse_batches flavorOf directionOf filter bs2 (fst r) (snd r).
Proof.
  revert acc h. induction bs1 as [|uas bs1 IH]; intros acc h; simpl; [done|].
  destruct (skip_batch filter uas) as [[|]|e]; simpl; [apply IH| |done].
  destruct (build_function _ _ h uas) as [[f h1]|e]; [|done]. simpl. apply IH.
Qed.

(** [ParseArguments] builds function after function without going back:
    what it returns for the batches [bs1 ++ bs2] begins with the Functions it
    returns for [bs1] alone, and the store of Arguments begins with the store
    for [bs1] alone, cell for cell. *)
Theorem later_batches_leave_earlier_functions (filter : option (string -> bool))
    (bs1 bs2 : list (list UserArgument)) (fs' : list Function)
    (h' : list Argument) :
  ParseArguments flavorOf directionOf (bs1 ++ bs2) filter = Ret (fs', h') ->
  exists fs h,
    ParseArguments flavorOf directionOf bs1 filter = Ret (fs, h)
    /\ fs `prefix_of` fs' /\ h `prefix_of` h'.
Proof.
  unfold ParseArguments. rewrite parse_batches_app.
  destruct (parse_batches _ _ filter bs1 [] []) as [[fs h]|e]; [|done].
  simpl. intros H. exists fs, h. split; [done|].
  by eapply parse_batches_extends.
Qed.

End BatchFacts.

(** ** Annotations, one type after the other *)

Lemma string_app_empty (s t : string) :
  (s ++ t)%string = ""%string -> s = ""%string.
Proof. by destruct s. Qed.

#[local] Instance evolves_refl : Reflexive evolves.
Proof. intros f. unfold evolves. split_and!; done. Qed.

#[local] Instance evolves_trans : Transitive evolves.
Proof.
  intros f g k (Hi & Ha & Hr & Hh & Hm) (Hi' & Ha' & Hr' & Hh' & Hm').
  unfold evolves. split_and!; try congruence.
  - by etrans.
  - lia.
Qed.

Lemma update_fun_lookup (p q : nat) (g : Function -> Function) (s : list Function) :
  update_fun p g s !! q = if decide (q = p) then g <$> s !! q else s !! q.
Proof.
  unfold update_fun. destruct (s !! p) as [f|] eqn:Hp.
  - destruct (decide (q = p)) as [->|Hne].
    + rewrite list_lookup_insert_eq; [by rewrite Hp|]. by eapply lookup_lt_Some.
    + by rewrite list_lookup_insert_ne.
  - destruct (decide (q = p)) as [->|Hne]; [by rewrite Hp|done].
Qed.

Lemma update_fun_length (p : nat) (g : Function -> Function) (s : list Function) :
  length (update_fun p g s) = length s.
Proof. unfold update_fun. destruct (s !! p); [by rewrite length_insert|done]. Qed.

Lemma update_fun_evolves (p : nat) (g : Function -> Function) (s : list Function) :
  (forall f, evolves f (g f)) -> Forall2 evolves s (update_fun p g s).
Proof.
  intros Hg. apply Forall2_same_length_lookup. split.
  - by rewrite update_fun_length.
  - intros q x y Hx. rewrite update_fun_lookup, Hx.
    destruct (decide _); simpl; intros [= <-]; [apply Hg|reflexivity].
Qed.

Lemma Forall2_evolves_refl (s : list Function) : Forall2 evolves s s.
Proof. reflexivity. Qed.

Lemma Forall2_evolves_trans (s1 s2 s3 : list Function) :
  Forall2 evolves s1 s2 -> Forall2 evolves s2 s3 -> Forall2 evolves s1 s3.
Proof. intros H1 H2. by etrans. Qed.

Lemma fold_update_evolves (g : Function -> Function) (l : list (string * nat))
    (s : list Function) :
  (forall f, evolves f (g f)) ->
  Forall2 evolves s (fold_left (fun s kp => update_fun (snd kp) g s) l s).
Proof.
  intros Hg. revert s. induction l as [|kp l IH]; intros s; simpl.
  - apply Forall2_evolves_refl.
  - eapply Forall2_evolves_trans; [|apply IH]. by apply update_fun_evolves.
Qed.

Lemma fold_update_lookup (g : Function -> Function) (l : list (string * nat))
    (s : list Function) (q : nat) :
  NoDup (l.*2) ->
  fold_left (fun s kp => update_fun (snd kp) g s) l s !! q
  = if decide (q ∈ l.*2) then g <$> s !! q else s !! q.
Proof.
  revert s. induction l as [|[k p] l IH]; intros s Hnd.
  - cbn [fold_left]. rewrite decide_False; [done|]. by intros ?%elem_of_nil.
  - rewrite fmap_cons in *. apply NoDup_cons in Hnd as [Hp Hnd].
    cbn [fold_left snd]. rewrite IH by done. rewrite update_fun_lookup.
    destruct (decide (q = p)) as [->|Hne].
    + rewrite decide_False by done. rewrite decide_True; [done|by left].
    + destruct (decide (q ∈ l.*2)) as [Hin|Hin].
      * rewrite decide_True; [done|by right].
      * rewrite decide_False; [done|]. by intros [?|?]%elem_of_cons.
Qed.

Section AnnotationMore.

Variable L : string -> string.
Variable ToUpper : string -> string.
Variable EqualFold : string -> string -> bool.
Variable RealName : Function -> string.
Variable FunctionName : Function -> string.

Local Abbreviation step := (apply_annotation L ToUpper EqualFold FunctionName).
Local Abbreviation run := (apply_annotations L ToUpper EqualFold FunctionName).
Local Abbreviation key := (fun f : Function => L (RealName f)).
Local Abbreviation index := (index_functions L RealName).

(** *** Annotation.String *)

Lemma Annotation_String_empty (a : Annotation) :
  Annotation_String a = ""%string <-> ann_Type a = ""%string \/ ann_Name a = ""%string.
Proof.
  unfold Annotation_String. split.
  - destruct (bool_decide (ann_Type a = ""%string)) eqn:Ht; simpl.
    { apply bool_decide_eq_true in Ht. by left. }
    destruct (bool_decide (ann_Name a = ""%string)) eqn:Hn; simpl.
    { apply bool_decide_eq_true in Hn. by right. }
    apply bool_decide_eq_false in Ht. apply bool_decide_eq_false in Hn.
    repeat case_bool_decide; intros Hs; apply string_app_empty in Hs; try done.
    unfold FullName in Hs.
    destruct (bool_decide (ann_Package a = ""%string)) eqn:Hp; simpl in Hs; [done|].
    destruct (bool_decide (ann_Name a = ""%string)); [done|].
    apply string_app_empty in Hs. by apply bool_decide_eq_false in Hp.
  - intros [H|H]; rewrite (bool_decide_eq_true_2 _ H); [done|by rewrite orb_true_r].
Qed.

(** *** The index *)

Lemma index_snoc (store l : list Function) (x : Function) :
  funcs (index store (l ++ [x]))
  = <[key x := (length store + length l)%nat]> (funcs (index store l)).
Proof.
  unfold index, index_functions. simpl.
  rewrite imap_app, fold_left_app. simpl. by rewrite Nat.add_0_r.
Qed.

Lemma index_lookup (store l : list Function) (k : string) (p : nat) :
  funcs (index store l) !! k = Some p ->
  exists i f, l !! i = Some f /\ k = key f /\ p = (length store + i)%nat.
Proof.
  induction l as [|x l IH] using rev_ind; [done|].
  rewrite index_snoc. intros [[<- <-]|[Hne H]]%lookup_insert_Some.
  - exists (length l), x. split; [|done].
    by rewrite lookup_app_r, Nat.sub_diag.
  - destruct (IH H) as (i & f & Hi & -> & ->). exists i, f. split; [|done].
    by apply lookup_app_l_Some.
Qed.

(** The address filed under a key is that of the last Function with that
    key. *)
Lemma index_lookup_last (store l : list Function) (k : string) (p : nat) :
  funcs (index store l) !! k = Some p
  <-> exists i f, l !! i = Some f /\ key f = k /\ p = (length store + i)%nat
        /\ forall j f', (i < j)%nat -> l !! j = Some f' -> key f' <> k.
Proof.
  revert k p. induction l as [|x l IH] using rev_ind; intros k p.
  - split; [done|]. by intros (i & f & Hi & _).
  - rewrite index_snoc, lookup_insert_Some, IH. split.
    + intros [[<- <-]|[Hne (i & f & Hi & Hk & -> & Hlast)]].
      * exists (length l), x. split; [by rewrite lookup_app_r, Nat.sub_diag|].
        split; [done|]. split; [done|]. intros j f' Hj Hf'.
        apply lookup_lt_Some in Hf'. rewrite length_app in Hf'. simpl in Hf'. lia.
      * exists i, f. split; [by apply lookup_app_l_Some|]. split; [done|].
        split; [done|]. intros j f' Hj Hf'.
        apply lookup_app_Some in Hf' as [Hf'|[Hge Hf']]; [by eapply Hlast|].
        apply list_lookup_singleton_Some in Hf' as [_ <-]. done.
    + intros (i & f & Hi & Hk & -> & Hlast).
      apply lookup_app_Some in Hi as [Hi|[Hge Hi]].
      * right. split.
        -- intros Hx. apply (Hlast (length l) x); [by eapply lookup_lt_Some| |done].
           by rewrite lookup_app_r, Nat.sub_diag.
        -- exists i, f. split; [done|]. split; [done|]. split; [done|].
           intros j f' Hj Hf'. apply (Hlast j f' Hj). by apply lookup_app_l_Some.
      * apply list_lookup_singleton_Some in Hi as [Hi <-]. left. split; [done|].
        f_equal. lia.
Qed.

Lemma index_to_list (store l : list Function) :
  NoDup (map key l) ->
  map_to_list (funcs (index store l))
  ≡ₚ imap (fun i f => (key f, (length store + i)%nat)) l.
Proof.
  induction l as [|x l IH] using rev_ind; intros Hnd.
  - unfold index, index_functions. simpl. by rewrite map_to_list_empty.
  - rewrite map_app in Hnd. apply NoDup_app in Hnd as (Hl & Hx & _).
    rewrite index_snoc, imap_app. simpl. rewrite Nat.add_0_r.
    rewrite map_to_list_insert.
    + rewrite (IH Hl). by rewrite Permutation_cons_append.
    + destruct (funcs (index store l) !! key x) as [p|] eqn:Hp; [|done].
      apply index_lookup in Hp as (i & f & Hi & Hk & _).
      destruct (Hx (key x)).
      * rewrite Hk. apply list_elem_of_fmap. exists f. split; [done|].
        by eapply list_elem_of_lookup_2.
      * by left.
Qed.

Lemma collect_imap (pre fs' l : list Function) :
  length fs' = length l ->
  omap (fun kp : string * nat => (pre ++ fs') !! snd kp)
       (imap (fun i f => (key f, (length pre + i)%nat)) l)
  = fs'.
Proof.
  revert pre fs'. induction l as [|x l IH]; intros pre fs' Hlen.
  - by destruct fs'.
  - destruct fs' as [|y fs']; [done|]. simpl. rewrite Nat.add_0_r.
    rewrite lookup_app_r, Nat.sub_diag by done. simpl. f_equal.
    rewrite (imap_ext _ (fun i f => (key f, (length (pre ++ [y]) + i)%nat))).
    + rewrite (cons_middle y pre fs'), app_assoc. apply IH.
      simpl in Hlen. lia.
    + intros i f _. simpl. f_equal. rewrite length_app. simpl. lia.
Qed.

(** The functions returned when the map is the index still and the store
    holds one function for each of those indexed. *)
Lemma collect_indexed (store functions fs' : list Function) (st : AnnState) :
  NoDup (map key functions) ->
  funcs st = funcs (index store functions) ->
  fstore st = store ++ fs' -> length fs' = length functions ->
  collect_functions st ≡ₚ fs'.
Proof.
  intros Hnd Hf Hs Hlen. unfold collect_functions. rewrite Hf, Hs.
  rewrite (index_to_list _ _ Hnd). by rewrite collect_imap.
Qed.

(** *** What every annotation keeps *)

Lemma evolves_set_alias (al : string) (f : Function) : evolves f (set_alias al f).
Proof. unfold evolves. by split_and!. Qed.

Lemma evolves_set_Replacement (r : option nat) (json : bool) (f : Function) :
  evolves f (set_Replacement r json f).
Proof. unfold evolves. by split_and!. Qed.

Lemma evolves_add_handle (exc : string) (f : Function) : evolves f (add_handle exc f).
Proof. unfold evolves. split_and!; try done. simpl. by apply prefix_app_r. Qed.

Lemma evolves_handled (a : Annotation) (f : Function) :
  evolves f (handled ToUpper EqualFold a f).
Proof. unfold handled. destruct (EqualFold _ _); [apply evolves_add_handle|done]. Qed.

Lemma evolves_maxTableSize (n : Z) (f : Function) :
  evolves f (if maxTableSize f <=? n then set_maxTableSize n f else f).
Proof.
  destruct (maxTableSize f <=? n) eqn:Hle; [|done].
  apply Z.leb_le in Hle. unfold evolves. by split_and!.
Qed.

Lemma step_evolves (st : AnnState) (a : Annotation) :
  Forall2 evolves (fstore st) (fstore (step st a))
  /\ (forall k p, funcs (step st a) !! k = Some p ->
        exists k', funcs st !! k' = Some p).
Proof.
  unfold apply_annotation.
  repeat match goal with
         | |- context [if ?b then _ else _] => destruct b eqn:?
         | |- context [match ?x with Some _ => _ | None => _ end] => destruct x eqn:?
         end; simpl;
    (split; [try reflexivity|try (intros k p H; by exists k)]).
  all: try (apply update_fun_evolves; intros;
            first [apply evolves_set_alias|apply evolves_set_Replacement
                  |apply evolves_maxTableSize]).
  all: try (apply (fold_update_evolves (handled ToUpper EqualFold a)), evolves_handled).
  all: intros k p' H.
  all: try (apply lookup_delete_Some in H as [_ H]; by exists k).
  all: apply lookup_insert_Some in H as [[_ <-]|[_ H]];
    [by eexists|apply lookup_delete_Some in H as [_ H]; by exists k].
Qed.

Lemma run_evolves (anns : list Annotation) (st : AnnState) :
  Forall2 evolves (fstore st) (fstore (run st anns))
  /\ (forall k p, funcs (run st anns) !! k = Some p ->
        exists k', funcs st !! k' = Some p).
Proof.
  revert st. induction anns as [|a anns IH]; intros st; simpl.
  - split; [reflexivity|]. intros k p H. by exists k.
  - destruct (IH (step st a)) as [He Hr]. destruct (step_evolves st a) as [He1 Hr1].
    split; [by etrans|].
    intros k p H. destruct (Hr k p H) as [k1 H1]. by apply (Hr1 k1).
Qed.

Lemma ApplyAnnotations_evolves (store functions : list Function)
    (anns : list Annotation) (g : Function) :
  In g (fst (ApplyAnnotations L ToUpper EqualFold RealName FunctionName store
               functions anns)) ->
  exists f, In f functions /\ evolves f g.
Proof.
  unfold ApplyAnnotations. destruct anns as [|a anns].
  { intros H. by exists g. }
  set (st := apply_annotations _ _ _ _ _ _). simpl.
  intros Hg%list_elem_of_In. unfold collect_functions in Hg.
  apply list_elem_of_omap in Hg as ([k p] & Hkp & Hp). simpl in Hp.
  apply elem_of_map_to_list in Hkp.
  destruct (run_evolves (a :: anns) (index store functions)) as [He Hr].
  destruct (Hr k p Hkp) as (k' & Hk').
  apply index_lookup in Hk' as (i & f & Hi & _ & ->).
  exists f. split; [by eapply list_elem_of_In, list_elem_of_lookup_2|].
  eapply (Forall2_lookup_lr _ _ _ _ _ _ He); [|exact Hp].
  simpl. by rewrite lookup_app_r, Nat.add_comm, Nat.add_sub by lia.
Qed.

(** *** Annotations by type *)

Lemma step_handle (st : AnnState) (a : Annotation) :
  ann_Type a = "handle"%string -> ann_Name a <> ""%string ->
  step st a
  = mkAnnState (funcs st)
      (fold_left (fun store kp => update_fun (snd kp) (handled ToUpper EqualFold a) store)
         (map_to_list (funcs st)) (fstore st)).
Proof.
  intros Ht Hn. unfold apply_annotation. rewrite Ht.
  rewrite (bool_decide_eq_false_2 _ Hn). simpl. by rewrite !andb_false_r.
Qed.

Lemma step_rename (st : AnnState) (a : Annotation) :
  ann_Type a = "rename"%string -> ann_Name a <> ""%string ->
  ann_Other a <> ""%string ->
  step st a
  = match funcs st !! L (FullName a) with
    | Some p =>
        mkAnnState (<[L (FullOther a) := p]> (delete (L (FullName a)) (funcs st)))
          (update_fun p (set_alias (ann_Other a)) (fstore st))
    | None => st
    end.
Proof.
  intros Ht Hn Ho. unfold apply_annotation. rewrite Ht.
  rewrite (bool_decide_eq_false_2 _ Hn), (bool_decide_eq_false_2 _ Ho). simpl.
  by rewrite ?andb_false_r.
Qed.

Lemma step_replace (st : AnnState) (a : Annotation) :
  ann_Type a = "replace"%string \/ ann_Type a = "replace_json"%string ->
  ann_Name a <> ""%string -> ann_Other a <> ""%string ->
  step st a
  = match funcs st !! L (FullName a) with
    | Some p =>
        let store1 :=
          update_fun p
            (set_Replacement (funcs st !! L (FullOther a))
               (bool_decide (ann_Type a = "replace_json"%string))) (fstore st) in
        mkAnnState
          (<[match store1 !! p with
             | Some f => L (FunctionName f)
             | None => L (FullName a)
             end := p]> (delete (L (FullOther a)) (funcs st)))
          store1
    | None => st
    end.
Proof.
  intros Ht Hn Ho. unfold apply_annotation.
  rewrite (bool_decide_eq_false_2 _ Hn), (bool_decide_eq_false_2 _ Ho).
  destruct Ht as [-> | ->]; simpl; by rewrite ?andb_false_r.
Qed.

Lemma index_pair (store : list Function) (f1 f2 : Function) :
  index store [f1; f2]
  = mkAnnState (<[key f2 := S (length store)]> {[ key f1 := length store ]})
      (store ++ [f1; f2]).
Proof.
  unfold index_functions. simpl. rewrite insert_empty.
  by rewrite Nat.add_0_r, Nat.add_1_r.
Qed.

Lemma update_fun_first (store : list Function) (f1 f2 : Function)
    (g : Function -> Function) :
  update_fun (length store) g (store ++ [f1; f2]) = store ++ [g f1; f2].
Proof.
  unfold update_fun. rewrite lookup_app_r, Nat.sub_diag by done. simpl.
  rewrite insert_app_r_alt, Nat.sub_diag by done. done.
Qed.

Lemma seq_of_index (n0 : nat) (l : list Function) :
  (imap (fun i f => (key f, (n0 + i)%nat)) l).*2 = seq n0 (length l).
Proof.
  revert n0. induction l as [|x l IH]; intros n0; [done|]. simpl.
  rewrite Nat.add_0_r. f_equal.
  rewrite (imap_ext _ (fun i f => (key f, (S n0 + i)%nat))); [apply IH|].
  intros i f _. simpl. f_equal. lia.
Qed.

Lemma handle_store (store functions : list Function) (a : Annotation) :
  NoDup (map key functions) ->
  fold_left (fun s kp => update_fun (snd kp) (handled ToUpper EqualFold a) s)
    (map_to_list (funcs (index store functions))) (store ++ functions)
  = store ++ map (handled ToUpper EqualFold a) functions.
Proof.
  intros Hnd. pose proof (index_to_list store functions Hnd) as Hperm.
  assert (H2 : (map_to_list (funcs (index store functions))).*2
               ≡ₚ seq (length store) (length functions)).
  { rewrite Hperm. by rewrite seq_of_index. }
  apply list_eq. intros q. rewrite fold_update_lookup.
  2:{ rewrite H2. apply NoDup_seq. }
  destruct (decide (q < length store)%nat) as [Hlt|Hge].
  - rewrite decide_False.
    + by rewrite !lookup_app_l.
    + rewrite H2, elem_of_seq. lia.
  - rewrite !lookup_app_r by lia. rewrite list_lookup_fmap.
    destruct (decide _) as [_|Hout]; [done|].
    rewrite H2, elem_of_seq in Hout.
    rewrite lookup_ge_None_2; [done|lia].
Qed.

Lemma run_malformed (anns : list Annotation) (st : AnnState) :
  Forall malformed anns -> run st anns = st.
Proof.
  induction 1 as [|a anns Ha _ IH]; simpl; [done|].
  by rewrite (apply_annotation_malformed L ToUpper EqualFold FunctionName st a Ha).
Qed.

(** Whatever the annotations, every Function [ApplyAnnotations] returns is
    one of the Functions it was given, with the same package, name, [LastDDL],
    arguments and return value; its handlers are those it had, possibly with
    more after them, and its table size is not smaller.  None is made up. *)
Theorem annotations_keep_what_was_parsed (store functions : list Function)
    (anns : list Annotation) (g : Function) :
  In g (fst (ApplyAnnotations L ToUpper EqualFold RealName FunctionName store
               functions anns)) ->
  exists f, In f functions /\ evolves f g.
Proof. apply ApplyAnnotations_evolves. Qed.

(** A list of annotations that are all passed over: when the lower-cased
    real names of the Functions are distinct, the Functions returned are those
    given, in some order (that of the map for a list that is not empty).  When
    two Functions share the lower-cased real name, the first loop files the
    second over the first, and the first is not returned. *)
Theorem malformed_annotations_keep_functions (store functions : list Function)
    (anns : list Annotation) :
  Forall malformed anns ->
  (NoDup (map (fun f => L (RealName f)) functions) ->
   fst (ApplyAnnotations L ToUpper EqualFold RealName FunctionName store
          functions anns) ≡ₚ functions)
  /\ (forall f1 f2, functions = [f1; f2] -> L (RealName f1) = L (RealName f2) ->
      anns <> [] ->
      fst (ApplyAnnotations L ToUpper EqualFold RealName FunctionName store
             functions anns) = [f2]).
Proof.
  intros Hm. unfold ApplyAnnotations. split.
  - intros Hnd. destruct anns as [|a anns]; [done|].
    rewrite (run_malformed _ _ Hm). simpl.
    by apply (collect_indexed store functions).
  - intros f1 f2 -> Hk Hne. destruct anns as [|a anns]; [done|].
    rewrite (run_malformed _ _ Hm). simpl.
    rewrite index_pair, Hk, insert_singleton_eq.
    unfold collect_functions. simpl. rewrite map_to_list_singleton. simpl.
    rewrite lookup_app_r by lia.
    by replace (S (length store) - length store)%nat with 1%nat by lia.
Qed.

(** The result of one annotation of type [handle], as a term. *)
Lemma handle_run (store functions : list Function)
    (a : Annotation) :
  ann_Type a = "handle"%string -> ann_Name a <> ""%string ->
  NoDup (map (fun f => L (RealName f)) functions) ->
  snd (ApplyAnnotations L ToUpper EqualFold RealName FunctionName store
         functions [a])
  = store ++ map (handled ToUpper EqualFold a) functions
  /\ fst (ApplyAnnotations L ToUpper EqualFold RealName FunctionName store
            functions [a])
     ≡ₚ map (handled ToUpper EqualFold a) functions.
Proof.
  intros Ht Hn Hnd. unfold ApplyAnnotations, apply_annotations. cbn [fold_left].
  rewrite (step_handle _ _ Ht Hn).
  assert (Hs : fstore (index store functions) = store ++ functions) by done.
  rewrite Hs, (handle_store _ _ _ Hnd). cbn [fst snd fstore]. split; [done|].
  apply (collect_indexed store functions); try done.
  by rewrite length_map.
Qed.

(** The result of a rename onto the key of another Function, as a term. *)
Lemma rename_run (store : list Function)
    (fa fb : Function) (a : Annotation) :
  ann_Type a = "rename"%string -> ann_Name a <> ""%string ->
  ann_Other a <> ""%string ->
  L (FullName a) = L (RealName fa) -> L (FullOther a) = L (RealName fb) ->
  L (RealName fa) <> L (RealName fb) ->
  ApplyAnnotations L ToUpper EqualFold RealName FunctionName store [fa; fb] [a]
  = ([set_alias (ann_Other a) fa], store ++ [set_alias (ann_Other a) fa; fb]).
Proof.
  intros Ht Hn Ho Hka Hkb Hne. unfold ApplyAnnotations, apply_annotations. simpl.
  rewrite (step_rename _ _ Ht Hn Ho), index_pair, Hka, Hkb. simpl.
  rewrite lookup_insert_ne, lookup_singleton_eq by done.
  rewrite delete_insert_ne, delete_singleton_eq, insert_insert_eq, insert_empty by done.
  rewrite update_fun_first. unfold collect_functions. simpl.
  rewrite map_to_list_singleton. simpl.
  by rewrite lookup_app_r, Nat.sub_diag.
Qed.

(** The result of one [replace] or [replace_json], as a term. *)
Lemma replace_run (store : list Function)
    (fa fb : Function) (a : Annotation) :
  ann_Type a = "replace"%string \/ ann_Type a = "replace_json"%string ->
  ann_Name a <> ""%string -> ann_Other a <> ""%string ->
  L (FullName a) = L (RealName fa) -> L (FullOther a) = L (RealName fb) ->
  L (RealName fa) <> L (RealName fb) ->
  let fa' := set_Replacement (Some (S (length store)))
               (bool_decide (ann_Type a = "replace_json"%string)) fa in
  let result :=
    ApplyAnnotations L ToUpper EqualFold RealName FunctionName store [fa; fb] [a] in
  snd result = store ++ [fa'; fb]
  /\ (L (FunctionName fa') = L (RealName fa) -> fst result = [fa'])
  /\ (L (FunctionName fa') <> L (RealName fa) -> fst result ≡ₚ [fa'; fa']).
Proof.
  intros Ht Hn Ho Hka Hkb Hne fa' result. unfold result.
  unfold ApplyAnnotations, apply_annotations. simpl.
  rewrite (step_replace _ _ Ht Hn Ho), index_pair, Hka, Hkb. simpl.
  rewrite lookup_insert_ne, lookup_singleton_eq by done. simpl.
  rewrite lookup_insert_eq, update_fun_first. fold fa'.
  rewrite lookup_app_r, Nat.sub_diag by done. simpl.
  rewrite delete_insert_eq, delete_singleton_ne by done.
  unfold collect_functions. simpl. split; [done|]. split.
  - intros ->. rewrite insert_singleton_eq, map_to_list_singleton. simpl.
    by rewrite lookup_app_r, Nat.sub_diag.
  - intros Hk. rewrite map_to_list_insert by (by rewrite lookup_singleton_ne).
    rewrite map_to_list_singleton. simpl.
    by rewrite lookup_app_r, Nat.sub_diag.
Qed.

(** An annotation of type [handle] with a name, applied to Functions of
    distinct lower-cased real names: the upper-cased name is appended to the
    handlers of every Function whose package equals the annotation's under
    [EqualFold]; the handlers of the others and every other field of every
    Function are as they were; all are returned. *)
Theorem handle_reaches_the_package (store functions : list Function)
    (a : Annotation) :
  ann_Type a = "handle"%string -> ann_Name a <> ""%string ->
  NoDup (map (fun f => L (RealName f)) functions) ->
  exists fs',
    snd (ApplyAnnotations L ToUpper EqualFold RealName FunctionName store
           functions [a])
    = store ++ fs'
    /\ fst (ApplyAnnotations L ToUpper EqualFold RealName FunctionName store
              functions [a])
       ≡ₚ fs'
    /\ Forall2
         (fun f g =>
            handle g = (if EqualFold (Package f) (ann_Package a)
                        then handle f ++ [ToUpper (ann_Name a)] else handle f)
            /\ Package g = Package f /\ name g = name f /\ alias g = alias f
            /\ fun_LastDDL g = fun_LastDDL f /\ Args g = Args f
            /\ Returns g = Returns f /\ Replacement g = Replacement f
            /\ ReplacementIsJSON g = ReplacementIsJSON f
            /\ maxTableSize g = maxTableSize f)
         functions fs'.
Proof.
  intros Ht Hn Hnd. destruct (handle_run store functions a Ht Hn Hnd) as [Hs Hf].
  exists (map (handled ToUpper EqualFold a) functions).
  split; [exact Hs|]. split; [exact Hf|].
  apply Forall2_fmap_r, Forall_Forall2_diag, Forall_forall. intros f _.
  unfold compose, handled.
  destruct (EqualFold (Package f) (ann_Package a)); simpl; by split_and!.
Qed.

(** Renaming a Function to the name of another one: the entry of the other
    is overwritten, so of the two only the renamed Function is returned; its
    alias is the annotation's [Other] and its other fields are as they were.
    The other Function stays in the store, unreachable from the map. *)
Theorem rename_onto_existing_name_drops_it (store : list Function)
    (fa fb : Function) (a : Annotation) :
  ann_Type a = "rename"%string -> ann_Name a <> ""%string ->
  ann_Other a <> ""%string ->
  L (FullName a) = L (RealName fa) -> L (FullOther a) = L (RealName fb) ->
  L (RealName fa) <> L (RealName fb) ->
  exists g,
    ApplyAnnotations L ToUpper EqualFold RealName FunctionName store [fa; fb] [a]
    = ([g], store ++ [g; fb])
    /\ alias g = ann_Other a
    /\ Package g = Package fa /\ name g = name fa
    /\ fun_LastDDL g = fun_LastDDL fa /\ Args g = Args fa
    /\ Returns g = Returns fa /\ Replacement g = Replacement fa
    /\ ReplacementIsJSON g = ReplacementIsJSON fa
    /\ handle g = handle fa /\ maxTableSize g = maxTableSize fa.
Proof.
  intros Ht Hn Ho Hka Hkb Hne. eexists.
  split; [exact (rename_run store fa fb a Ht Hn Ho Hka Hkb Hne)|]. by split_and!.
Qed.

(** [replace] and [replace_json] of one Function by another: the
    replacement leaves the map and is no longer returned on its own; the
    [Replacement] of the replaced Function is the address of the cell that
    holds the replacement, unchanged, and its [ReplacementIsJSON] tells the
    two types apart; its other fields are as they were.  It is filed again
    under its lower-cased [Name()]: when that key is the one it was filed
    under it is returned once; when it is another key, the map holds it under
    both and it is returned twice. *)
Theorem replace_hides_the_replacement (store : list Function)
    (fa fb : Function) (a : Annotation) :
  ann_Type a = "replace"%string \/ ann_Type a = "replace_json"%string ->
  ann_Name a <> ""%string -> ann_Other a <> ""%string ->
  L (FullName a) = L (RealName fa) -> L (FullOther a) = L (RealName fb) ->
  L (RealName fa) <> L (RealName fb) ->
  let result :=
    ApplyAnnotations L ToUpper EqualFold RealName FunctionName store [fa; fb] [a] in
  exists g,
    snd result = store ++ [g; fb]
    /\ Replacement g = Some (S (length store))
    /\ snd result !! S (length store) = Some fb
    /\ ReplacementIsJSON g = bool_decide (ann_Type a = "replace_json"%string)
    /\ Package g = Package fa /\ name g = name fa /\ alias g = alias fa
    /\ fun_LastDDL g = fun_LastDDL fa /\ Args g = Args fa
    /\ Returns g = Returns fa /\ handle g = handle fa
    /\ maxTableSize g = maxTableSize fa
    /\ (L (FunctionName g) = L (RealName fa) -> fst result = [g])
    /\ (L (FunctionName g) <> L (RealName fa) -> fst result ≡ₚ [g; g]).
Proof.
  intros Ht Hn Ho Hka Hkb Hne result.
  destruct (replace_run store fa fb a Ht Hn Ho Hka Hkb Hne) as (Hs & H1 & H2).
  eexists. split; [exact Hs|]. split; [reflexivity|].
  split.
  { unfold result. rewrite Hs. rewrite lookup_app_r by lia.
    by replace (S (length store) - length store)%nat with 1%nat by lia. }
  split; [reflexivity|]. split_and!; try reflexivity; [exact H1|exact H2].
Qed.

(** C7 (malformed annotations are silent no-ops), amended.  An annotation
    without a name, without a type, without [Other] where the type needs it,
    or of type [max-table-size] with a size that is not positive: the body of
    the loop returns the state it was given, and beside at least one other
    annotation it can be left out of the list, [ApplyAnnotations] returning
    the same.  As the only annotation it is not the same as no annotation: the
    Functions go through the map, so those returned are the Functions that no
    later Function shares the lower-cased real name with, each unchanged.
    They are all the Functions given, in some order, when the lower-cased real
    names are distinct.  [ApplyAnnotations] has no error result. *)
Theorem malformed_annotation_is_passed_over (a : Annotation) :
  malformed a ->
  (forall st, apply_annotation L ToUpper EqualFold FunctionName st a = st)
  /\ (forall store functions pre post,
        pre ++ post <> [] ->
        ApplyAnnotations L ToUpper EqualFold RealName FunctionName store functions
          (pre ++ a :: post)
        = ApplyAnnotations L ToUpper EqualFold RealName FunctionName store functions
            (pre ++ post))
  /\ (forall store functions,
        let result :=
          ApplyAnnotations L ToUpper EqualFold RealName FunctionName store
            functions [a] in
        snd result = store ++ functions
        /\ (forall g,
              In g (fst result)
              <-> exists i,
                    functions !! i = Some g
                    /\ forall j g', (i < j)%nat -> functions !! j = Some g' ->
                                    L (RealName g') <> L (RealName g))
        /\ (NoDup (map (fun f => L (RealName f)) functions) ->
            fst result ≡ₚ functions)).
Proof.
  intros Hm.
  pose proof (apply_annotation_malformed L ToUpper EqualFold FunctionName) as Hstep.
  split; [intros st; by apply Hstep|]. split.
  - intros store functions pre post Hne. unfold ApplyAnnotations.
    assert (Hrun : forall st, run st (pre ++ a :: post) = run st (pre ++ post)).
    { intros st. rewrite !(apply_annotations_app L ToUpper EqualFold FunctionName).
      change (run (run st pre) (a :: post)) with (run (step (run st pre) a) post).
      by rewrite Hstep. }
    rewrite Hrun.
    destruct (pre ++ a :: post) eqn:E1; [by destruct pre|].
    destruct (pre ++ post) eqn:E2; [done|]. done.
  - intros store functions result. unfold result, ApplyAnnotations.
    cbn [apply_annotations fold_left]. rewrite (Hstep _ _ Hm). cbn [fst snd].
    split; [done|]. split.
    + intros g. rewrite <- list_elem_of_In. unfold collect_functions.
      rewrite list_elem_of_omap. split.
      * intros ([k p] & Hkp & Hp). simpl in Hp.
        apply elem_of_map_to_list, index_lookup_last in Hkp
          as (i & f & Hi & Hk & -> & Hlast).
        change (fstore (index store functions)) with (store ++ functions) in Hp.
        rewrite lookup_app_r, Nat.add_comm, Nat.add_sub in Hp by lia.
        assert (f = g) as -> by congruence.
        exists i. split; [done|]. intros j g' Hj Hg'. rewrite Hk. by eapply Hlast.
      * intros (i & Hi & Hlast).
        exists (L (RealName g), (length store + i)%nat). split.
        -- apply elem_of_map_to_list, index_lookup_last. by exists i, g.
        -- simpl. change (fstore (index store functions)) with (store ++ functions).
           by rewrite lookup_app_r, Nat.add_comm, Nat.add_sub by lia.
    + intros Hnd. by apply (collect_indexed store functions).
Qed.

(** [Annotation.String] is empty exactly when the annotation has no type
    or no name, and an annotation that prints as the empty string changes
    nothing when it is applied. *)
Theorem empty_String_is_skipped (a : Annotation) :
  (Annotation_String a = ""%string
   <-> ann_Type a = ""%string \/ ann_Name a = ""%string)
  /\ (Annotation_String a = ""%string ->
      forall st, apply_annotation L ToUpper EqualFold FunctionName st a = st).
Proof.
  split; [apply Annotation_String_empty|].
  intros H st. apply Annotation_String_empty in H.
  apply (apply_annotation_malformed L ToUpper EqualFold FunctionName).
  unfold malformed. destruct H as [H|H]; [right; by left|by left].
Qed.

End AnnotationMore.

(** ** Concrete runs *)

(** 2^32 in decimal is read back by [mustBeUint] and refused by [mustBeUint8]. *)
Lemma decimal_texts_are_read_back_witness :
  - 2 ^ 63 < 4294967296 < 2 ^ 63
  /\ mustBeUint (pretty 4294967296) = Ret 4294967296
  /\ mustBeUint8 (pretty 4294967296) = Panic (PanicOutOfRange 4294967296).
Proof.
  assert (H : - 2 ^ 63 < 4294967296 < 2 ^ 63) by (vm_compute; split; reflexivity).
  split; [exact H|]. exact (decimal_texts_are_read_back 4294967296 H).
Defined.

(** An export without the column [TYPE_SUBNAME] and with one row: the row
    is not sent, and reading it panics. *)
Lemma ReadCsv_missing_column_witness :
  (100 <= String.length csv_without_subname)%nat
  /\ fst (ReadCsv unit plain_records (fun s => s) csv_without_subname) = []
  /\ exists e, snd (ReadCsv unit plain_records (fun s => s) csv_without_subname)
               = Panic e.
Proof.
  assert (Hlen : (100 <= String.length csv_without_subname)%nat)
    by (vm_compute; lia).
  split; [exact Hlen|].
  assert (Hh : "TYPE_SUBNAME"%string ∈ csvHeaders).
  { unfold csvHeaders. repeat (first [by left|right]). }
  exact (ReadCsv_missing_column unit plain_records (fun s => s)
           csv_without_subname _ _ None "TYPE_SUBNAME" Hlen eq_refl Hh
           ltac:(intros c Hc; vm_compute in Hc;
                 repeat (apply elem_of_cons in Hc as [->|Hc]; [discriminate|]);
                 by apply elem_of_nil in Hc)).
Defined.

(** Two batches, the rows of [P.F] and the rows of a hidden function: one
    Function comes back, named by the first row of the first batch. *)
Lemma functions_follow_batches_witness :
  exists fs h,
    ParseArguments flavor_of_type direction_of
      [[row "" "NUMBER" 0; row "A" "NUMBER" 0];
       [set_DataLevel 0 (mkUserArgument "P" "G#" 0 "B" "IN" "NUMBER"
                           "" "" "" "" "" "" 1 2 0 1 0 0 0)]] None
    = Ret (fs, h)
    /\ map identity fs = [("P", "F", 0)]%string.
Proof.
  eexists _, _. split; [vm_compute; reflexivity|].
  exact (functions_follow_batches flavor_of_type direction_of None
           [[row "" "NUMBER" 0; row "A" "NUMBER" 0];
            [set_DataLevel 0 (mkUserArgument "P" "G#" 0 "B" "IN" "NUMBER"
                                "" "" "" "" "" "" 1 2 0 1 0 0 0)]] _ _ eq_refl).
Defined.

(** The export of [P.F], [P.G#] and [Q.H], with a filter that refuses the
    qualified name [Q.H]: [P.F] alone comes back. *)
Lemma ParseCsv_applies_filter_twice_witness :
  exists fs h,
    ParseCsv unit plain_records (fun s => s) flavor_of_type direction_of
      csv_three_functions (Some not_Q_H)
    = Ret (fs, h, None)
    /\ map identity fs = [("P", "F", 0)]%string
    /\ Forall (fun f =>
                 passes (Some not_Q_H) (Package f ++ "." ++ name f)%string
                 /\ passes (Some not_Q_H) (name f)
                 /\ name f <> ""%string
                 /\ last_byte (name f) <> Some "#"%char) fs.
Proof.
  assert (H : exists fs h,
            ParseCsv unit plain_records (fun s => s) flavor_of_type direction_of
              csv_three_functions (Some not_Q_H)
            = Ret (fs, h, None)
            /\ map identity fs = [("P", "F", 0)]%string).
  { eexists _, _. split; vm_compute; reflexivity. }
  destruct H as (fs & h & H & Hid). exists fs, h.
  split; [exact H|]. split; [exact Hid|].
  exact (ParseCsv_applies_filter_twice unit plain_records (fun s => s)
           flavor_of_type direction_of csv_three_functions (Some not_Q_H)
           fs h None H).
Defined.

(** The rows of [P.F] twice: the Function and the three cells of the first
    batch are the beginning of what the two batches give. *)
Lemma later_batches_leave_earlier_functions_witness :
  exists fs' h' fs h,
    ParseArguments flavor_of_type direction_of
      ([[row "" "NUMBER" 0; row "A" "NUMBER" 0]]
         ++ [[row "" "NUMBER" 0; row "A" "NUMBER" 0]]) None
    = Ret (fs', h')
    /\ ParseArguments flavor_of_type direction_of
         [[row "" "NUMBER" 0; row "A" "NUMBER" 0]] None
       = Ret (fs, h)
    /\ length fs = 1%nat /\ length h = 3%nat
    /\ fs `prefix_of` fs' /\ h `prefix_of` h'.
Proof.
  eexists _, _.
  destruct (later_batches_leave_earlier_functions flavor_of_type direction_of None
              [[row "" "NUMBER" 0; row "A" "NUMBER" 0]]
              [[row "" "NUMBER" 0; row "A" "NUMBER" 0]] _ _ eq_refl)
    as (fs & h & Hrun & Hfs & Hh).
  exists fs, h. split; [reflexivity|]. split; [exact Hrun|].
  vm_compute in Hrun. injection Hrun as <- <-. by split_and!.
Defined.

(** [P.F] with one annotation of its table size: what comes back is [P.F]
    with the size set. *)
Lemma annotations_keep_what_was_parsed_witness :
  In (set_maxTableSize 5 fun_P_F)
     (fst (ApplyAnnotations (fun s => s) (fun s => s) String.eqb qualified_name
             qualified_name [] [fun_P_F] [size_5]))
  /\ exists f, In f [fun_P_F] /\ evolves f (set_maxTableSize 5 fun_P_F).
Proof.
  assert (H : In (set_maxTableSize 5 fun_P_F)
                (fst (ApplyAnnotations (fun s => s) (fun s => s) String.eqb
                        qualified_name qualified_name [] [fun_P_F] [size_5]))).
  { vm_compute. by left. }
  split; [exact H|].
  exact (annotations_keep_what_was_parsed (fun s => s) (fun s => s) String.eqb
           qualified_name qualified_name [] [fun_P_F] [size_5] _ H).
Defined.

(** An annotation without [Other] is passed over: [P.F] and [P.G] both come
    back; of two Functions filed under the name of [P.F] the second alone. *)
Lemma malformed_annotations_keep_functions_witness :
  Forall malformed [rename_to_nothing]
  /\ fst (ApplyAnnotations (fun s => s) (fun s => s) String.eqb qualified_name
            qualified_name [] [fun_P_F; fun_P_G] [rename_to_nothing])
     ≡ₚ [fun_P_F; fun_P_G]
  /\ fst (ApplyAnnotations (fun s => s) (fun s => s) String.eqb qualified_name
            qualified_name [] [fun_P_F; set_maxTableSize 7 fun_P_F]
            [rename_to_nothing])
     = [set_maxTableSize 7 fun_P_F].
Proof.
  assert (H : Forall malformed [rename_to_nothing]).
  { constructor; [|constructor]. right. right. left.
    split; [reflexivity|]. split_and!; discriminate. }
  split; [exact H|]. split.
  - apply (malformed_annotations_keep_functions (fun s => s) (fun s => s) String.eqb
             qualified_name qualified_name [] [fun_P_F; fun_P_G]
             [rename_to_nothing] H).
    apply (bool_decide_unpack _). vm_compute. exact I.
  - exact (proj2 (malformed_annotations_keep_functions (fun s => s) (fun s => s)
                    String.eqb qualified_name qualified_name []
                    [fun_P_F; set_maxTableSize 7 fun_P_F] [rename_to_nothing] H)
             fun_P_F (set_maxTableSize 7 fun_P_F) eq_refl eq_refl
             ltac:(discriminate)).
Defined.

(** The handler [e_fail] for the package [P], with [P.F] and [P.G]: both get
    it. *)
Lemma handle_reaches_the_package_witness :
  NoDup (map (fun f => qualified_name f) [fun_P_F; fun_P_G])
  /\ exists g1 g2,
       snd (ApplyAnnotations (fun s => s) (fun s => s) String.eqb qualified_name
              qualified_name [] [fun_P_F; fun_P_G] [handle_E])
       = [g1; g2]
       /\ fst (ApplyAnnotations (fun s => s) (fun s => s) String.eqb qualified_name
                 qualified_name [] [fun_P_F; fun_P_G] [handle_E])
          ≡ₚ [g1; g2]
       /\ handle g1 = ["e_fail"%string] /\ name g1 = "F"%string
       /\ handle g2 = ["e_fail"%string] /\ name g2 = "G"%string.
Proof.
  assert (H : NoDup (map (fun f => qualified_name f) [fun_P_F; fun_P_G])).
  { apply (bool_decide_unpack _). vm_compute. exact I. }
  split; [exact H|].
  destruct (handle_reaches_the_package (fun s => s) (fun s => s) String.eqb
              qualified_name qualified_name [] [fun_P_F; fun_P_G] handle_E
              eq_refl ltac:(discriminate) H) as (fs' & Hs & Hf & Hall).
  apply Forall2_cons_inv_l in Hall as (g1 & fs1 & H1 & Hall & ->).
  apply Forall2_cons_inv_l in Hall as (g2 & fs2 & H2 & Hall & ->).
  apply Forall2_nil_inv_l in Hall as ->.
  destruct H1 as (Hh1 & _ & Hn1 & _). destruct H2 as (Hh2 & _ & Hn2 & _).
  exists g1, g2. split; [exact Hs|]. split; [exact Hf|].
  split; [exact Hh1|]. split; [exact Hn1|]. split; [exact Hh2|exact Hn2].
Defined.

(** [P.F] renamed to [G] while [P.G] exists: [P.F] alone comes back, under
    its alias. *)
Lemma rename_onto_existing_name_drops_it_witness :
  qualified_name fun_P_F <> qualified_name fun_P_G
  /\ exists g,
       ApplyAnnotations (fun s => s) (fun s => s) String.eqb qualified_name
         qualified_name [] [fun_P_F; fun_P_G] [rename_F_G]
       = ([g], [g; fun_P_G])
       /\ alias g = "G"%string /\ name g = "F"%string.
Proof.
  assert (H : qualified_name fun_P_F <> qualified_name fun_P_G) by discriminate.
  split; [exact H|].
  destruct (rename_onto_existing_name_drops_it (fun s => s) (fun s => s) String.eqb
              qualified_name qualified_name [] fun_P_F fun_P_G rename_F_G
              eq_refl ltac:(discriminate) ltac:(discriminate) eq_refl eq_refl H)
    as (g & Hrun & Ha & _ & Hn & _).
  exists g. split; [exact Hrun|]. split; [exact Ha|exact Hn].
Defined.

(** [P.F] replaced by [P.G]: [P.F] alone comes back, pointing to the cell of
    [P.G]. *)
Lemma replace_hides_the_replacement_witness :
  qualified_name fun_P_F <> qualified_name fun_P_G
  /\ exists g,
       ApplyAnnotations (fun s => s) (fun s => s) String.eqb qualified_name
         qualified_name [] [fun_P_F; fun_P_G] [replace_F_G]
       = ([g], [g; fun_P_G])
       /\ Replacement g = Some 1%nat /\ ReplacementIsJSON g = false
       /\ name g = "F"%string.
Proof.
  assert (H : qualified_name fun_P_F <> qualified_name fun_P_G) by discriminate.
  split; [exact H|].
  destruct (replace_hides_the_replacement (fun s => s) (fun s => s) String.eqb
              qualified_name qualified_name [] fun_P_F fun_P_G replace_F_G
              (or_introl eq_refl) ltac:(discriminate) ltac:(discriminate)
              eq_refl eq_refl H)
    as (g & Hs & Hr & _ & Hj & Hp & Hn & _ & _ & _ & _ & _ & _ & Hf & _).
  exists g. split.
  - apply injective_projections; [|exact Hs]. apply Hf.
    unfold qualified_name. by rewrite Hp, Hn.
  - split; [exact Hr|]. split; [exact Hj|exact Hn].
Defined.

(** A rename without [Other] after the annotation of size 5 for [P.F]: the
    result is that of the size alone.  As the only annotation, with [P.F] and
    [P.G]: both come back. *)
Lemma malformed_annotation_is_passed_over_witness :
  malformed rename_to_nothing
  /\ ApplyAnnotations (fun s => s) (fun s => s) String.eqb qualified_name
       qualified_name [] [fun_P_F] [size_5; rename_to_nothing]
     = ApplyAnnotations (fun s => s) (fun s => s) String.eqb qualified_name
         qualified_name [] [fun_P_F] [size_5]
  /\ fst (ApplyAnnotations (fun s => s) (fun s => s) String.eqb qualified_name
            qualified_name [] [fun_P_F; fun_P_G] [rename_to_nothing])
     ≡ₚ [fun_P_F; fun_P_G].
Proof.
  assert (H : malformed rename_to_nothing).
  { right. right. left. split; [reflexivity|]. split_and!; discriminate. }
  split; [exact H|].
  destruct (malformed_annotation_is_passed_over (fun s => s) (fun s => s) String.eqb
              qualified_name qualified_name rename_to_nothing H)
    as (_ & Hdrop & Halone).
  split.
  - exact (Hdrop [] [fun_P_F] [size_5] [] ltac:(discriminate)).
  - apply (Halone [] [fun_P_F; fun_P_G]).
    apply (bool_decide_unpack _). vm_compute. exact I.
Defined.

(** C7 as claimed fails for a malformed annotation that is the only one,
    when two Functions share the lower-cased real name: without annotations
    both overloads of [P.F] are returned, with the rename without [Other] as
    the only annotation the first is gone. *)
Lemma lone_malformed_annotation_drops_an_overload :
  malformed rename_to_nothing
  /\ qualified_name fun_P_F = qualified_name fun_P_F_overload
  /\ fst (ApplyAnnotations (fun s => s) (fun s => s) String.eqb qualified_name
            qualified_name [] [fun_P_F; fun_P_F_overload] [])
     = [fun_P_F; fun_P_F_overload]
  /\ fst (ApplyAnnotations (fun s => s) (fun s => s) String.eqb qualified_name
            qualified_name [] [fun_P_F; fun_P_F_overload] [rename_to_nothing])
     = [fun_P_F_overload].
Proof.
  split.
  { right. right. left. split; [reflexivity|]. split_and!; discriminate. }
  by split_and!.
Qed.

End OracallFacts.

(** * Properties of package structs *)

Module StructsFacts.

Import Structs.

(** Induction over an Argument, its element type and its fields. *)
Lemma Argument_ind' (P : Argument -> Prop) :
  (forall a,
      (forall t, TableOf a = Some t -> P t) ->
      (forall fs, RecordOf a = Some fs -> Forall P fs) ->
      P a) ->
  forall a, P a.
Proof.
  intros H. fix IH 1. intros [n ty tn d fl tof rof]. apply H; simpl.
  - destruct tof as [t0|]; [|discriminate].
    pose proof (IH t0) as Ht0. intros t [= <-]. exact Ht0.
  - destruct rof as [fs0|]; [|discriminate].
    assert (Hfs : Forall P fs0).
    { induction fs0 as [|x fs0 IHfs]; constructor; [apply IH|exact IHfs]. }
    intros fs [= <-]. exact Hfs.
Qed.

Lemma declared_app (l1 l2 : list Line) :
  declared (l1 ++ l2) = declared l1 ++ declared l2.
Proof. unfold declared. apply omap_app. Qed.

Lemma missing_TableOf_Some (args : list Argument) (a : Argument) :
  missing_TableOf args = Some a ->
  In a args /\ Flavor a = FLAVOR_TABLE /\ TableOf a = None.
Proof.
  unfold missing_TableOf. intros H. apply find_some in H as [Hin Hp].
  apply andb_prop in Hp as [H1 H2]. apply bool_decide_eq_true_1 in H1.
  split; [done|]. split; [done|]. by destruct (TableOf a).
Qed.

Lemma missing_TableOf_is_Some (args : list Argument) (a : Argument) :
  In a args -> Flavor a = FLAVOR_TABLE -> TableOf a = None ->
  exists a0, missing_TableOf args = Some a0.
Proof.
  intros Hin Hf Ht. unfold missing_TableOf.
  destruct (List.find _ args) as [a0|] eqn:E; [by exists a0|].
  eapply find_none in E; [|exact Hin].
  rewrite Hf, Ht in E. simpl in E. discriminate.
Qed.

Section EmitterFacts.

Variable ToLower : string -> string.
Variable goType : Argument -> bool -> string.
Variable replHidden : string -> string.
Variable FunctionName : Function -> string.
Variable getStructName : Function -> bool -> string.
Variable DIR_IN : Z.
Variable DIR_OUT : Z.

Let typ_of (arg : Argument) : string := fst (field_type ToLower goType replHidden arg).
Let line_of := field_line ToLower goType replHidden.
Let fields_from := write_fields ToLower goType replHidden.
Let message_with := write_message ToLower goType replHidden.
Let nested := nested_message ToLower goType replHidden.
Let emit := protoWriteMessageTyp ToLower goType replHidden.

Lemma clean_arg_Flavor (arg : Argument) :
  Flavor (clean_arg replHidden arg) = Flavor arg.
Proof. unfold clean_arg. by destruct (HasSuffix _ _). Qed.

Lemma clean_arg_TableOf (arg : Argument) :
  TableOf (clean_arg replHidden arg) = TableOf arg.
Proof. unfold clean_arg. by destruct (HasSuffix _ _). Qed.

Lemma declared_field (i : nat) (arg : Argument) : declared [line_of i arg] = [].
Proof. reflexivity. Qed.

Lemma write_fields_invariant (f : Argument -> string -> gset string -> Emitted)
    (msgName : string) (args : list Argument) :
  Forall (sound_nested f) args ->
  forall i w buf seen w' buf' seen' err,
    fields_from f msgName i args w buf seen = (w', buf', seen', err) ->
    (seen ⊆ seen')
    /\ (exists fields, w' = w ++ fields /\ declared fields = [])
    /\ (exists more, buf' = buf ++ more
          /\ forall n, n ∈ declared more -> (n ∉ seen) /\ (err = None -> n ∈ seen'))
    /\ (forall e, err = Some e ->
          Flavor (err_arg e) = FLAVOR_TABLE /\ TableOf (err_arg e) = None).
Proof.
  induction 1 as [|arg args Harg _ IH]; intros i w buf seen w' buf' seen' err E.
  - simpl in E. injection E as <- <- <- <-.
    split; [done|]. split; [exists []; by rewrite app_nil_r|].
    split; [exists []; split; [by rewrite app_nil_r|]|done].
    intros n Hn. by apply elem_of_nil in Hn.
  - simpl in E.
    destruct (bool_decide (Flavor arg = FLAVOR_TABLE) && is_nil (TableOf arg)) eqn:Enil.
    { injection E as <- <- <- <-.
      split; [done|]. split; [exists []; by rewrite app_nil_r|].
      split.
      - exists []. split; [by rewrite app_nil_r|].
        intros n Hn. by apply elem_of_nil in Hn.
      - intros e [= <-]. simpl. rewrite clean_arg_Flavor, clean_arg_TableOf.
        apply andb_prop in Enil as [H1 H2]. apply bool_decide_eq_true_1 in H1.
        split; [done|]. by destruct (TableOf arg). }
    assert (Hgo : forall s,
      fields_from f msgName (S i) args (w ++ [line_of i arg]) buf s
        = (w', buf', seen', err) ->
      seen ⊆ s ->
      (seen ⊆ seen')
      /\ (exists fields, w' = w ++ fields /\ declared fields = [])
      /\ (exists more, buf' = buf ++ more
            /\ forall n, n ∈ declared more -> (n ∉ s) /\ (err = None -> n ∈ seen'))
      /\ (forall e, err = Some e ->
            Flavor (err_arg e) = FLAVOR_TABLE /\ TableOf (err_arg e) = None)).
    { intros s Es Hsub. apply IH in Es as (H1 & (fields & -> & Hf) & Hb & He).
      split; [set_solver|]. split; [|done].
      exists (line_of i arg :: fields). split; [by rewrite <- app_assoc|].
      change (line_of i arg :: fields) with ([line_of i arg] ++ fields).
      by rewrite declared_app, declared_field, Hf. }
    destruct (is_scalar_field arg).
    { apply Hgo in E as (H1 & H2 & H3 & H4); done. }
    destruct (decide (_ ∈ seen)) as [Hseen|Hseen].
    { apply Hgo in E as (H1 & H2 & H3 & H4); done. }
    fold (typ_of arg) in Hseen, E.
    destruct (Harg (typ_of arg) seen) as (Hs1 & Hs2 & Hs3).
    destruct (failure (f arg (typ_of arg) seen)) as [e0|] eqn:Efail.
    + injection E as <- <- <- <-.
      split; [done|]. split; [exists []; by rewrite app_nil_r|].
      split; [|intros e [= <-]; by apply Hs3].
      exists (written (f arg (typ_of arg) seen)). split; [done|].
      intros n Hn. destruct Hs2 as [Hw|(rest & Hw & Hrest)].
      * rewrite Hw in Hn. by apply elem_of_nil in Hn.
      * rewrite Hw in Hn. simpl in Hn. apply elem_of_cons in Hn as [->|Hn].
        -- done.
        -- split; [by apply Hrest|done].
    + apply IH in E as (H1 & (fields & -> & Hf) & (more & -> & Hmore) & He).
      split; [set_solver|].
      split.
      { exists (line_of i arg :: fields). split; [by rewrite <- app_assoc|].
        change (line_of i arg :: fields) with ([line_of i arg] ++ fields).
        by rewrite declared_app, declared_field, Hf. }
      split; [|done].
      exists (written (f arg (typ_of arg) seen) ++ more).
      split; [by rewrite app_assoc|].
      intros n Hn. rewrite declared_app in Hn. apply elem_of_app in Hn as [Hn|Hn].
      * destruct Hs2 as [Hw|(rest & Hw & Hrest)].
        { rewrite Hw in Hn. by apply elem_of_nil in Hn. }
        rewrite Hw in Hn. simpl in Hn. apply elem_of_cons in Hn as [->|Hn].
        -- split; [done|]. intros _. set_solver.
        -- destruct (Hrest n Hn) as [Hn1 Hn2]. split; [done|].
           intros _. specialize (Hn2 eq_refl). set_solver.
      * destruct (Hmore n Hn) as [Hn1 Hn2]. split; [set_solver|done].
Qed.

Lemma write_message_invariant (f : Argument -> string -> gset string -> Emitted)
    (msgName : string) (seen : gset string) (args : list Argument) :
  Forall (sound_nested f) args ->
  emitter_invariant msgName seen (message_with f msgName seen args).
Proof.
  intros Hargs. unfold message_with, write_message.
  destruct (missing_TableOf args) as [a|] eqn:Emiss.
  { apply missing_TableOf_Some in Emiss as (_ & Hf & Ht).
    split; [done|]. split; [by left|]. by intros e [= <-]. }
  destruct (write_fields _ _ _ f msgName 0 args [LMessage msgName] [] seen)
    as [[[w' buf'] seen'] err] eqn:E.
  apply (write_fields_invariant f msgName args Hargs) in E
    as (H1 & (fields & -> & Hf) & (more & -> & Hmore) & He).
  destruct err as [e|]; simpl.
  - split; [done|]. split; [|done]. right. exists fields. split; [done|].
    intros n Hn. rewrite Hf in Hn. by apply elem_of_nil in Hn.
  - split; [done|]. split; [|done]. right.
    exists (fields ++ [LClose] ++ more). split; [done|].
    intros n Hn. rewrite !declared_app, Hf in Hn. simpl in Hn.
    by apply Hmore.
Qed.

Lemma nested_message_unfold (arg : Argument) (typ : string) (seen : gset string) :
  nested arg typ seen = emit typ seen (subArgs arg).
Proof.
  unfold nested, emit, protoWriteMessageTyp, subArgs.
  destruct arg as [n ty tn d fl [t|] [fs|]]; simpl; try reflexivity;
    by destruct (RecordOf t).
Qed.

Lemma nested_message_sound (a : Argument) : sound_nested nested a.
Proof.
  cut (sound_nested nested a
       /\ forall fs, RecordOf a = Some fs -> Forall (sound_nested nested) fs);
    [by intros [H _]|].
  induction a as [a IHt IHfs] using Argument_ind'.
  assert (Hfs : forall fs, RecordOf a = Some fs -> Forall (sound_nested nested) fs).
  { intros fs Hfs. specialize (IHfs fs Hfs).
    eapply Forall_impl; [exact IHfs|]. by intros x [Hx _]. }
  split; [|exact Hfs].
  intros typ seen. rewrite nested_message_unfold.
  apply write_message_invariant. unfold subArgs.
  destruct (TableOf a) as [t|] eqn:Et.
  - destruct (IHt t eq_refl) as [Ht1 Ht2].
    destruct (RecordOf t) as [fs|] eqn:Efs; [by apply Ht2|].
    by constructor.
  - destruct (RecordOf a) as [fs|] eqn:Efs; [by apply Hfs|constructor].
Qed.

(** Every call of [protoWriteMessageTyp] keeps the invariant. *)
Lemma protoWriteMessageTyp_invariant (msgName : string) (seen : gset string)
    (args : list Argument) :
  emitter_invariant msgName seen (emit msgName seen args).
Proof.
  apply write_message_invariant, Forall_forall. intros a _.
  apply nested_message_sound.
Qed.

(** *** Functions with a TABLE argument that has no element type *)

Let save_function := Function_SaveProtobuf ToLower goType replHidden FunctionName DIR_IN DIR_OUT.
Let save_dir := saveProtobufDir ToLower goType replHidden FunctionName DIR_IN DIR_OUT.
Let fun_loop := FunLoop ToLower goType replHidden FunctionName getStructName DIR_IN DIR_OUT.
Let args_of := emitted_args DIR_IN DIR_OUT.
Let msg_name := message_name ToLower FunctionName.

Local Abbreviation seen_after_loop :=
  (Structs.seen_after_loop ToLower goType replHidden FunctionName DIR_IN DIR_OUT).

Lemma FunLoop_app (pre post : list Function) (seen : gset string) :
  fun_loop (pre ++ post) seen
  = fun_loop pre seen ++ fun_loop post (seen_after_loop pre seen).
Proof.
  revert seen. induction pre as [|f pre IH]; intros seen; [done|].
  simpl. fold save_function.
  destruct (failure (save_function f seen)); rewrite IH; [done|].
  by rewrite <- !app_assoc.
Qed.

Lemma emit_missing (msgName : string) (seen : gset string) (args : list Argument)
    (a0 : Argument) :
  missing_TableOf args = Some a0 ->
  emit msgName seen args = mkEmitted [] seen (Some (mkEmitError [] msgName a0)).
Proof.
  intros H. unfold emit, protoWriteMessageTyp, write_message. by rewrite H.
Qed.

Lemma save_function_failure (f : Function) (seen : gset string) (e : EmitError) :
  failure (save_function f seen) = Some e ->
  written (save_function f seen) = []
  /\ Flavor (err_arg e) = FLAVOR_TABLE /\ TableOf (err_arg e) = None.
Proof.
  unfold save_function, Function_SaveProtobuf. fold save_dir.
  destruct (failure (save_dir f seen false)) as [e1|] eqn:E1.
  - simpl. intros [= <-]. split; [done|]. simpl.
    by apply (protoWriteMessageTyp_invariant (msg_name f false) seen (args_of f false)).
  - destruct (failure (save_dir f _ true)) as [e2|] eqn:E2; [|done].
    simpl. intros [= <-]. split; [done|]. simpl.
    by eapply (protoWriteMessageTyp_invariant (msg_name f true) _ (args_of f true)).
Qed.

(** C4 (missing element type at emission): when the arguments passed to
    the emission of a function, for the input or for the output message, hold
    a TABLE argument whose [TableOf] is nil, [Function.SaveProtobuf] returns
    an error and writes nothing.  The error names a TABLE argument without
    element type; it is the first such argument of the input set, with the
    input message's name, when the input set holds one, and otherwise (the
    input message emitted) the first of the output set with the output
    message's name.  [FunLoop] goes on with the functions that follow, and
    the schema holds no line of the failing function. *)
Theorem missing_element_type_skips_function (f : Function) (seen : gset string)
    (arg : Argument) :
  Flavor arg = FLAVOR_TABLE -> TableOf arg = None ->
  In arg (emitted_args DIR_IN DIR_OUT f false)
  \/ In arg (emitted_args DIR_IN DIR_OUT f true) ->
  let save := Function_SaveProtobuf ToLower goType replHidden FunctionName DIR_IN DIR_OUT in
  let loop := FunLoop ToLower goType replHidden FunctionName getStructName DIR_IN DIR_OUT in
  written (save f seen) = []
  /\ (exists e, failure (save f seen) = Some e
        /\ Flavor (err_arg e) = FLAVOR_TABLE /\ TableOf (err_arg e) = None)
  /\ (In arg (emitted_args DIR_IN DIR_OUT f false) ->
      exists a0, missing_TableOf (emitted_args DIR_IN DIR_OUT f false) = Some a0
        /\ save f seen
           = mkEmitted [] seen
               (Some (mkEmitError ["input"%string]
                        (message_name ToLower FunctionName f false) a0)))
  /\ (failure (saveProtobufDir ToLower goType replHidden FunctionName DIR_IN DIR_OUT
                 f seen false) = None ->
      exists a0, missing_TableOf (emitted_args DIR_IN DIR_OUT f true) = Some a0
        /\ failure (save f seen)
           = Some (mkEmitError ["output"%string]
                     (message_name ToLower FunctionName f true) a0))
  /\ (forall rest, loop (f :: rest) seen = loop rest (seen_after (save f seen)))
  /\ (forall pkg pre rest,
        SaveProtobuf ToLower goType replHidden FunctionName getStructName
          DIR_IN DIR_OUT (pre ++ f :: rest) pkg
        = [LSyntax] ++ (if bool_decide (pkg = ""%string) then [] else [LPackage pkg])
            ++ [LImport] ++ loop pre ∅
            ++ loop rest (seen_after (save f (seen_after_loop pre ∅)))).
Proof.
  intros Hfl Hnil Hin save loop.
  assert (Hinput : In arg (args_of f false) ->
            exists a0, missing_TableOf (args_of f false) = Some a0
              /\ save f seen
                 = mkEmitted [] seen
                     (Some (mkEmitError ["input"%string] (msg_name f false) a0))).
  { intros Hi. destruct (missing_TableOf_is_Some _ _ Hi Hfl Hnil) as [a0 Ha0].
    exists a0. split; [done|].
    unfold save, Function_SaveProtobuf, saveProtobufDir.
    fold emit args_of msg_name. by rewrite (emit_missing _ _ _ _ Ha0). }
  assert (Houtput : failure (save_dir f seen false) = None ->
            In arg (args_of f true) ->
            exists a0, missing_TableOf (args_of f true) = Some a0
              /\ failure (save f seen)
                 = Some (mkEmitError ["output"%string] (msg_name f true) a0)).
  { intros Hok Ho. destruct (missing_TableOf_is_Some _ _ Ho Hfl Hnil) as [a0 Ha0].
    exists a0. split; [done|].
    unfold save, Function_SaveProtobuf. fold save_dir. rewrite Hok.
    unfold save_dir, saveProtobufDir. fold emit args_of msg_name.
    by rewrite (emit_missing _ _ _ _ Ha0). }
  assert (Hfail : forall s, exists e, failure (save f s) = Some e).
  { intros s. unfold save, Function_SaveProtobuf. fold save_dir.
    destruct (failure (save_dir f s false)) as [e1|] eqn:E1; [by eexists|].
    assert (Ho : In arg (args_of f true)).
    { destruct Hin as [Hi|Ho]; [|done]. exfalso.
      destruct (missing_TableOf_is_Some _ _ Hi Hfl Hnil) as [a0 Ha0].
      unfold save_dir, saveProtobufDir in E1. fold emit args_of msg_name in E1.
      by rewrite (emit_missing _ _ _ _ Ha0) in E1. }
    destruct (missing_TableOf_is_Some _ _ Ho Hfl Hnil) as [a0 Ha0].
    unfold save_dir at 1, saveProtobufDir. fold emit args_of msg_name.
    rewrite (emit_missing _ _ _ _ Ha0). simpl. by eexists. }
  assert (Hskip : forall s rest, loop (f :: rest) s = loop rest (seen_after (save f s))).
  { intros s rest. destruct (Hfail s) as [e He]. unfold loop. simpl.
    fold save. by rewrite He. }
  destruct (Hfail seen) as [e He].
  destruct (save_function_failure f seen e He) as (Hw & He1 & He2).
  split; [exact Hw|]. split; [by exists e|]. split; [exact Hinput|].
  split.
  { intros Hok. destruct Hin as [Hi|Ho]; [|by apply Houtput].
    exfalso. destruct (missing_TableOf_is_Some _ _ Hi Hfl Hnil) as [a0 Ha0].
    unfold saveProtobufDir in Hok. fold emit args_of msg_name in Hok.
    by rewrite (emit_missing _ _ _ _ Ha0) in Hok. }
  split; [intros rest; apply Hskip|].
  intros pkg pre rest. unfold SaveProtobuf. fold fun_loop.
  rewrite FunLoop_app. fold loop. by rewrite Hskip.
Qed.

(** *** The set of seen type names *)

Lemma composite_not_missing (a b : Argument) :
  composite a -> composite b -> missing_TableOf [a; b] = None.
Proof.
  intros [Ha _] [Hb _]. unfold missing_TableOf. simpl. by rewrite Ha, Hb.
Qed.

(** C5, amended (the first writer wins): when two composite arguments of
    one message resolve to the same type name, not seen before, the message of
    that name is written from the first one only: the second contributes
    its field line and nothing else, so the result does not depend on its
    structure.  The same holds for an argument emitted by a later call with
    the seen set the first call left.  In general a call never declares,
    below its own header, a name that was in the seen set when it began, every
    name it declares is in the set when it has succeeded, and the set only
    grows. *)
Theorem first_writer_wins (msgName : string) (seen : gset string) (a b : Argument) :
  composite a -> composite b ->
  fst (field_type ToLower goType replHidden a)
    = fst (field_type ToLower goType replHidden b) ->
  fst (field_type ToLower goType replHidden a) ∉ seen ->
  failure (protoWriteMessageTyp ToLower goType replHidden
             (fst (field_type ToLower goType replHidden a)) seen (subArgs a)) = None ->
  let typ := fst (field_type ToLower goType replHidden a) in
  let first := protoWriteMessageTyp ToLower goType replHidden typ seen (subArgs a) in
  protoWriteMessageTyp ToLower goType replHidden msgName seen [a; b]
  = mkEmitted
      ([LMessage msgName;
        field_line ToLower goType replHidden 0 a;
        field_line ToLower goType replHidden 1 b;
        LClose] ++ written first)
      ({[ typ ]} ∪ seen_after first) None
  /\ (forall msgName2,
        protoWriteMessageTyp ToLower goType replHidden msgName2
          (seen_after (protoWriteMessageTyp ToLower goType replHidden msgName seen [a]))
          [b]
        = mkEmitted
            [LMessage msgName2; field_line ToLower goType replHidden 0 b; LClose]
            ({[ typ ]} ∪ seen_after first) None)
  /\ (forall m s args,
        emitter_invariant m s (protoWriteMessageTyp ToLower goType replHidden m s args)).
Proof.
  intros [Ha1 Ha2] [Hb1 Hb2] Htyp Hnew Hok typ first.
  assert (Hb_seen : fst (field_type ToLower goType replHidden b)
                      ∈ ({[ typ ]} ∪ seen_after first : gset string)).
  { rewrite <- Htyp. fold typ. set_solver. }
  assert (Hnested : nested_message ToLower goType replHidden a typ seen = first).
  { apply nested_message_unfold. }
  split; [|split].
  - unfold protoWriteMessageTyp at 1, write_message.
    rewrite (composite_not_missing a b) by done.
    simpl. rewrite Ha1, Ha2.
    destruct (decide (_ ∈ seen)) as [Hin|_]; [done|].
    fold typ. rewrite Hnested. unfold first at 1. fold typ in Hok. rewrite Hok.
    rewrite Hb1, Hb2. fold first.
    destruct (decide (_ ∈ _)) as [_|Hout]; [done|]. by destruct Hout.
  - intros msgName2.
    assert (E1 : seen_after (protoWriteMessageTyp ToLower goType replHidden msgName seen [a])
                 = {[ typ ]} ∪ seen_after first).
    { unfold protoWriteMessageTyp at 1, write_message, missing_TableOf. simpl.
      rewrite Ha1, Ha2.
      destruct (decide (_ ∈ seen)) as [Hin|_]; [done|].
      fold typ. rewrite Hnested. unfold first at 1. fold typ in Hok. by rewrite Hok. }
    rewrite E1. unfold protoWriteMessageTyp at 1, write_message, missing_TableOf.
    simpl. rewrite Hb1, Hb2.
    destruct (decide (_ ∈ _)) as [_|Hout]; [done|]. by destruct Hout.
  - intros m s args. apply protoWriteMessageTyp_invariant.
Qed.

End EmitterFacts.

(** *** Concrete instances *)

(** C5 as claimed fails: with [rec_a] before [rec_b] in one message, the
    message [t] is declared twice (for [rec_a] and again for [rec_c] inside
    it, since a name enters the seen set only after its message is complete),
    and neither declaration is that of the later writer [rec_b]: its field
    [y] is nowhere in the output. *)
Lemma last_writer_does_not_win :
  written (protoWriteMessageTyp as_is goType_of_TypeName as_is "m" ∅ [rec_a; rec_b])
  = [LMessage "m";
     LField "" "t" "a" 1 [];
     LField "" "t" "b" 2 [];
     LClose;
     LMessage "t";
     LField "" "t" "c" 1 [];
     LClose;
     LMessage "t";
     LField "" "sint32" "x" 1 [];
     LClose]
  /\ declared
       (written (protoWriteMessageTyp as_is goType_of_TypeName as_is "m" ∅
                   [rec_a; rec_b]))
     = ["m"; "t"; "t"]%string.
Proof. split; vm_compute; reflexivity. Qed.

(** Two records of one name side by side: the message is written from the
    first, the second is only referenced. *)
Lemma first_writer_wins_witness :
  protoWriteMessageTyp as_is goType_of_TypeName as_is "m" ∅ [rec_c; rec_b]
  = mkEmitted
      [LMessage "m";
       LField "" "t" "c" 1 [];
       LField "" "t" "b" 2 [];
       LClose;
       LMessage "t";
       LField "" "sint32" "x" 1 [];
       LClose]
      ({[ "t"%string ]} ∪ ∅) None.
Proof.
  exact (proj1 (first_writer_wins as_is goType_of_TypeName as_is "m" ∅ rec_c rec_b
                  (conj eq_refl eq_refl) (conj eq_refl eq_refl) eq_refl
                  ltac:(set_solver) eq_refl)).
Defined.

(** A function with such a TABLE argument between the header and a sound
    function: the schema holds the sound function only. *)
Lemma missing_element_type_skips_function_witness :
  In table_without_element (emitted_args 1 2 fun_bad false)
  /\ SaveProtobuf as_is goType_of_TypeName as_is plain_name plain_struct 1 2
       [fun_bad; fun_good] "pkg"
     = [LSyntax; LPackage "pkg"; LImport;
        LMessage "P__GOOD__input";
        LField "" "sint32" "n" 1 [];
        LClose;
        LMessage "P__GOOD__output";
        LClose;
        LService "P__GOOD" "P.GOOD_in" "" "P.GOOD_out"].
Proof.
  assert (H : In table_without_element (emitted_args 1 2 fun_bad false)).
  { right. left. reflexivity. }
  split; [exact H|].
  exact (proj2 (proj2 (proj2 (proj2 (proj2
           (missing_element_type_skips_function as_is goType_of_TypeName as_is
              plain_name plain_struct 1 2 fun_bad ∅ table_without_element
              eq_refl eq_refl (or_introl H)))))) "pkg"%string [] [fun_good]).
Defined.

(** ** Field numbers, and the seen set after a skipped function *)

Section EmitterMore.

Variable ToLower : string -> string.
Variable goType : Argument -> bool -> string.
Variable replHidden : string -> string.
Variable FunctionName : Function -> string.
Variable getStructName : Function -> bool -> string.
Variable DIR_IN : Z.
Variable DIR_OUT : Z.

Local Abbreviation typ_of := (fun arg => fst (field_type ToLower goType replHidden arg)).
Local Abbreviation line_of := (field_line ToLower goType replHidden).
Local Abbreviation fields_from := (write_fields ToLower goType replHidden).
Local Abbreviation nested := (nested_message ToLower goType replHidden).
Local Abbreviation emit := (protoWriteMessageTyp ToLower goType replHidden).
Local Abbreviation save_function :=
  (Function_SaveProtobuf ToLower goType replHidden FunctionName DIR_IN DIR_OUT).
Local Abbreviation msg_name := (message_name ToLower FunctionName).
Local Abbreviation schema :=
  (SaveProtobuf ToLower goType replHidden FunctionName getStructName DIR_IN DIR_OUT).

Lemma write_fields_lines (f : Argument -> string -> gset string -> Emitted)
    (msgName : string) (args : list Argument) (i : nat) (w buf : list Line)
    (seen : gset string) (w' buf' : list Line) (seen' : gset string) :
  fields_from f msgName i args w buf seen = (w', buf', seen', None) ->
  w' = w ++ imap (fun j a => line_of (i + j) a) args.
Proof.
  revert i w buf seen. induction args as [|arg args IH]; intros i w buf seen; simpl.
  - intros [= <- _ _]. by rewrite app_nil_r.
  - rewrite (imap_ext _ (fun j a => line_of (S i + j) a))
      by (intros; simpl; f_equal; lia).
    rewrite Nat.add_0_r.
    destruct (bool_decide (Flavor arg = FLAVOR_TABLE) && is_nil (TableOf arg));
      [done|].
    destruct (is_scalar_field arg).
    { intros H. rewrite (IH _ _ _ _ H). by rewrite <- app_assoc. }
    destruct (decide _).
    { intros H. rewrite (IH _ _ _ _ H). by rewrite <- app_assoc. }
    destruct (failure (f arg _ seen)); [done|].
    intros H. rewrite (IH _ _ _ _ H). by rewrite <- app_assoc.
Qed.

Lemma write_fields_scalar (f : Argument -> string -> gset string -> Emitted)
    (msgName : string) (args : list Argument) (i : nat) (w buf : list Line)
    (seen : gset string) :
  Forall (fun a => is_scalar_field a = true) args ->
  fields_from f msgName i args w buf seen
  = (w ++ imap (fun j a => line_of (i + j) a) args, buf, seen, None).
Proof.
  intros Hs. revert i w. induction Hs as [|arg args Ha _ IH]; intros i w; simpl.
  - by rewrite app_nil_r.
  - rewrite (imap_ext _ (fun j a => line_of (S i + j) a))
      by (intros; simpl; f_equal; lia).
    rewrite Nat.add_0_r.
    assert (Hm : bool_decide (Flavor arg = FLAVOR_TABLE) && is_nil (TableOf arg) = false).
    { unfold is_scalar_field in Ha.
      destruct (bool_decide (Flavor arg = FLAVOR_TABLE)) eqn:Ht; [|done].
      apply bool_decide_eq_true in Ht. rewrite Ht in Ha. simpl in Ha.
      by destruct (TableOf arg). }
    rewrite Hm, Ha, IH. by rewrite <- app_assoc.
Qed.

Lemma scalar_not_missing (args : list Argument) :
  Forall (fun a => is_scalar_field a = true) args -> missing_TableOf args = None.
Proof.
  unfold missing_TableOf. induction 1 as [|arg args Ha _ IH]; [done|]. simpl.
  assert (Hm : bool_decide (Flavor arg = FLAVOR_TABLE) && is_nil (TableOf arg) = false).
  { unfold is_scalar_field in Ha.
    destruct (bool_decide (Flavor arg = FLAVOR_TABLE)) eqn:Ht; [|done].
    apply bool_decide_eq_true in Ht. rewrite Ht in Ha. simpl in Ha.
    by destruct (TableOf arg). }
  by rewrite Hm.
Qed.

(** The fields of a message are numbered by position: a call that succeeds
    writes the header, then one field line for each argument, in order, with
    the numbers 1, 2, ..., then the closing line, and only then the nested
    messages.  When every argument is SIMPLE or a TABLE of SIMPLE there is
    no nested message, the call succeeds and the seen set is as it was. *)
Theorem message_fields_are_numbered (msgName : string) (seen : gset string)
    (args : list Argument) :
  (failure (protoWriteMessageTyp ToLower goType replHidden msgName seen args) = None ->
   exists nested_messages,
     written (protoWriteMessageTyp ToLower goType replHidden msgName seen args)
     = [LMessage msgName]
         ++ imap (fun i a => field_line ToLower goType replHidden i a) args
         ++ [LClose] ++ nested_messages)
  /\ (Forall (fun a => is_scalar_field a = true) args ->
      protoWriteMessageTyp ToLower goType replHidden msgName seen args
      = mkEmitted
          ([LMessage msgName]
             ++ imap (fun i a => field_line ToLower goType replHidden i a) args
             ++ [LClose])
          seen None).
Proof.
  split.
  - unfold protoWriteMessageTyp, write_message.
    destruct (missing_TableOf args); [done|].
    destruct (write_fields _ _ _ _ _ _ _ _ _ _) as [[[w buf] seen'] [e|]] eqn:E;
      [done|].
    intros _. exists buf. simpl.
    by rewrite (write_fields_lines _ _ _ _ _ _ _ _ _ _ E).
  - intros Hs. unfold protoWriteMessageTyp, write_message.
    rewrite (scalar_not_missing _ Hs), (write_fields_scalar _ _ _ _ _ _ _ Hs).
    done.
Qed.

(** *** A skipped function and the seen set *)

(** A function that is skipped leaves its mark in the seen set.  Let [f] have
    the composite arguments [a] and [b] as input, the nested message of [a]
    being sound and that of [b] holding a TABLE without element type, and let
    a later function [g] have [a] as its only input.  Alone, [g] is emitted
    with the nested message of [a].  After [f], which is skipped with all it
    wrote, the type name of [a] is in the seen set: [g] is emitted with a
    field of that type and without the message. *)
Theorem skipped_function_hides_a_message (pkg : string) (f g : Function)
    (a b x : Argument) :
  composite a -> composite b ->
  let typ := fst (field_type ToLower goType replHidden a) in
  let first := protoWriteMessageTyp ToLower goType replHidden typ ∅ (subArgs a) in
  failure first = None ->
  fst (field_type ToLower goType replHidden b) ∉ ({[ typ ]} ∪ seen_after first) ->
  missing_TableOf (subArgs b) = Some x ->
  emitted_args DIR_IN DIR_OUT f false = [a; b] ->
  emitted_args DIR_IN DIR_OUT g false = [a] ->
  emitted_args DIR_IN DIR_OUT g true = [] ->
  let head := [LSyntax] ++ (if bool_decide (pkg = ""%string) then [] else [LPackage pkg])
                ++ [LImport] in
  let service := service_line ToLower FunctionName getStructName DIR_OUT g in
  SaveProtobuf ToLower goType replHidden FunctionName getStructName DIR_IN DIR_OUT
    [g] pkg
  = head ++ [LMessage (message_name ToLower FunctionName g false);
             field_line ToLower goType replHidden 0 a; LClose]
         ++ written first
         ++ [LMessage (message_name ToLower FunctionName g true); LClose; service]
  /\ SaveProtobuf ToLower goType replHidden FunctionName getStructName DIR_IN DIR_OUT
       [f; g] pkg
     = head ++ [LMessage (message_name ToLower FunctionName g false);
                field_line ToLower goType replHidden 0 a; LClose;
                LMessage (message_name ToLower FunctionName g true); LClose; service].
Proof.
  intros [Ha1 Ha2] [Hb1 Hb2] typ first Hok Hb Hx Hf Hg Hgo head service.
  assert (Hna : forall s, nested a typ s = emit typ s (subArgs a)).
  { intros s. apply nested_message_unfold. }
  assert (Hnb : forall t s, nested b t s = emit t s (subArgs b)).
  { intros t s. apply nested_message_unfold. }
  assert (Hone_new : forall m, emit m ∅ [a]
            = mkEmitted ([LMessage m; line_of 0 a; LClose] ++ written first)
                ({[ typ ]} ∪ seen_after first) None).
  { intros m. unfold protoWriteMessageTyp at 1, write_message, missing_TableOf.
    simpl. rewrite Ha1, Ha2.
    destruct (decide (_ ∈ ∅)) as [Hin|_]; [set_solver|].
    fold typ. rewrite Hna. fold first. by rewrite Hok. }
  assert (Hone_seen : forall m, emit m ({[ typ ]} ∪ seen_after first) [a]
            = mkEmitted [LMessage m; line_of 0 a; LClose]
                ({[ typ ]} ∪ seen_after first) None).
  { intros m. unfold protoWriteMessageTyp at 1, write_message, missing_TableOf.
    simpl. rewrite Ha1, Ha2. fold typ.
    destruct (decide (_ ∈ _)) as [_|Hout]; [done|]. destruct Hout. set_solver. }
  assert (Hnone : forall m s, emit m s [] = mkEmitted [LMessage m; LClose] s None).
  { done. }
  assert (Hfail : exists e, save_function f ∅
            = mkEmitted [] ({[ typ ]} ∪ seen_after first) (Some e)).
  { unfold Function_SaveProtobuf, saveProtobufDir. rewrite Hf.
    unfold protoWriteMessageTyp at 1 2 3, write_message.
    rewrite (composite_not_missing a b) by done.
    simpl. rewrite Ha1, Ha2.
    destruct (decide (_ ∈ ∅)) as [Hin|_]; [set_solver|].
    fold typ. rewrite Hna. fold first. rewrite Hok.
    rewrite Hb1, Hb2.
    destruct (decide (_ ∈ _)) as [Hin|_]; [done|].
    rewrite Hnb. rewrite (emit_missing _ _ _ _ _ _ _ Hx). simpl. by eexists. }
  destruct Hfail as [e Hfail].
  assert (Hg_new : save_function g ∅
            = mkEmitted
                ([LMessage (msg_name g false); line_of 0 a; LClose] ++ written first
                   ++ [LMessage (msg_name g true); LClose])
                ({[ typ ]} ∪ seen_after first) None).
  { unfold Function_SaveProtobuf, saveProtobufDir. rewrite Hg, Hgo, Hone_new.
    cbn [failure seen_after written]. rewrite Hnone.
    cbn [failure seen_after written]. by rewrite <- !app_assoc. }
  assert (Hg_seen : save_function g ({[ typ ]} ∪ seen_after first)
            = mkEmitted
                [LMessage (msg_name g false); line_of 0 a; LClose;
                 LMessage (msg_name g true); LClose]
                ({[ typ ]} ∪ seen_after first) None).
  { unfold Function_SaveProtobuf, saveProtobufDir. rewrite Hg, Hgo, Hone_seen.
    cbn [failure seen_after written]. by rewrite Hnone. }
  unfold SaveProtobuf. split.
  - cbn [FunLoop]. rewrite Hg_new. cbn [failure seen_after written].
    unfold head. by rewrite <- !app_assoc.
  - cbn [FunLoop]. rewrite Hfail. cbn [failure seen_after written].
    rewrite Hg_seen. cbn [failure seen_after written]. unfold head.
    by rewrite <- !app_assoc.
Qed.

End EmitterMore.

(** ** Emission without error *)

Section EmitterComplete.

Variable ToLower : string -> string.
Variable goType : Argument -> bool -> string.
Variable replHidden : string -> string.
Variable FunctionName : Function -> string.
Variable getStructName : Function -> bool -> string.
Variable DIR_IN : Z.
Variable DIR_OUT : Z.

Local Abbreviation fields_from := (write_fields ToLower goType replHidden).
Local Abbreviation nested := (nested_message ToLower goType replHidden).
Local Abbreviation emit := (protoWriteMessageTyp ToLower goType replHidden).

Lemma elements_known_inv (a : Argument) :
  elements_known a = true ->
  bool_decide (Flavor a = FLAVOR_TABLE) && is_nil (TableOf a) = false
  /\ (forall t, TableOf a = Some t -> elements_known t = true)
  /\ (forall fs, RecordOf a = Some fs -> forallb elements_known fs = true).
Proof.
  destruct a as [n ty tn d fl tof rof]. simpl.
  intros [[H1 H2]%andb_true_iff H3]%andb_true_iff.
  apply negb_true_iff in H1. split; [done|]. split.
  - by intros t ->.
  - by intros fs ->.
Qed.

Lemma known_not_missing (args : list Argument) :
  forallb elements_known args = true -> missing_TableOf args = None.
Proof.
  unfold missing_TableOf. induction args as [|a args IH]; [done|]. simpl.
  intros [Ha Hr]%andb_true_iff.
  destruct (elements_known_inv a Ha) as (Hm & _). rewrite Hm. by apply IH.
Qed.

Lemma write_fields_never_fails (f : Argument -> string -> gset string -> Emitted)
    (msgName : string) (args : list Argument) :
  Forall (never_fails f) args -> forallb elements_known args = true ->
  forall i w buf seen, snd (fields_from f msgName i args w buf seen) = None.
Proof.
  induction 1 as [|a args Ha _ IH]; [done|]. simpl.
  intros [Hk Hr]%andb_true_iff i w buf seen.
  destruct (elements_known_inv a Hk) as (Hm & _). rewrite Hm.
  destruct (is_scalar_field a); [by apply IH|].
  destruct (decide _); [by apply IH|].
  rewrite (Ha Hk). by apply IH.
Qed.

Lemma write_message_never_fails (f : Argument -> string -> gset string -> Emitted)
    (msgName : string) (seen : gset string) (args : list Argument) :
  Forall (never_fails f) args -> forallb elements_known args = true ->
  failure (write_message ToLower goType replHidden f msgName seen args) = None.
Proof.
  intros Hf Hk. unfold write_message. rewrite (known_not_missing _ Hk).
  pose proof (write_fields_never_fails f msgName args Hf Hk 0 [LMessage msgName] [] seen)
    as H.
  destruct (write_fields _ _ _ _ _ _ _ _ _ _) as [[[w buf] seen'] [e|]]; [done|done].
Qed.

Lemma nested_never_fails (a : Argument) : never_fails nested a.
Proof.
  cut (never_fails nested a
       /\ forall fs, RecordOf a = Some fs -> Forall (never_fails nested) fs);
    [by intros [H _]|].
  induction a as [a IHt IHfs] using Argument_ind'.
  assert (Hfs : forall fs, RecordOf a = Some fs -> Forall (never_fails nested) fs).
  { intros fs Hfs. specialize (IHfs fs Hfs).
    eapply Forall_impl; [exact IHfs|]. by intros x [Hx _]. }
  split; [|exact Hfs].
  intros Hk typ seen. rewrite (nested_message_unfold ToLower goType replHidden).
  destruct (elements_known_inv a Hk) as (_ & Ht & Hr).
  apply write_message_never_fails; unfold subArgs.
  - destruct (TableOf a) as [t|] eqn:Et.
    + destruct (IHt t eq_refl) as [Ht1 Ht2].
      destruct (RecordOf t) as [fs|] eqn:Efs; [by apply Ht2|by constructor].
    + destruct (RecordOf a) as [fs|] eqn:Efs; [by apply Hfs|constructor].
  - destruct (TableOf a) as [t|] eqn:Et.
    + specialize (Ht t eq_refl).
      destruct (RecordOf t) as [fs|] eqn:Efs.
      * by destruct (elements_known_inv t Ht) as (_ & _ & H); apply H.
      * simpl. by rewrite Ht.
    + destruct (RecordOf a) as [fs|] eqn:Efs; [by apply Hr|done].
Qed.

Lemma emit_never_fails (msgName : string) (seen : gset string)
    (args : list Argument) :
  forallb elements_known args = true -> failure (emit msgName seen args) = None.
Proof.
  intros Hk. apply write_message_never_fails; [|done].
  apply Forall_forall. intros a _. apply nested_never_fails.
Qed.

(** The messages of a function are written to the buffer for no other
    reason of failure than a missing element type.  [Function.SaveProtobuf]
    calls [saveProtobufDir] on a [bytes.Buffer] of its own, which takes every
    write, so [ErrMissingTableOf] is the only error of these calls: when no
    argument of the function, nor its return value, holds a TABLE without
    element type anywhere in its tree, [saveProtobufDir] returns no error for
    either direction, whatever the seen set; and [protoWriteMessageTyp]
    returns none for any message name, on any arguments of that kind. *)
Theorem saveProtobufDir_succeeds_when_elements_are_known (f : Function) :
  forallb elements_known (Args f) = true ->
  (forall r, Returns f = Some r -> elements_known r = true) ->
  (forall out seen,
     failure (saveProtobufDir ToLower goType replHidden FunctionName DIR_IN DIR_OUT
                f seen out) = None)
  /\ (forall msgName seen args,
        forallb elements_known args = true ->
        failure (protoWriteMessageTyp ToLower goType replHidden msgName seen args)
        = None).
Proof.
  intros Hargs Hret. split; [|intros msgName seen args; apply emit_never_fails].
  intros out seen. unfold saveProtobufDir. apply emit_never_fails.
  unfold emitted_args.
  assert (Hfil : forall p, forallb elements_known (List.filter p (Args f)) = true).
  { intros p. apply forallb_forall. intros a [Ha _]%filter_In.
    by apply (proj1 (forallb_forall _ _) Hargs). }
  destruct out; [|apply Hfil].
  rewrite forallb_app, Hfil. simpl.
  destruct (Returns f) as [r|]; [|done]. simpl. by rewrite (Hret r).
Qed.

End EmitterComplete.

(** ** Concrete schemas *)

(** [P.SECOND], whose record holds a NUMBER: both of its messages are
    written without error. *)
Lemma saveProtobufDir_succeeds_when_elements_are_known_witness :
  forallb elements_known (Args fun_second) = true
  /\ Returns fun_second = None
  /\ failure (saveProtobufDir as_is goType_of_TypeName as_is plain_name 1 2
                fun_second ∅ false) = None
  /\ failure (saveProtobufDir as_is goType_of_TypeName as_is plain_name 1 2
                fun_second ∅ true) = None.
Proof.
  assert (H : forallb elements_known (Args fun_second) = true) by reflexivity.
  split; [exact H|]. split; [reflexivity|].
  destruct (saveProtobufDir_succeeds_when_elements_are_known as_is
              goType_of_TypeName as_is plain_name 1 2 fun_second H
              ltac:(discriminate)) as [Hdir _].
  split; [exact (Hdir false ∅)|exact (Hdir true ∅)].
Defined.

(** [P.FIRST] has the sound record and the broken one, [P.SECOND] the sound
    one: alone, [P.SECOND] comes with the message [ta]; after [P.FIRST] it
    comes with a field of type [ta] and no such message. *)
Lemma skipped_function_hides_a_message_witness :
  missing_TableOf (subArgs rec_broken) = Some table_without_element
  /\ SaveProtobuf as_is goType_of_TypeName as_is plain_name plain_struct 1 2
       [fun_second] "pkg"
     = [LSyntax; LPackage "pkg"; LImport;
        LMessage "P__SECOND__input"; LField "" "ta" "a" 1 []; LClose;
        LMessage "ta"; LField "" "sint32" "x" 1 []; LClose;
        LMessage "P__SECOND__output"; LClose;
        LService "P__SECOND" "P.SECOND_in" "" "P.SECOND_out"]
  /\ SaveProtobuf as_is goType_of_TypeName as_is plain_name plain_struct 1 2
       [fun_first; fun_second] "pkg"
     = [LSyntax; LPackage "pkg"; LImport;
        LMessage "P__SECOND__input"; LField "" "ta" "a" 1 []; LClose;
        LMessage "P__SECOND__output"; LClose;
        LService "P__SECOND" "P.SECOND_in" "" "P.SECOND_out"].
Proof.
  assert (Hx : missing_TableOf (subArgs rec_broken) = Some table_without_element)
    by reflexivity.
  split; [exact Hx|].
  exact (skipped_function_hides_a_message as_is goType_of_TypeName as_is plain_name
           plain_struct 1 2 "pkg" fun_first fun_second rec_sound rec_broken
           table_without_element
           (conj eq_refl eq_refl) (conj eq_refl eq_refl) eq_refl
           ltac:(apply (bool_decide_unpack _); vm_compute; exact I) Hx eq_refl eq_refl eq_refl).
Defined.

End StructsFacts.

(** * Properties of package orasrv *)

Module OrasrvFacts.

Import Orasrv.

Section ContextFacts.

Variable Logger : Type.
Variable With : Logger -> string -> string -> Logger.
Variable goracleLogKey : nat.
Variable goracleLog : Logger -> nat.

Lemma Value_later (later ctx : Context Logger) (k : ContextKey) :
  Forall (fun kv => fst kv <> k) later ->
  Value Logger (later ++ ctx) k = Value Logger ctx k.
Proof.
  induction 1 as [|[k' v] later Hk _ IH]; [done|]. simpl in *.
  by rewrite decide_False.
Qed.

(** The request id and the logger of a context: what [ContextWithReqID]
    stores is what [ContextGetReqID] returns (the id given, or a new ULID for
    the empty id), and [ContextGetLogger] returns the logger
    [ContextWithLogger] stored (a [nil] one as [nil]), whatever is bound under
    other keys afterwards; and neither pair disturbs the other. *)
Theorem context_round_trips (ctx later : Context Logger) (reqID ulid ulid' : string)
    (logger : option Logger) :
  (Forall (fun kv => fst kv <> reqIDCtxKey) later ->
   ContextGetReqID Logger ulid' (later ++ ContextWithReqID Logger ulid ctx reqID)
   = (if bool_decide (reqID = ""%string) then ulid else reqID))
  /\ (Forall (fun kv => fst kv <> loggerCtxKey) later ->
      ContextGetLogger Logger (later ++ ContextWithLogger Logger ctx logger) = logger)
  /\ ContextGetReqID Logger ulid (ContextWithLogger Logger ctx logger)
     = ContextGetReqID Logger ulid ctx
  /\ ContextGetLogger Logger (ContextWithReqID Logger ulid ctx reqID)
     = ContextGetLogger Logger ctx.
Proof.
  split_and!; try done.
  - intros H. unfold ContextGetReqID. by rewrite (Value_later _ _ _ H).
  - intros H. unfold ContextGetLogger. rewrite (Value_later _ _ _ H).
    by destruct logger.
Qed.

(** [getLogger] tags the logger with the request id of the incoming
    context, or with a new ULID when it has none, and the context it returns
    carries that logger and, whether verbose or not, that same id; only for an
    incoming id that is the empty string does the context get a second new
    ULID that the logger does not show.  [wasThere] is set exactly when the
    server is not verbose and the method is among the errored ones. *)
Theorem getLogger_keeps_the_request_id (ulid1 ulid2 ulid3 : string)
    (logger : Logger) (verbose : bool) (erroredMethods : gset string)
    (ctx : Context Logger) (fullMethod : string) :
  let reqID := ContextGetReqID Logger ulid1 ctx in
  let '(logger', wasThere, ctx') :=
    getLogger Logger With goracleLogKey goracleLog ulid1 ulid2 logger verbose
      erroredMethods ctx fullMethod in
  logger' = With logger "reqID" reqID
  /\ ContextGetLogger Logger ctx' = Some logger'
  /\ ContextGetReqID Logger ulid3 ctx'
     = (if bool_decide (reqID = ""%string) then ulid2 else reqID)
  /\ (wasThere = true <-> verbose = false /\ fullMethod ∈ erroredMethods).
Proof.
  unfold getLogger. simpl. split; [done|].
  assert (Hw : negb verbose && bool_decide (fullMethod ∈ erroredMethods) = true
               <-> verbose = false /\ fullMethod ∈ erroredMethods).
  { rewrite andb_true_iff, negb_true_iff, bool_decide_eq_true. done. }
  destruct (verbose || _); by split_and!.
Qed.

End ContextFacts.

Lemma commit_elem (m m' : string) (wasThere failed : bool) (e : gset string) :
  m' ∈ commit m wasThere failed e
  <-> if decide (m' = m)
      then (if wasThere && negb failed then False
            else if failed && negb wasThere then True else m ∈ e)
      else m' ∈ e.
Proof.
  unfold commit. destruct (decide (m' = m)) as [->|Hne].
  - destruct (wasThere && negb failed); [set_solver|].
    destruct (failed && negb wasThere); set_solver.
  - destruct (wasThere && negb failed); [set_solver|].
    destruct (failed && negb wasThere); set_solver.
Qed.

Lemma intercept_elem (verbose : bool) (e : gset string) (m m' : string)
    (res : CallResult) :
  m' ∈ intercept verbose e m res
  <-> match res with
      | Returned failed =>
          if decide (m' = m)
          then (if verbose then failed = true \/ m ∈ e else failed = true)
          else m' ∈ e
      | _ => m' ∈ e
      end.
Proof.
  unfold intercept. destruct res as [|failed|]; [done| |done].
  rewrite commit_elem. destruct (decide (m' = m)) as [->|Hne]; [|done].
  destruct verbose; simpl.
  - destruct failed; simpl; [by intuition|]. by intuition.
  - destruct (bool_decide (m ∈ e)) eqn:Hin; simpl.
    + apply bool_decide_eq_true in Hin. destruct failed; simpl; by intuition.
    + apply bool_decide_eq_false in Hin. destruct failed; simpl; by intuition.
Qed.

Lemma serve_verbose (calls : list (string * CallResult)) (e : gset string)
    (m : string) :
  m ∈ fold_left (fun e c => intercept true e (fst c) (snd c)) calls e
  <-> m ∈ e \/ (m, Returned true) ∈ calls.
Proof.
  revert e. induction calls as [|[m' res] calls IH]; intros e; simpl.
  - set_solver.
  - rewrite IH, intercept_elem, elem_of_cons.
    destruct res as [|failed|]; [by intuition| |by intuition].
    destruct (decide (m = m')) as [->|Hne].
    + destruct failed; [by intuition|].
      split; [intros [[?|?]|?]; auto; done|intros [?|[?|?]]; auto; done].
    + split; [by intuition|]. intros [?|[[= ? _]|?]]; by intuition.
Qed.

Lemma intercept_bool (e : gset string) (m m' : string) (res : CallResult) :
  bool_decide (m ∈ intercept false e m' res)
  = match res with
    | Returned failed =>
        if decide (m' = m) then failed else bool_decide (m ∈ e)
    | _ => bool_decide (m ∈ e)
    end.
Proof.
  destruct res as [|failed|]; try done.
  destruct (decide (m' = m)) as [->|Hne].
  - destruct failed.
    + apply bool_decide_eq_true_2, intercept_elem. by rewrite decide_True.
    + apply bool_decide_eq_false_2. rewrite intercept_elem.
      by rewrite decide_True.
  - apply bool_decide_ext. rewrite intercept_elem. by rewrite decide_False.
Qed.

Lemma serve_quiet (calls : list (string * CallResult)) (e : gset string)
    (m : string) :
  m ∈ fold_left (fun e c => intercept false e (fst c) (snd c)) calls e
  <-> last_returned m calls (Some (bool_decide (m ∈ e))) = Some true.
Proof.
  revert e. induction calls as [|[m' res] calls IH]; intros e; simpl.
  - split; [intros H; by rewrite bool_decide_eq_true_2|].
    intros [= H]. by apply bool_decide_eq_true in H.
  - rewrite IH, intercept_bool. destruct res as [|failed|]; try done.
    by destruct (decide (m' = m)).
Qed.

Lemma last_returned_init (m : string) (calls : list (string * CallResult)) :
  last_returned m calls (Some false) = Some true
  <-> last_returned m calls None = Some true.
Proof.
  induction calls as [|[m' res] calls IH]; simpl; [done|].
  destruct res as [|failed|]; try done. by destruct (decide (m' = m)).
Qed.

(** For calls handled one after the other by a server that is not verbose,
    a method is among the errored ones exactly when the last of its calls
    whose handler returned, returned an error; calls refused by [checkAuth]
    and calls that panicked do not count.  A verbose server never takes a
    method out: it holds every method one of whose calls returned an error. *)
Theorem errored_methods_follow_the_last_call (calls : list (string * CallResult))
    (m : string) :
  (m ∈ serve false calls <-> last_returned m calls None = Some true)
  /\ (m ∈ serve true calls <-> (m, Returned true) ∈ calls).
Proof.
  unfold serve. split.
  - rewrite serve_quiet, <- last_returned_init.
    by rewrite bool_decide_eq_false_2 by set_solver.
  - rewrite serve_verbose. set_solver.
Qed.

(** [commit] touches the entry of its own method only, whatever the set
    has become since [getLogger] looked at it; a call that returned without
    error adds nothing to the set, and one that returned an error removes
    nothing. *)
Theorem commit_is_local (m : string) (wasThere failed : bool) (e : gset string) :
  (forall m', m' <> m -> m' ∈ commit m wasThere failed e <-> m' ∈ e)
  /\ (failed = false -> commit m wasThere failed e ⊆ e)
  /\ (failed = true -> e ⊆ commit m wasThere failed e).
Proof.
  split_and!.
  - intros m' Hne. rewrite commit_elem. by rewrite decide_False.
  - intros -> m'. rewrite commit_elem. destruct (decide _) as [->|]; [|done].
    destruct wasThere; simpl; done.
  - intros -> m'. rewrite commit_elem. destruct (decide _) as [->|]; [|done].
    destruct wasThere; simpl; done.
Qed.

End OrasrvFacts.
